(** * SieveCache: a shallow embedding of [src/index.ts] and its properties

    The TypeScript classes [Node] and [SieveCache] are embedded as records
    over an explicit object store.  Node references become store locations,
    every method becomes a computation in a small state monad, and the
    two [while] loops become bounded recursions whose bounds are shown below
    to be never reached on the states the class can be in. *)

From Stdlib Require Import ZArith Lia.
From stdpp Require Import gmap strings list fin_maps pretty.

#[local] Set Warnings "-clear-no-such-hyp".

(** ** Data model *)

(** A reference to a [Node] object: its index in the object store. *)
Abbreviation loc := nat.

(** [class Node<T>]: [prev] and [next] are [Node<T> | null]. *)
Record Node (V : Type) := mkNode {
  key : string;
  value : V;
  prev : option loc;
  next : option loc;
  visited : bool
}.
Arguments mkNode {V} _ _ _ _ _.
Arguments key {V} _.
Arguments value {V} _.
Arguments prev {V} _.
Arguments next {V} _.
Arguments visited {V} _.

(** [class SieveCache<V>].  The field [nodes] is the store holding every
    [Node] object the cache has created; objects are never freed, exactly
    as in a garbage-collected heap where a stale reference stays valid.
    [size] and [capacity] are JavaScript numbers; [size] only ever holds
    integers, and the model takes [capacity] to be an integer as well
    (a fractional capacity or NaN is outside it). *)
Record SieveCache (V : Type) := mkCache {
  nodes : list (Node V);
  head : option loc;
  tail : option loc;
  hand : option loc;
  size : Z;
  capacity : Z;
  map : gmap string loc
}.
Arguments mkCache {V} _ _ _ _ _ _ _.
Arguments nodes {V} _.
Arguments head {V} _.
Arguments tail {V} _.
Arguments hand {V} _.
Arguments size {V} _.
Arguments capacity {V} _.
Arguments map {V} _.

(** Outcome of running a method.  [Stuck] (a read through a reference that
    is not in the store) and [Timeout] (a loop bound exhausted) have no
    counterpart in the source; the theorems show when they cannot occur. *)
Inductive res (A : Type) :=
| Done (a : A)
| Stuck
| Timeout.
Arguments Done {A} a.
Arguments Stuck {A}.
Arguments Timeout {A}.

Section Model.
Context {V : Type}.

Abbreviation node := (Node V).
Abbreviation cache := (SieveCache V).

(** *** Field assignment *)

Definition with_value (v : V) (n : node) : node :=
  mkNode (key n) v (prev n) (next n) (visited n).
Definition with_prev (p : option loc) (n : node) : node :=
  mkNode (key n) (value n) p (next n) (visited n).
Definition with_next (q : option loc) (n : node) : node :=
  mkNode (key n) (value n) (prev n) q (visited n).
Definition with_visited (b : bool) (n : node) : node :=
  mkNode (key n) (value n) (prev n) (next n) b.

Definition with_nodes (h : list node) (c : cache) : cache :=
  mkCache h (head c) (tail c) (hand c) (size c) (capacity c) (map c).
Definition with_head (o : option loc) (c : cache) : cache :=
  mkCache (nodes c) o (tail c) (hand c) (size c) (capacity c) (map c).
Definition with_tail (o : option loc) (c : cache) : cache :=
  mkCache (nodes c) (head c) o (hand c) (size c) (capacity c) (map c).
Definition with_hand (o : option loc) (c : cache) : cache :=
  mkCache (nodes c) (head c) (tail c) o (size c) (capacity c) (map c).
Definition with_size (z : Z) (c : cache) : cache :=
  mkCache (nodes c) (head c) (tail c) (hand c) z (capacity c) (map c).
Definition with_map (m : gmap string loc) (c : cache) : cache :=
  mkCache (nodes c) (head c) (tail c) (hand c) (size c) (capacity c) m.

(** *** The method monad: state passing over the cache object *)

Definition M (A : Type) : Type := cache -> res (A * cache).

Definition ret {A} (a : A) : M A := fun c => Done (a, c).

Definition bind {A B} (m : M A) (f : A -> M B) : M B :=
  fun c =>
    match m c with
    | Done (a, c') => f a c'
    | Stuck => Stuck
    | Timeout => Timeout
    end.

Definition gets {A} (f : cache -> A) : M A := fun c => Done (f c, c).
Definition modify (f : cache -> cache) : M unit := fun c => Done (tt, f c).
Definition timeout {A} : M A := fun _ => Timeout.

Notation "x <- m ;; f" := (bind m (fun x => f))
  (at level 20, m at level 99, f at level 200, only parsing).
Notation "m ;; f" := (bind m (fun _ => f))
  (at level 100, f at level 200, only parsing, right associativity).

(** [o.field]: dereference a node reference. *)
Definition read (l : loc) : M node :=
  fun c => match nodes c !! l with
           | Some n => Done (n, c)
           | None => Stuck
           end.

(** [o.field = x]: update one field of the object behind a reference. *)
Definition write (l : loc) (f : node -> node) : M unit :=
  n <- read l ;; modify (fun c => with_nodes (<[l := f n]> (nodes c)) c).

(** [new Node(key, value)]: the constructor sets [next], [prev] to null and
    [visited] to false. *)
Definition new_Node (k : string) (v : V) : M loc :=
  fun c => Done (length (nodes c),
                 with_nodes (nodes c ++ [mkNode k v None None false]) c).

(** ** Methods of [SieveCache] *)

(** [constructor(capacity)]: no validation, no [throw]. *)
Definition constructor (capacity : Z) : res cache :=
  Done (mkCache [] None None None 0 capacity ∅).

(** [_addToHead(node)] *)
Definition _addToHead (node : loc) : M unit :=
  h <- gets head ;;
  write node (with_next h) ;;
  write node (with_prev None) ;;
  h <- gets head ;;
  match h with
  | Some hd => write hd (with_prev (Some node))
  | None => ret tt
  end ;;
  modify (with_head (Some node)) ;;
  t <- gets tail ;;
  match t with
  | None => modify (with_tail (Some node))
  | Some _ => ret tt
  end.

(** [_removeNode(node)] *)
Definition _removeNode (node : loc) : M unit :=
  n <- read node ;;
  match prev n with
  | Some p => write p (with_next (next n))
  | None => modify (with_head (next n))
  end ;;
  n <- read node ;;
  match next n with
  | Some q => write q (with_prev (prev n))
  | None => modify (with_tail (prev n))
  end ;;
  write node (with_next None) ;;
  write node (with_prev None).

(** [delete(key)] *)
Definition delete (k : string) : M bool :=
  found <- gets (fun c => map c !! k) ;;
  match found with
  | None => ret false
  | Some node =>
    hd <- gets hand ;;
    (if bool_decide (hd = Some node)
     then n <- read node ;; modify (with_hand (prev n))
     else ret tt) ;;
    modify (fun c => with_map (base.delete k (map c)) c) ;;
    _removeNode node ;;
    modify (fun c => with_size (size c - 1) c) ;;
    ret true
  end.

(** The [while (object && object.visited)] loop of [_evict].  [fuel] bounds
    the number of times the loop condition is evaluated on a non-null
    cursor. *)
Fixpoint scan (fuel : nat) (object : option loc) : M (option loc) :=
  match object with
  | None => ret None
  | Some o =>
    match fuel with
    | O => timeout
    | S fuel' =>
      n <- read o ;;
      if visited n then
        write o (with_visited false) ;;
        n <- read o ;;
        match prev n with
        | Some p => scan fuel' (Some p)
        | None => t <- gets tail ;; scan fuel' t
        end
      else ret (Some o)
    end
  end.

(** Number of node objects whose [visited] flag is set. *)
Definition visited_count (h : list node) : nat :=
  length (filter (fun n => visited n = true) h).

(** [_evict()].  Every pass through the loop body clears one set flag, so
    the loop condition is evaluated at most [visited_count + 1] times; the
    loop is run with exactly that bound (see [scan_no_timeout]). *)
Definition _evict : M unit :=
  hd <- gets hand ;;
  t <- gets tail ;;
  fuel <- gets (fun c => S (visited_count (nodes c))) ;;
  object <- scan fuel (match hd with Some x => Some x | None => t end) ;;
  object <- match object with
            | Some o => ret (Some o)
            | None => gets tail
            end ;;
  match object with
  | None => ret tt
  | Some o =>
    n <- read o ;;
    modify (with_hand (prev n)) ;;
    n <- read o ;;
    delete (key n) ;;
    ret tt
  end.

(** [set(key, value)] *)
Definition set (k : string) (v : V) : M loc :=
  existing <- gets (fun c => map c !! k) ;;
  match existing with
  | Some e =>
    write e (with_value v) ;;
    write e (with_visited true) ;;
    ret e
  | None =>
    sz <- gets size ;;
    cap <- gets capacity ;;
    (if bool_decide (sz = cap) then _evict else ret tt) ;;
    node <- new_Node k v ;;
    modify (fun c => with_map (<[k := node]> (map c)) c) ;;
    _addToHead node ;;
    modify (fun c => with_size (size c + 1) c) ;;
    ret node
  end.

(** [get(key)]: [None] is [undefined]. *)
Definition get (k : string) : M (option V) :=
  found <- gets (fun c => map c !! k) ;;
  match found with
  | None => ret None
  | Some node =>
    write node (with_visited true) ;;
    n <- read node ;;
    ret (Some (value n))
  end.

(** [getNode(key)] *)
Definition getNode (k : string) : M (option loc) :=
  gets (fun c => map c !! k).

(** [clear()] *)
Definition clear : M unit :=
  modify (with_head None) ;;
  modify (with_tail None) ;;
  modify (with_hand None) ;;
  modify (with_map ∅) ;;
  modify (with_size 0).

(** The [while (cursor)] loop of the generator, run to exhaustion: the
    list of objects it yields. *)
Fixpoint iterate_from (fuel : nat) (cursor : option loc) : M (list (string * V)) :=
  match cursor with
  | None => ret []
  | Some o =>
    match fuel with
    | O => timeout
    | S fuel' =>
      n <- read o ;;
      let item := (key n, value n) in
      n <- read o ;;
      rest <- iterate_from fuel' (next n) ;;
      ret (item :: rest)
    end
  end.

(** [[Symbol.iterator]()].  A walk along [next] that has not ended after
    as many nodes as the store holds has entered a cycle and never ends,
    so the bound loses nothing. *)
Definition iterate : M (list (string * V)) :=
  cursor <- gets head ;;
  fuel <- gets (fun c => S (length (nodes c))) ;;
  iterate_from fuel cursor.

(** [toArray()]: spread the iterator and copy each yielded pair. *)
Definition toArray : M (list (string * V)) :=
  items <- iterate ;;
  ret (List.map (fun kv => (fst kv, snd kv)) items).

(** ** Calls and call sequences *)

Inductive call :=
| CSet (k : string) (v : V)
| CGet (k : string)
| CGetNode (k : string)
| CDelete (k : string)
| CClear
| CToArray.

Definition run_call (o : call) : M unit :=
  match o with
  | CSet k v => set k v ;; ret tt
  | CGet k => get k ;; ret tt
  | CGetNode k => getNode k ;; ret tt
  | CDelete k => delete k ;; ret tt
  | CClear => clear
  | CToArray => toArray ;; ret tt
  end.

Fixpoint run_calls (os : list call) : M unit :=
  match os with
  | [] => ret tt
  | o :: os' => run_call o ;; run_calls os'
  end.

(** The state of [new SieveCache(capacity)] after the calls [os]. *)
Definition after (capacity : Z) (os : list call) : res cache :=
  match constructor capacity with
  | Done c =>
    match run_calls os c with
    | Done (_, c') => Done c'
    | Stuck => Stuck
    | Timeout => Timeout
    end
  | Stuck => Stuck
  | Timeout => Timeout
  end.

(** ** Parts of the methods *)

(** The statements of [set] that follow the capacity check: create the
    node, index it, link it at the head, count it, return it. *)
Definition insert_new (k : string) (v : V) : M loc :=
  node <- new_Node k v ;;
  modify (fun c => with_map (<[k := node]> (map c)) c) ;;
  _addToHead node ;;
  modify (fun c => with_size (size c + 1) c) ;;
  ret node.

(** Where the eviction scan starts: [this.hand || this.tail]. *)
Definition scan_start (c : cache) : option loc :=
  match hand c with
  | Some x => Some x
  | None => tail c
  end.

(** The state after the loop body has cleared the flag of node [o]. *)
Definition pass (o : loc) (n : node) (c : cache) : cache :=
  with_nodes (<[o := with_visited false n]> (nodes c)) c.

(** The cursor after the loop body: the predecessor, or [tail] when there
    is none. *)
Definition next_cursor (n : node) (c : cache) : option loc :=
  match prev n with
  | Some p => Some p
  | None => tail c
  end.

(** The cursor positions at which the loop body of the scan runs, in
    order: the nodes the scan passes over instead of stopping at them. *)
Fixpoint scan_passed (fuel : nat) (object : option loc) (c : cache) : list loc :=
  match object, fuel with
  | Some o, S fuel' =>
    match nodes c !! o with
    | Some n =>
      if visited n
      then o :: scan_passed fuel' (next_cursor n c) (pass o n c)
      else []
    | None => []
    end
  | _, _ => []
  end.

(** The calls [set(k1, v1); set(k2, v2); ...]. *)
Definition set_calls (kvs : list (string * V)) : list call :=
  List.map (fun kv => CSet (fst kv) (snd kv)) kvs.

(** ** Representation invariant *)

(** The two links of the node behind a reference. *)
Definition links (h : list node) (l : loc) : option (option loc * option loc) :=
  (fun n => (prev n, next n)) <$> h !! l.

(** Key, value and flag of the node behind a reference. *)
Definition data (h : list node) (l : loc) : option (string * V * bool) :=
  (fun n => (key n, value n, visited n)) <$> h !! l.

(** The first of [ls], or [q] when [ls] is empty. *)
Definition first_or (q : option loc) (ls : list loc) : option loc :=
  match ls with
  | [] => q
  | x :: _ => Some x
  end.

(** The last of [ls], or [p] when [ls] is empty. *)
Definition last_or (p : option loc) (ls : list loc) : option loc :=
  match last ls with
  | Some x => Some x
  | None => p
  end.

(** [dlseg h p ls q]: the nodes [ls] are doubly linked in this order, the
    first one has [prev = p] and the last one has [next = q]. *)
Fixpoint dlseg (h : list node) (p : option loc) (ls : list loc)
    (q : option loc) : Prop :=
  match ls with
  | [] => True
  | l :: ls' => links h l = Some (p, first_or q ls') /\ dlseg h (Some l) ls' q
  end.

(** [wf c ls]: the cache object [c] is consistent and [ls] is its chain,
    from [head] to [tail]. *)
Record wf (c : cache) (ls : list loc) : Prop := mkWf {
  wf_nodup : NoDup ls;
  wf_links : dlseg (nodes c) None ls None;
  wf_head : head c = hd_error ls;
  wf_tail : tail c = last ls;
  wf_hand : forall l, hand c = Some l -> l ∈ ls;
  wf_size : size c = Z.of_nat (length ls);
  wf_map : forall k l,
    map c !! k = Some l <-> l ∈ ls /\ key <$> nodes c !! l = Some k
}.

(** The (key, value) pairs stored in the nodes [ls], in this order. *)
Definition entries (c : cache) (ls : list loc) : list (string * V) :=
  omap (fun l => (fun n => (key n, value n)) <$> nodes c !! l) ls.

(** Number of nodes among [ls] whose flag is set. *)
Definition count_flagged (h : list node) (ls : list loc) : nat :=
  length (filter (fun l => visited <$> h !! l = Some true) ls).

(** *** The invariant as a computable check *)

(** [dlseg] as a boolean. *)
Fixpoint dlseg_check (h : list node) (p : option loc) (ls : list loc)
    (q : option loc) : bool :=
  match ls with
  | [] => true
  | l :: ls' =>
    bool_decide (links h l = Some (p, first_or q ls')) &&
    dlseg_check h (Some l) ls' q
  end.

(** The index a cache with chain [ls] has to have: every chain node under
    its key. *)
Definition index_of (h : list node) (ls : list loc) : list (string * loc) :=
  omap (fun l => (fun n => (key n, l)) <$> h !! l) ls.

(** [wf] as a boolean (see [wf_check_sound]). *)
Definition wf_check (c : cache) (ls : list loc) : bool :=
  bool_decide (NoDup ls) &&
  dlseg_check (nodes c) None ls None &&
  bool_decide (head c = hd_error ls) &&
  bool_decide (tail c = last ls) &&
  match hand c with Some l => bool_decide (l ∈ ls) | None => true end &&
  bool_decide (size c = Z.of_nat (length ls)) &&
  bool_decide (NoDup (index_of (nodes c) ls).*1) &&
  bool_decide (map c = list_to_map (index_of (nodes c) ls)).

(** ** Relations between the states before and after a method *)

(** A method establishes the relation [R] between the states before and
    after it, whenever it returns. *)
Definition establishes {A} (R : cache -> cache -> Prop) (m : M A) : Prop :=
  forall c a c', m c = Done (a, c') -> R c c'.

(** No node's key, value or flag differs between the two states, and no
    node was created. *)
Definition same_data (c c' : cache) : Prop :=
  forall l, data (nodes c') l = data (nodes c) l.

(** The two states agree on everything but values and flags of nodes. *)
Record same_frame (c c' : cache) : Prop := mkSameFrame {
  sf_head : head c' = head c;
  sf_tail : tail c' = tail c;
  sf_hand : hand c' = hand c;
  sf_size : size c' = size c;
  sf_capacity : capacity c' = capacity c;
  sf_map : map c' = map c;
  sf_links : forall l, links (nodes c') l = links (nodes c) l;
  sf_keys : forall l, key <$> nodes c' !! l = key <$> nodes c !! l
}.

(** Between the two states no node was created, no key or value has
    changed and no flag has been set; flags may have been cleared. *)
Definition flags_cleared (c c' : cache) : Prop :=
  forall l,
    match nodes c !! l, nodes c' !! l with
    | Some n, Some n' =>
      key n' = key n /\ value n' = value n /\
      (visited n' = true -> visited n = true)
    | None, None => True
    | _, _ => False
    end.

(** ** The eviction scan as the specification words it *)

(** [scan_steps c o c' v]: from cursor [o] in state [c], clearing the flag
    of every visited node met and moving to its predecessor, or to [tail]
    when the predecessor is null, the first unvisited node met is [v], in
    state [c']. *)
Inductive scan_steps : cache -> loc -> cache -> loc -> Prop :=
| scan_steps_stop c o n :
    nodes c !! o = Some n -> visited n = false ->
    scan_steps c o c o
| scan_steps_prev c o n p c' v :
    nodes c !! o = Some n -> visited n = true ->
    prev n = Some p ->
    scan_steps (pass o n c) p c' v ->
    scan_steps c o c' v
| scan_steps_wrap c o n t c' v :
    nodes c !! o = Some n -> visited n = true ->
    prev n = None -> tail c = Some t ->
    scan_steps (pass o n c) t c' v ->
    scan_steps c o c' v.

(** [evict_steps c victim c'']: the steps of the eviction scan lead from
    [c] to [c''] and evict [victim].  Step 1: the cursor starts at [hand]
    if that is non-null, else at [tail].  Steps 2 and 3: [scan_steps].
    Step 4: [hand] becomes the victim's predecessor.  Step 5: the victim
    is removed the way [delete] removes its key. *)
Definition evict_steps (c : cache) (victim : loc) (c'' : cache) : Prop :=
  exists start c' n b,
    scan_start c = Some start /\
    scan_steps c start c' victim /\
    nodes c' !! victim = Some n /\
    delete (key n) (with_hand (prev n) c') = Done (b, c'').

(** ** The demo server's reader *)

(** [getCache(cache)] of the demo server: the keys the iterator yields, in
    its order. *)
Definition getCache : M (list string) :=
  items <- iterate ;;
  ret (List.map fst items).

(** ** What the cache holds, and what a map that never evicts would hold *)

(** The value the index leads to for a key: what [get(k)] reads. *)
Definition cached (c : cache) (k : string) : option V :=
  match map c !! k with
  | Some l => value <$> nodes c !! l
  | None => None
  end.

(** The effect of one call on a plain key-value map. *)
Definition map_call (op : call) (m : gmap string V) : gmap string V :=
  match op with
  | CSet k v => <[k := v]> m
  | CDelete k => base.delete k m
  | CClear => ∅
  | CGet _ | CGetNode _ | CToArray => m
  end.

(** The plain map a sequence of calls builds from [m]. *)
Fixpoint map_calls (ops : list call) (m : gmap string V) : gmap string V :=
  match ops with
  | [] => m
  | op :: ops' => map_calls ops' (map_call op m)
  end.

(** The plain map never holds more than [cap] entries while the calls
    [ops] are applied to it, starting from [m]. *)
Fixpoint within (cap : Z) (ops : list call) (m : gmap string V) : bool :=
  match ops with
  | [] => true
  | op :: ops' =>
    bool_decide (Z.of_nat (base.size (map_call op m)) <= cap)%Z &&
    within cap ops' (map_call op m)
  end.

(** ** Counting the work of the eviction scan *)

(** How often the loop body of the scan runs while call [op] is executed
    in state [c]: only a [set] of an absent key at [size = capacity]
    scans at all. *)
Definition passes (op : call) (c : cache) : nat :=
  match op with
  | CSet k _ =>
    match map c !! k with
    | None =>
      if bool_decide (size c = capacity c)
      then length (scan_passed (S (visited_count (nodes c))) (scan_start c) c)
      else 0%nat
    | Some _ => 0%nat
    end
  | _ => 0%nat
  end.

(** The same, summed over the calls [ops] executed from state [c]. *)
Fixpoint total_passes (ops : list call) (c : cache) : nat :=
  match ops with
  | [] => 0%nat
  | op :: ops' =>
    (passes op c +
     match run_call op c with
     | Done (_, c') => total_passes ops' c'
     | _ => 0
     end)%nat
  end.

(** The calls that can set a [visited] flag. *)
Definition touches (op : call) : bool :=
  match op with
  | CSet _ _ | CGet _ => true
  | _ => false
  end.

End Model.

(** ** Example caches *)

(** The cache [new SieveCache(2)] after [set("a", 1)], [set("b", 2)] and
    [get("a")]: full, chain "b" then "a", "a" visited. *)
Definition full_cache : SieveCache Z :=
  mkCache
    [mkNode "a" 1%Z (Some 1%nat) None true;
     mkNode "b" 2%Z None (Some 0%nat) false]
    (Some 1%nat) (Some 0%nat) None 2 2 (<["b" := 1%nat]> (<["a" := 0%nat]> ∅)).

(** [full_cache] after [set("c", 3)]: the scan has passed over "a" and
    evicted "b". *)
Definition full_cache_after_set : SieveCache Z :=
  mkCache
    [mkNode "a" 1%Z (Some 2%nat) None false; mkNode "b" 2%Z None None false;
     mkNode "c" 3%Z None (Some 0%nat) false]
    (Some 2%nat) (Some 0%nat) None 2 2 (<["c" := 2%nat]> (<["a" := 0%nat]> ∅)).

(** The cache [new SieveCache(1)] after [set("a", 1)] and [get("a")]. *)
Definition single_cache : SieveCache Z :=
  mkCache [mkNode "a" 1%Z None None true]
    (Some 0%nat) (Some 0%nat) None 1 1 {["a" := 0%nat]}.

(** * Properties *)

Section Proofs.
Context {V : Type}.

Abbreviation node := (Node V).
Abbreviation cache := (SieveCache V).

Implicit Types (c : cache) (h : list node) (n : node) (l o x : loc)
  (ls xs ys : list loc) (k : string) (v : V).

(** ** Running the monad *)

Lemma bind_done {A B} (m : M A) (f : A -> M B) c a c' :
  m c = Done (a, c') -> bind m f c = f a c'.
Proof. intros H. unfold bind. by rewrite H. Qed.

Lemma bind_inv {A B} (m : M A) (f : A -> M B) c b c2 :
  bind m f c = Done (b, c2) ->
  exists a c1, m c = Done (a, c1) /\ f a c1 = Done (b, c2).
Proof.
  unfold bind. destruct (m c) as [[a c1]| |]; [|done..]. eauto.
Qed.

Lemma bind_assoc {A B C} (m : M A) (f : A -> M B) (g : B -> M C) c :
  bind (bind m f) g c = bind m (fun a => bind (f a) g) c.
Proof. unfold bind. by destruct (m c) as [[a c1]| |]. Qed.

Lemma read_done c l n : nodes c !! l = Some n -> read l c = Done (n, c).
Proof. intros H. unfold read. by rewrite H. Qed.

Lemma read_inv c l n c' :
  read l c = Done (n, c') -> nodes c !! l = Some n /\ c' = c.
Proof. unfold read. destruct (nodes c !! l); naive_solver. Qed.

Lemma write_done c l f n :
  nodes c !! l = Some n ->
  write l f c = Done (tt, with_nodes (<[l := f n]> (nodes c)) c).
Proof. intros H. unfold write. by rewrite (bind_done _ _ _ _ _ (read_done _ _ _ H)). Qed.

Lemma write_inv c l f u c' :
  write l f c = Done (u, c') ->
  exists n, nodes c !! l = Some n /\ c' = with_nodes (<[l := f n]> (nodes c)) c.
Proof.
  unfold write. intros (n & c1 & [Hn ->]%read_inv & Hm)%bind_inv.
  exists n. split; [done|]. unfold modify in Hm. congruence.
Qed.

Lemma bind_gets {A B} (f : cache -> A) (g : A -> M B) c :
  bind (gets f) g c = g (f c) c.
Proof. done. Qed.

Lemma bind_modify {B} (f : cache -> cache) (g : unit -> M B) c :
  bind (modify f) g c = g tt (f c).
Proof. done. Qed.

Lemma bind_ret {A B} (a : A) (g : A -> M B) c : bind (ret a) g c = g a c.
Proof. done. Qed.

Lemma bind_read {B} l (g : node -> M B) c n :
  nodes c !! l = Some n -> bind (read l) g c = g n c.
Proof. intros H. by apply bind_done, read_done. Qed.

Lemma bind_write {B} l f (g : unit -> M B) c n :
  nodes c !! l = Some n ->
  bind (write l f) g c = g tt (with_nodes (<[l := f n]> (nodes c)) c).
Proof. intros H. by apply bind_done, write_done. Qed.

(** Resolve a lookup in a store that was updated at known places. *)
Ltac lk :=
  simpl;
  repeat first
    [ rewrite list_lookup_insert_ne by congruence
    | rewrite list_lookup_insert_eq
        by (rewrite ?length_insert; eauto using lookup_lt_Some) ];
  try eassumption; try reflexivity.

(** Run the first [read], [write] or [modify] of a method. *)
Ltac mread := cbv beta iota; erewrite bind_read; [|lk].
Ltac mwrite := cbv beta iota; erewrite bind_write; [|lk].
Ltac mmodify := cbv beta iota; rewrite bind_modify.

(** ** The object store *)

Lemma links_Some h l p q :
  links h l = Some (p, q) <-> exists n, h !! l = Some n /\ prev n = p /\ next n = q.
Proof.
  unfold links. destruct (h !! l) as [n|]; simpl; [|naive_solver].
  split; [intros [= <- <-]; eauto | intros (n' & [= <-] & <- & <-); done].
Qed.

Lemma links_lt h l pq : links h l = Some pq -> (l < length h)%nat.
Proof.
  unfold links. destruct (h !! l) eqn:E; [|done]. intros _. by eapply lookup_lt_Some.
Qed.

Lemma links_insert_eq h l n :
  (l < length h)%nat -> links (<[l := n]> h) l = Some (prev n, next n).
Proof. intros H. unfold links. by rewrite list_lookup_insert_eq. Qed.

Lemma links_insert_ne h l l' n : l <> l' -> links (<[l := n]> h) l' = links h l'.
Proof. intros H. unfold links. by rewrite list_lookup_insert_ne. Qed.

Lemma links_insert_same h l n n' :
  h !! l = Some n -> prev n' = prev n -> next n' = next n ->
  forall l', links (<[l := n']> h) l' = links h l'.
Proof.
  intros Hn Hp Hq l'. destruct (decide (l = l')) as [<-|Hne].
  - rewrite links_insert_eq by by eapply lookup_lt_Some.
    unfold links. rewrite Hn. simpl. congruence.
  - by apply links_insert_ne.
Qed.

Lemma data_insert_eq h l n :
  (l < length h)%nat -> data (<[l := n]> h) l = Some (key n, value n, visited n).
Proof. intros H. unfold data. by rewrite list_lookup_insert_eq. Qed.

Lemma data_insert_ne h l l' n : l <> l' -> data (<[l := n]> h) l' = data h l'.
Proof. intros H. unfold data. by rewrite list_lookup_insert_ne. Qed.

Lemma data_insert_same h l n n' :
  h !! l = Some n -> key n' = key n -> value n' = value n ->
  visited n' = visited n ->
  forall l', data (<[l := n']> h) l' = data h l'.
Proof.
  intros Hn Hk Hv Hb l'. destruct (decide (l = l')) as [<-|Hne].
  - rewrite data_insert_eq by by eapply lookup_lt_Some.
    unfold data. rewrite Hn. simpl. congruence.
  - by apply data_insert_ne.
Qed.

Lemma data_key h h' l :
  data h' l = data h l -> key <$> h' !! l = key <$> h !! l.
Proof.
  unfold data. destruct (h' !! l), (h !! l); simpl; congruence.
Qed.

(** ** Doubly linked segments *)

Lemma dlseg_frame h h' p ls q :
  (forall l, l ∈ ls -> links h' l = links h l) ->
  dlseg h p ls q -> dlseg h' p ls q.
Proof.
  revert p. induction ls as [|l ls IH]; intros p Hsame; simpl; [done|].
  intros [Hl Hrest]. split.
  - rewrite Hsame; [done|]. apply list_elem_of_here.
  - apply IH; [|done]. intros l' Hl'. apply Hsame. by apply list_elem_of_further.
Qed.

Lemma dlseg_app h p xs x ys q :
  dlseg h p (xs ++ x :: ys) q <->
  dlseg h p xs (Some x) /\
  links h x = Some (last_or p xs, first_or q ys) /\
  dlseg h (Some x) ys q.
Proof.
  revert p. induction xs as [|a xs IH]; intros p.
  - simpl. unfold last_or. simpl. naive_solver.
  - simpl. rewrite IH.
    assert (last_or (Some a) xs = last_or p (a :: xs)) as ->.
    { unfold last_or. rewrite last_cons. by destruct (last xs). }
    assert (first_or q (xs ++ x :: ys) = first_or (Some x) xs) as ->.
    { by destruct xs. }
    naive_solver.
Qed.

Lemma dlseg_lt h p ls q l : dlseg h p ls q -> l ∈ ls -> (l < length h)%nat.
Proof.
  intros Hd (xs & ys & ->)%list_elem_of_split.
  apply dlseg_app in Hd as (_ & Hl & _). by eapply links_lt.
Qed.

Lemma dlseg_lookup h p ls q l :
  dlseg h p ls q -> l ∈ ls -> exists n, h !! l = Some n.
Proof.
  intros Hd Hl. apply lookup_lt_is_Some. by eapply dlseg_lt.
Qed.

(** The predecessor of a chain node is a chain node, or null at the head. *)
Lemma dlseg_prev h ls q l n :
  dlseg h None ls q -> l ∈ ls -> h !! l = Some n ->
  match prev n with
  | Some p => p ∈ ls
  | None => hd_error ls = Some l
  end.
Proof.
  intros Hd (xs & ys & ->)%list_elem_of_split Hn.
  apply dlseg_app in Hd as (_ & Hl & _).
  apply links_Some in Hl as (n' & Hn' & Hp & _).
  assert (n' = n) as -> by congruence. rewrite Hp. unfold last_or.
  destruct (last xs) as [a|] eqn:E.
  - apply last_Some in E as [xs' ->]. set_solver.
  - apply last_None in E as ->. done.
Qed.

Lemma length_le_store h p ls q :
  NoDup ls -> dlseg h p ls q -> (length ls <= length h)%nat.
Proof.
  intros Hnd Hd.
  transitivity (length (seq 0 (length h))); [|by rewrite length_seq].
  apply submseteq_length, NoDup_submseteq; [done|]. intros l Hl.
  apply elem_of_seq. split; [lia|]. simpl. by eapply dlseg_lt.
Qed.

Lemma hd_error_app_cons xs a ys zs :
  hd_error ((xs ++ [a]) ++ ys) = hd_error ((xs ++ [a]) ++ zs).
Proof. by destruct xs. Qed.

Lemma first_or_None ys : first_or None ys = hd_error ys.
Proof. by destruct ys. Qed.

Lemma NoDup_mid_l xs a x ys : NoDup ((xs ++ [a]) ++ x :: ys) -> a <> x.
Proof.
  rewrite NoDup_app. intros (_ & H & _) ->. apply (H x); set_solver.
Qed.

Lemma NoDup_mid_r xs x b ys : NoDup (xs ++ x :: b :: ys) -> x <> b.
Proof.
  rewrite NoDup_app, NoDup_cons. intros (_ & _ & H & _) ->. set_solver.
Qed.

Lemma NoDup_mid_lr xs a x b ys : NoDup ((xs ++ [a]) ++ x :: b :: ys) -> a <> b.
Proof.
  rewrite NoDup_app. intros (_ & H & _) ->. apply (H b); set_solver.
Qed.

(** ** Relations established by every run of a method *)

Section Establishes.
Context (R : cache -> cache -> Prop) `{!PreOrder R}.

Lemma establishes_ret {A} (a : A) : establishes R (ret a).
Proof. intros c a' c' [= _ <-]. reflexivity. Qed.

Lemma establishes_gets {A} (f : cache -> A) : establishes R (gets f).
Proof. intros c a' c' [= _ <-]. reflexivity. Qed.

Lemma establishes_read l : establishes R (read l).
Proof. intros c n c' [_ ->]%read_inv. reflexivity. Qed.

Lemma establishes_bind {A B} (m : M A) (f : A -> M B) :
  establishes R m -> (forall a, establishes R (f a)) -> establishes R (bind m f).
Proof.
  intros Hm Hf c b c2 (a & c1 & H1 & H2)%bind_inv.
  transitivity c1; [by eapply Hm | by eapply Hf].
Qed.

Lemma establishes_modify (f : cache -> cache) :
  (forall c, R c (f c)) -> establishes R (modify f).
Proof. intros Hf c a c' [= _ <-]. apply Hf. Qed.

Lemma establishes_write l (f : node -> node) :
  (forall c n, nodes c !! l = Some n ->
     R c (with_nodes (<[l := f n]> (nodes c)) c)) ->
  establishes R (write l f).
Proof. intros Hf c a c' (n & Hn & ->)%write_inv. by apply Hf. Qed.

End Establishes.

(** ** Unlinking and deleting a node *)

Lemma removeNode_run c x nx :
  nodes c !! x = Some nx ->
  (forall a, prev nx = Some a -> a <> x /\ is_Some (nodes c !! a)) ->
  (forall b, next nx = Some b ->
     b <> x /\ prev nx <> Some b /\ is_Some (nodes c !! b)) ->
  exists h',
    _removeNode x c =
      Done (tt, mkCache h'
                  (match prev nx with Some _ => head c | None => next nx end)
                  (match next nx with Some _ => tail c | None => prev nx end)
                  (hand c) (size c) (capacity c) (map c)) /\
    h' !! x = Some (with_prev None (with_next None nx)) /\
    (forall a na, prev nx = Some a -> nodes c !! a = Some na ->
       h' !! a = Some (with_next (next nx) na)) /\
    (forall b nb, next nx = Some b -> nodes c !! b = Some nb ->
       h' !! b = Some (with_prev (prev nx) nb)) /\
    (forall l, l <> x -> prev nx <> Some l -> next nx <> Some l ->
       h' !! l = nodes c !! l).
Proof.
  intros Hnx Hprev Hnext.
  destruct c as [h hd tl hnd sz cap m]. simpl in *.
  unfold _removeNode. mread.
  destruct (prev nx) as [a|] eqn:Hp.
  - destruct (Hprev a eq_refl) as [Hax [na Hna]].
    mwrite. mread.
    destruct (next nx) as [b|] eqn:Hq.
    + destruct (Hnext b eq_refl) as (Hbx & Hab & [nb Hnb]).
      assert (a <> b) by congruence.
      mwrite. mwrite. unfold write. mread.
      unfold modify, with_nodes, with_tail, with_head. simpl. rewrite Hp.
      eexists. split; [reflexivity|]. split_and!.
      * lk.
      * intros ? ? [= <-] ?. simplify_eq. lk.
      * intros ? ? [= <-] ?. simplify_eq. lk.
      * intros l ? ? ?. lk.
    + mmodify. mwrite. unfold write. mread.
      unfold modify, with_nodes, with_tail, with_head. simpl. rewrite Hp.
      eexists. split; [reflexivity|]. split_and!.
      * lk.
      * intros ? ? [= <-] ?. simplify_eq. lk.
      * intros ? ? [=].
      * intros l ? ? ?. lk.
  - mmodify. mread.
    destruct (next nx) as [b|] eqn:Hq.
    + destruct (Hnext b eq_refl) as (Hbx & Hab & [nb Hnb]).
      mwrite. mwrite. unfold write. mread.
      unfold modify, with_nodes, with_tail, with_head. simpl. rewrite Hp.
      eexists. split; [reflexivity|]. split_and!.
      * lk.
      * intros ? ? [=].
      * intros ? ? [= <-] ?. simplify_eq. lk.
      * intros l ? ? ?. lk.
    + mmodify. mwrite. unfold write. mread.
      unfold modify, with_nodes, with_tail, with_head. simpl. rewrite Hp.
      eexists. split; [reflexivity|]. split_and!.
      * lk.
      * intros ? ? [=].
      * intros ? ? [=].
      * intros l ? ? ?. lk.
Qed.

#[global] Instance same_data_preorder : PreOrder (@same_data V).
Proof.
  split; [by intros c l|].
  intros c1 c2 c3 H12 H23 l. by rewrite H23, H12.
Qed.

Lemma same_data_write c l f n :
  (forall n, key (f n) = key n /\ value (f n) = value n /\
             visited (f n) = visited n) ->
  nodes c !! l = Some n ->
  same_data c (with_nodes (<[l := f n]> (nodes c)) c).
Proof.
  intros Hf Hn l'. simpl. destruct (Hf n) as (? & ? & ?).
  by apply (data_insert_same _ _ n).
Qed.

(** Decompose a goal [establishes R m] along the structure of [m]; [leaf]
    proves what a field assignment or a state update has to satisfy. *)
Ltac establish leaf :=
  repeat lazymatch goal with
  | |- establishes _ (ret _) => apply establishes_ret; apply _
  | |- establishes _ (gets _) => apply establishes_gets; apply _
  | |- establishes _ (read _) => apply establishes_read; apply _
  | |- establishes _ (write _ _) => apply establishes_write; intros ? ? ?; leaf
  | |- establishes _ (modify _) => apply establishes_modify; intros ?; leaf
  | |- establishes _ (bind _ _) => apply establishes_bind; [apply _| |intros ?]
  | |- establishes _ (match ?o with _ => _ end) => destruct o
  end.

Lemma removeNode_same_data x : establishes (V:=V) same_data (_removeNode x).
Proof.
  unfold _removeNode.
  establish ltac:(first [by apply same_data_write | by intros ?]).
Qed.

Lemma dlseg_concat h p xs ys q :
  dlseg h p (xs ++ ys) q <->
  dlseg h p xs (first_or q ys) /\ dlseg h (last_or p xs) ys q.
Proof.
  revert p. induction xs as [|a xs IH]; intros p.
  - simpl. unfold last_or. simpl. naive_solver.
  - simpl. rewrite IH.
    assert (last_or (Some a) xs = last_or p (a :: xs)) as ->.
    { unfold last_or. rewrite last_cons. by destruct (last xs). }
    assert (first_or q (xs ++ ys) = first_or (first_or q ys) xs) as ->.
    { by destruct xs. }
    naive_solver.
Qed.

Lemma removeNode_spec c xs x ys :
  NoDup (xs ++ x :: ys) ->
  dlseg (nodes c) None (xs ++ x :: ys) None ->
  head c = hd_error (xs ++ x :: ys) ->
  tail c = last (xs ++ x :: ys) ->
  exists h',
    _removeNode x c =
      Done (tt, mkCache h' (hd_error (xs ++ ys)) (last (xs ++ ys))
                  (hand c) (size c) (capacity c) (map c)) /\
    dlseg h' None (xs ++ ys) None /\
    (forall l, data h' l = data (nodes c) l).
Proof.
  intros Hnd Hd Hhd Htl. apply dlseg_app in Hd as (Hxs & Hx & Hys).
  apply links_Some in Hx as (nx & Hnx & Hp & Hq).
  destruct (removeNode_run c x nx Hnx) as (h' & Hrun & Hx' & Ha' & Hb' & Hl').
  { intros a Ha. rewrite Hp in Ha. unfold last_or in Ha.
    destruct (last xs) as [a'|] eqn:E; [|done]. injection Ha as ->.
    apply last_Some in E as [xs' ->]. split.
    - by eapply NoDup_mid_l.
    - eapply dlseg_lookup; [exact Hxs|]. set_solver. }
  { intros b Hb. rewrite Hq in Hb. destruct ys as [|b' ys']; [done|].
    injection Hb as ->. split; [|split].
    - intros ->. by eapply NoDup_mid_r.
    - rewrite Hp. unfold last_or. destruct (last xs) as [a|] eqn:E; [|done].
      apply last_Some in E as [xs' ->]. intros [= ->].
      by eapply NoDup_mid_lr.
    - eapply dlseg_lookup; [exact Hys|]. set_solver. }
  assert (Hsame : forall l, l ∈ xs ++ ys -> l <> x).
  { intros l Hl ->. apply NoDup_app in Hnd as (_ & Hd1 & Hd2).
    apply NoDup_cons in Hd2 as [Hd2 _]. apply elem_of_app in Hl as [Hl|Hl]; [|done].
    apply (Hd1 x Hl). set_solver. }
  exists h'. split; [|split].
  - rewrite Hrun. do 3 f_equal.
    + rewrite Hp, Hq, Hhd. unfold last_or. destruct (last xs) eqn:E.
      * apply last_Some in E as [xs' ->]. apply hd_error_app_cons.
      * apply last_None in E as ->. apply first_or_None.
    + rewrite Hp, Hq, Htl. rewrite !last_app. simpl.
      destruct ys as [|b ys']; simpl.
      * unfold last_or. by destruct (last xs).
      * rewrite !last_cons. by destruct (last ys').
  - assert (Hnd' := Hnd). apply NoDup_app in Hnd' as (Hndx & Hdisj & Hndy).
    apply NoDup_cons in Hndy as [Hxy Hndy].
    apply dlseg_concat. split.
    + destruct (last xs) as [a|] eqn:E.
      * apply last_Some in E as [xs' ->].
        apply dlseg_app in Hxs as (Hxs' & Ha & _).
        apply links_Some in Ha as (na & Hna & Hpa & _).
        unfold last_or in Hp. rewrite last_snoc in Hp.
        apply dlseg_app. split; [|split; [|done]].
        -- eapply dlseg_frame; [|exact Hxs']. intros l Hl. unfold links.
           rewrite Hl'; [done|..].
           ++ apply Hsame. set_solver.
           ++ rewrite Hp. intros [= ->]. apply NoDup_app in Hndx as (_ & Hndx & _).
              apply (Hndx l Hl). set_solver.
           ++ rewrite Hq. destruct ys as [|b ys']; [done|]. intros [= ->].
              apply (Hdisj l); set_solver.
        -- unfold links. rewrite (Ha' _ _ Hp Hna). simpl. by rewrite Hpa, Hq.
      * apply last_None in E as ->. done.
    + destruct ys as [|b ys']; [done|]. simpl in Hq. simpl in Hys.
      destruct Hys as [Hb Hys']. apply links_Some in Hb as (nb & Hnb & _ & Hqb).
      simpl. split.
      * unfold links. rewrite (Hb' _ _ Hq Hnb). simpl. by rewrite Hp, Hqb.
      * eapply dlseg_frame; [|exact Hys']. intros l Hl. unfold links.
        rewrite Hl'; [done|..].
        -- apply Hsame. set_solver.
        -- rewrite Hp. unfold last_or. destruct (last xs) as [a|] eqn:E; [|done].
           intros [= ->]. apply last_Some in E as [xs' ->].
           apply (Hdisj l); set_solver.
        -- rewrite Hq. intros [= ->]. apply NoDup_cons in Hndy as [Hb _]. done.
  - apply (removeNode_same_data x c tt _ Hrun).
Qed.

Lemma wf_lookup c ls l : wf c ls -> l ∈ ls -> exists n, nodes c !! l = Some n.
Proof. intros Hwf Hl. eapply dlseg_lookup; [apply Hwf|done]. Qed.

Lemma wf_map_elem c ls k l : wf c ls -> map c !! k = Some l -> l ∈ ls.
Proof. intros Hwf Hk. by apply (wf_map _ _ Hwf) in Hk as [? _]. Qed.

Lemma wf_map_key c ls k l n :
  wf c ls -> map c !! k = Some l -> nodes c !! l = Some n -> key n = k.
Proof.
  intros Hwf Hk Hn. apply (wf_map _ _ Hwf) in Hk as [_ Hk].
  rewrite Hn in Hk. by injection Hk.
Qed.

Lemma wf_map_lookup c ls l n :
  wf c ls -> l ∈ ls -> nodes c !! l = Some n -> map c !! key n = Some l.
Proof.
  intros Hwf Hl Hn. apply (wf_map _ _ Hwf). split; [done|]. by rewrite Hn.
Qed.

Lemma delete_absent c k : map c !! k = None -> delete k c = Done (false, c).
Proof. intros Hk. unfold delete. rewrite bind_gets, Hk. done. Qed.

Lemma delete_spec c ls k x nx :
  wf c ls -> map c !! k = Some x -> nodes c !! x = Some nx ->
  exists xs ys c',
    ls = xs ++ x :: ys /\
    delete k c = Done (true, c') /\
    wf c' (xs ++ ys) /\
    same_data c c' /\
    map c' = base.delete k (map c) /\
    size c' = (size c - 1)%Z /\
    capacity c' = capacity c /\
    hand c' = (if decide (hand c = Some x) then prev nx else hand c).
Proof.
  intros Hwf Hk Hnx.
  pose proof (wf_map_elem _ _ _ _ Hwf Hk) as Hx.
  apply list_elem_of_split in Hx as (xs & ys & ->).
  set (hnd' := if decide (hand c = Some x) then prev nx else hand c).
  set (c1 := with_map (base.delete k (map c)) (with_hand hnd' c)).
  destruct (removeNode_spec c1 xs x ys) as (h' & Hrun & Hd' & Hdata);
    [apply Hwf..|].
  exists xs, ys. eexists. split; [done|]. split; [|split].
  - unfold delete. rewrite bind_gets, Hk. cbv beta iota. rewrite bind_gets.
    assert (forall (B : Type) (g : unit -> M B),
      bind (if bool_decide (hand c = Some x)
            then bind (read x) (fun n => modify (with_hand (prev n)))
            else ret tt) g c = g tt (with_hand hnd' c)) as Hhand.
    { intros B g. unfold hnd'. case_bool_decide as Hh.
      - rewrite decide_True by done. rewrite bind_assoc. mread. by mmodify.
      - rewrite decide_False by done. rewrite bind_ret.
        destruct c; simpl. done. }
    rewrite Hhand. mmodify. fold c1. rewrite (bind_done _ _ _ _ _ Hrun).
    mmodify. unfold ret. simpl. reflexivity.
  - assert (Hnd := wf_nodup _ _ Hwf).
    apply NoDup_app in Hnd as (Hndx & Hdisj & Hndy).
    apply NoDup_cons in Hndy as [Hxy Hndy].
    split; simpl.
    + apply NoDup_app. split; [done|]. split; [|done].
      intros l Hl Hl'. apply (Hdisj l Hl). set_solver.
    + done.
    + done.
    + done.
    + intros l. unfold hnd'. case_decide as Hh.
      * pose proof (wf_links _ _ Hwf) as Hd.
        apply dlseg_app in Hd as (_ & Hlx & _).
        apply links_Some in Hlx as (n' & Hn' & Hp & _).
        assert (n' = nx) as -> by congruence. rewrite Hp. unfold last_or.
        destruct (last xs) as [a|] eqn:E; [|done]. intros [= ->].
        apply last_Some in E as [xs' ->]. set_solver.
      * intros Hl. pose proof (wf_hand _ _ Hwf _ Hl) as Hin.
        assert (l <> x) by congruence. set_solver.
    + rewrite (wf_size _ _ Hwf). rewrite !length_app. simpl. lia.
    + intros k' l. specialize (Hdata l). simpl in Hdata.
      apply data_key in Hdata. rewrite Hdata.
      pose proof (wf_map _ _ Hwf k' l) as Hm.
      pose proof (wf_map _ _ Hwf k x) as Hmx.
      destruct (decide (k' = k)) as [->|Hne].
      * rewrite lookup_delete_eq. split; [done|]. intros [Hl Hkey]. exfalso.
        assert (map c !! k = Some l) as Hkl by (apply Hm; set_solver).
        assert (l = x) as -> by congruence.
        apply elem_of_app in Hl as [Hl|Hl]; [|done]. apply (Hdisj x Hl). set_solver.
      * rewrite lookup_delete_ne by done. rewrite Hm. split.
        -- intros [Hl Hkey]. split; [|done].
           assert (l <> x).
           { intros ->. apply Hne. rewrite Hnx in Hkey. injection Hkey as <-.
             by eapply wf_map_key. }
           set_solver.
        -- intros [Hl Hkey]. split; [set_solver|done].
  - split; [|done]. intros l. apply Hdata.
Qed.

(** ** Inserting a node at the head *)

Lemma addToHead_run c node n :
  nodes c !! node = Some n ->
  (forall hd, head c = Some hd -> hd <> node /\ is_Some (nodes c !! hd)) ->
  exists h',
    _addToHead node c =
      Done (tt, mkCache h' (Some node)
                  (match tail c with Some t => Some t | None => Some node end)
                  (hand c) (size c) (capacity c) (map c)) /\
    h' !! node = Some (with_prev None (with_next (head c) n)) /\
    (forall hd nh, head c = Some hd -> nodes c !! hd = Some nh ->
       h' !! hd = Some (with_prev (Some node) nh)) /\
    (forall l, l <> node -> head c <> Some l -> h' !! l = nodes c !! l).
Proof.
  intros Hn Hhd. destruct c as [h hd tl hnd sz cap m]. simpl in *.
  unfold _addToHead. rewrite bind_gets. mwrite. mwrite. rewrite bind_gets.
  simpl. destruct hd as [hd|].
  - destruct (Hhd hd eq_refl) as [Hne [nh Hnh]].
    mwrite. mmodify. rewrite bind_gets. simpl.
    eexists. split; [|split; [|split]].
    + destruct tl; reflexivity.
    + lk.
    + intros ? ? [= <-] ?. simplify_eq. lk.
    + intros l ? ?. lk.
  - rewrite bind_ret. mmodify. rewrite bind_gets. simpl.
    eexists. split; [|split; [|split]].
    + destruct tl; reflexivity.
    + lk.
    + intros ? ? [=].
    + intros l ? ?. lk.
Qed.

Lemma set_absent c k v :
  map c !! k = None ->
  set k v c =
    bind (if bool_decide (size c = capacity c) then _evict else ret tt)
      (fun _ => insert_new k v) c.
Proof. intros Hk. unfold set. rewrite bind_gets, Hk. done. Qed.

Lemma insert_new_spec c ls k v :
  wf c ls -> map c !! k = None ->
  exists c',
    insert_new k v c = Done (length (nodes c), c') /\
    wf c' (length (nodes c) :: ls) /\
    nodes c' !! length (nodes c) = Some (mkNode k v None (head c) false) /\
    (forall l n, nodes c !! l = Some n -> data (nodes c') l = data (nodes c) l) /\
    map c' = <[k := length (nodes c)]> (map c) /\
    size c' = (size c + 1)%Z /\
    capacity c' = capacity c /\
    hand c' = hand c.
Proof.
  intros Hwf Hk. set (l := length (nodes c)). set (n0 := mkNode k v None None false).
  set (c1 := with_map (<[k := l]> (map c)) (with_nodes (nodes c ++ [n0]) c)).
  assert (Hl1 : nodes c1 !! l = Some n0).
  { simpl. by apply list_lookup_middle. }
  assert (Hold : forall l', l' ∈ ls -> l' <> l /\ nodes c1 !! l' = nodes c !! l').
  { intros l' Hl'. pose proof (dlseg_lt _ _ _ _ _ (wf_links _ _ Hwf) Hl').
    split; [unfold l; lia|]. simpl. by apply lookup_app_l. }
  destruct (addToHead_run c1 l n0 Hl1) as (h' & Hrun & Hl' & Hhd' & Hother).
  { intros hd Hhd. simpl in Hhd. rewrite (wf_head _ _ Hwf) in Hhd.
    assert (hd ∈ ls) as Hin by (destruct ls; simplify_eq/=; set_solver).
    destruct (Hold _ Hin) as [? Heq]. split; [done|]. rewrite Heq.
    by eapply wf_lookup. }
  assert (Hdata : forall l' n, nodes c !! l' = Some n ->
            data h' l' = data (nodes c) l').
  { intros l' n Hn. pose proof (lookup_lt_Some _ _ _ Hn) as Hlt.
    assert (nodes c1 !! l' = Some n) as Hn1.
    { simpl. rewrite lookup_app_l by done. done. }
    assert (l' <> l) by (unfold l; lia).
    unfold data. destruct (decide (head c1 = Some l')) as [Hh|Hh].
    - rewrite (Hhd' _ _ Hh Hn1), Hn. done.
    - rewrite (Hother _ H Hh), Hn1, Hn. done. }
  assert (Hlls : l ∉ ls) by (intros Hin; by destruct (Hold _ Hin)).
  eexists. split; [|split].
  - unfold insert_new. unfold new_Node at 1. unfold bind at 1. mmodify.
    fold l n0 c1. rewrite (bind_done _ _ _ _ _ Hrun). mmodify. reflexivity.
  - split; simpl.
    + apply NoDup_cons. split; [done|apply Hwf].
    + split.
      * unfold links. rewrite Hl'. simpl. rewrite (wf_head _ _ Hwf).
        by rewrite first_or_None.
      * pose proof (wf_links _ _ Hwf) as Hd. pose proof (wf_nodup _ _ Hwf) as Hnd.
        pose proof (wf_head _ _ Hwf) as Hhd.
        destruct ls as [|hd rest]; [done|]. simpl in *.
        destruct Hd as [Hlhd Hd]. apply links_Some in Hlhd as (nh & Hnh & Hp & Hq).
        destruct (Hold hd) as [? Heq]; [set_solver|].
        apply NoDup_cons in Hnd as [Hnd1 Hnd2].
        split.
        -- unfold links. rewrite (Hhd' hd nh); [|done|by rewrite Heq].
           simpl. by rewrite Hq.
        -- eapply dlseg_frame; [|exact Hd]. intros l' Hl''. unfold links.
           destruct (Hold l') as [? Heq']; [set_solver|].
           rewrite Hother; [by rewrite Heq'|done|].
           rewrite Hhd. intros [= ->]. done.
    + done.
    + rewrite (wf_tail _ _ Hwf), last_cons. done.
    + intros l' Hl''. apply list_elem_of_further. by eapply wf_hand.
    + rewrite (wf_size _ _ Hwf). lia.
    + intros k' l'. pose proof (wf_map _ _ Hwf k' l') as Hm.
      assert (Hkey : l' ∈ ls -> key <$> h' !! l' = key <$> nodes c !! l').
      { intros Hin. destruct (wf_lookup _ _ _ Hwf Hin) as [n Hn].
        apply data_key. by eapply Hdata. }
      destruct (decide (k' = k)) as [->|Hne].
      * rewrite lookup_insert_eq. split.
        -- intros [= <-]. split; [set_solver|]. by rewrite Hl'.
        -- intros [[->|Hin]%elem_of_cons Hk']; [done|]. exfalso.
           rewrite Hkey in Hk' by done.
           assert (map c !! k = Some l') by (by apply Hm). congruence.
      * rewrite lookup_insert_ne by done. rewrite Hm. split.
        -- intros [Hin Hk']. split; [set_solver|]. by rewrite Hkey.
        -- intros [[->|Hin]%elem_of_cons Hk'].
           ++ rewrite Hl' in Hk'. simpl in Hk'. congruence.
           ++ split; [done|]. by rewrite <- Hkey.
  - split; [|split; [|done]].
    + exact Hl'.
    + exact Hdata.
Qed.

(** ** The scan loop *)

Lemma scan_None fuel c : scan fuel None c = Done (None, c).
Proof. by destruct fuel. Qed.

Lemma scan_stop fuel c o n :
  nodes c !! o = Some n -> visited n = false ->
  scan (S fuel) (Some o) c = Done (Some o, c).
Proof. intros Hn Hv. simpl. mread. by rewrite Hv. Qed.

Lemma scan_pass fuel c o n :
  nodes c !! o = Some n -> visited n = true ->
  scan (S fuel) (Some o) c = scan fuel (next_cursor n c) (pass o n c).
Proof.
  intros Hn Hv. simpl. mread. rewrite Hv. mwrite. mread. simpl.
  unfold next_cursor, pass. destruct (prev n); [done|]. by rewrite bind_gets.
Qed.

Lemma scan_cases fuel c o :
  (nodes c !! o = None /\ scan (S fuel) (Some o) c = Stuck) \/
  (exists n, nodes c !! o = Some n /\ visited n = false /\
     scan (S fuel) (Some o) c = Done (Some o, c)) \/
  (exists n, nodes c !! o = Some n /\ visited n = true /\
     scan (S fuel) (Some o) c = scan fuel (next_cursor n c) (pass o n c)).
Proof.
  destruct (nodes c !! o) as [n|] eqn:Hn.
  - right. destruct (visited n) eqn:Hv.
    + right. exists n. eauto using scan_pass.
    + left. exists n. eauto using scan_stop.
  - left. split; [done|]. simpl. unfold bind, read. by rewrite Hn.
Qed.

Lemma visited_count_pass h o n :
  h !! o = Some n -> visited n = true ->
  visited_count h = S (visited_count (<[o := with_visited false n]> h)).
Proof.
  unfold visited_count. revert o. induction h as [|a h IH]; intros o Hn Hv; [done|].
  destruct o as [|o]; simpl in *.
  - injection Hn as ->. rewrite filter_cons_True by done.
    rewrite filter_cons_False by (simpl; congruence). done.
  - rewrite !filter_cons. destruct (decide (visited a = true)); simpl;
      by rewrite (IH o Hn Hv).
Qed.

(** The bound [_evict] runs the loop with is never reached. *)
Lemma scan_no_timeout fuel (cur : option loc) c :
  (visited_count (nodes c) < fuel)%nat -> scan fuel cur c <> Timeout.
Proof.
  revert cur c. induction fuel as [|fuel IH]; intros cur c Hlt; [lia|].
  destruct cur as [o|]; [|by rewrite scan_None].
  destruct (scan_cases fuel c o) as [[_ ->]|[(n & _ & _ & ->)|(n & Hn & Hv & ->)]];
    [done..|].
  apply IH. simpl. rewrite (visited_count_pass _ _ _ Hn Hv) in Hlt. lia.
Qed.

(** More fuel does not change a result. *)
Lemma scan_fuel_mono fuel fuel' (cur : option loc) c r :
  scan fuel cur c = Done r -> (fuel <= fuel')%nat -> scan fuel' cur c = Done r.
Proof.
  revert fuel' cur c. induction fuel as [|fuel IH]; intros fuel' cur c Hs Hle.
  - destruct cur; [done|]. by rewrite scan_None in *.
  - destruct cur as [o|]; [|by rewrite scan_None in *].
    destruct fuel' as [|fuel']; [lia|].
    destruct (scan_cases fuel c o) as [[_ E]|[(n & Hn & Hv & E)|(n & Hn & Hv & E)]];
      rewrite E in Hs; [done|..].
    + by rewrite (scan_stop _ _ _ _ Hn Hv).
    + rewrite (scan_pass _ _ _ _ Hn Hv). apply IH; [done|lia].
Qed.

(** On a cache whose [tail] is set, the loop never ends on null. *)
Lemma scan_Some fuel o c (r : option loc) c' :
  tail c <> None -> scan fuel (Some o) c = Done (r, c') -> is_Some r.
Proof.
  revert o c. induction fuel as [|fuel IH]; intros o c Ht Hs; [done|].
  destruct (scan_cases fuel c o) as [[_ E]|[(n & Hn & Hv & E)|(n & Hn & Hv & E)]];
    rewrite E in Hs; [done|naive_solver|].
  unfold next_cursor in Hs. destruct (prev n) as [p|].
  - eapply (IH p); [|exact Hs]. done.
  - destruct (tail c) as [t|] eqn:Et; [|done]. eapply (IH t); [|exact Hs].
    simpl. by rewrite Et.
Qed.

(** The loop agrees with the steps of the specification. *)
Lemma scan_steps_sound c o c' vic fuel :
  scan_steps c o c' vic -> (visited_count (nodes c) < fuel)%nat ->
  scan fuel (Some o) c = Done (Some vic, c').
Proof.
  intros Hs. revert fuel.
  induction Hs as [c o n Hn Hv|c o n p c' vic Hn Hv Hp Hs IH|c o n t c' vic Hn Hv Hp Ht Hs IH];
    intros fuel Hlt; (destruct fuel as [|fuel]; [lia|]).
  - by eapply scan_stop.
  - rewrite (scan_pass _ _ _ _ Hn Hv). unfold next_cursor. rewrite Hp.
    apply IH. simpl. rewrite (visited_count_pass _ _ _ Hn Hv) in Hlt. lia.
  - rewrite (scan_pass _ _ _ _ Hn Hv). unfold next_cursor. rewrite Hp, Ht.
    apply IH. simpl. rewrite (visited_count_pass _ _ _ Hn Hv) in Hlt. lia.
Qed.

Lemma scan_steps_complete fuel c o c' vic :
  scan fuel (Some o) c = Done (Some vic, c') -> scan_steps c o c' vic.
Proof.
  revert o c. induction fuel as [|fuel IH]; intros o c Hs; [done|].
  destruct (scan_cases fuel c o) as [[_ E]|[(n & Hn & Hv & E)|(n & Hn & Hv & E)]];
    rewrite E in Hs; [done|..].
  - injection Hs as <- <-. by eapply scan_steps_stop.
  - unfold next_cursor in Hs. destruct (prev n) as [p|] eqn:Hp.
    + eapply scan_steps_prev; eauto.
    + destruct (tail c) as [t|] eqn:Ht.
      * eapply scan_steps_wrap; eauto.
      * by rewrite scan_None in Hs.
Qed.

Lemma scan_steps_det c o c1 vic1 c2 vic2 :
  scan_steps c o c1 vic1 -> scan_steps c o c2 vic2 -> c1 = c2 /\ vic1 = vic2.
Proof.
  intros H1 H2.
  pose proof (scan_steps_sound _ _ _ _ (S (visited_count (nodes c))) H1) as E1.
  pose proof (scan_steps_sound _ _ _ _ (S (visited_count (nodes c))) H2) as E2.
  rewrite E1 in E2 by lia. specialize (E2 ltac:(lia)). by injection E2.
Qed.

(** ** What a scan changes, and when it ends *)

#[global] Instance same_frame_preorder : PreOrder (@same_frame V).
Proof.
  split.
  - intros c. by split.
  - intros c1 c2 c3 [] []. split; congruence.
Qed.

#[global] Instance flags_cleared_preorder : PreOrder (@flags_cleared V).
Proof.
  split.
  - intros c l. destruct (nodes c !! l); [repeat split; auto|done].
  - intros c1 c2 c3 H12 H23 l. pose proof (H12 l) as D12. pose proof (H23 l) as D23.
    destruct (nodes c1 !! l), (nodes c2 !! l), (nodes c3 !! l); try done.
    destruct D12 as (? & ? & ?), D23 as (? & ? & ?).
    repeat split; try congruence. auto.
Qed.

Lemma wf_same_frame c c' ls : same_frame c c' -> wf c ls -> wf c' ls.
Proof.
  intros [Hhd Htl Hhand Hsz Hcap Hmap Hlinks Hkeys] []. split; try congruence.
  - eapply dlseg_frame; [|done]. auto.
  - intros l. rewrite Hhand. auto.
  - intros k l. rewrite Hmap, Hkeys. auto.
Qed.

Lemma key_insert_same h l n n' :
  h !! l = Some n -> key n' = key n ->
  forall l', key <$> <[l := n']> h !! l' = key <$> h !! l'.
Proof.
  intros Hn Hk l'. destruct (decide (l = l')) as [<-|Hne].
  - rewrite list_lookup_insert_eq by by eapply lookup_lt_Some.
    rewrite Hn. simpl. congruence.
  - by rewrite list_lookup_insert_ne.
Qed.

Lemma pass_same_frame c o n : nodes c !! o = Some n -> same_frame c (pass o n c).
Proof.
  intros Hn. split; try done; intros l; cbn [pass nodes with_nodes].
  - by apply (links_insert_same _ _ n); [|reflexivity..].
  - by apply (key_insert_same _ _ n).
Qed.

Lemma pass_flags_cleared c o n :
  nodes c !! o = Some n -> flags_cleared c (pass o n c).
Proof.
  intros Hn l. cbn [pass nodes with_nodes].
  destruct (decide (o = l)) as [<-|Hne].
  - rewrite Hn, list_lookup_insert_eq by by eapply lookup_lt_Some.
    simpl. by repeat split.
  - rewrite list_lookup_insert_ne by done.
    destruct (nodes c !! l); [repeat split; auto|done].
Qed.

Lemma scan_establishes (R : cache -> cache -> Prop) `{!PreOrder R} :
  (forall c o n, nodes c !! o = Some n -> R c (pass o n c)) ->
  forall fuel cur, establishes R (scan fuel cur).
Proof.
  intros Hpass fuel. induction fuel as [|fuel IH]; intros cur c r c' Hs.
  - destruct cur; [done|]. rewrite scan_None in Hs. injection Hs as _ <-. reflexivity.
  - destruct cur as [o|]; [|rewrite scan_None in Hs; injection Hs as _ <-; reflexivity].
    destruct (scan_cases fuel c o) as [[_ E]|[(n & Hn & Hv & E)|(n & Hn & Hv & E)]];
      rewrite E in Hs; [done|..].
    + injection Hs as _ <-. reflexivity.
    + transitivity (pass o n c); [by apply Hpass|by eapply IH].
Qed.

Lemma scan_same_frame fuel cur : establishes (V:=V) same_frame (scan fuel cur).
Proof. apply scan_establishes; [apply _|]. apply pass_same_frame. Qed.

Lemma scan_flags_cleared fuel cur : establishes (V:=V) flags_cleared (scan fuel cur).
Proof. apply scan_establishes; [apply _|]. apply pass_flags_cleared. Qed.

Lemma count_flagged_cons h a ls :
  count_flagged h (a :: ls) =
    ((if decide (visited <$> h !! a = Some true) then 1 else 0)
     + count_flagged h ls)%nat.
Proof. unfold count_flagged. rewrite filter_cons. by case_decide. Qed.

Lemma count_flagged_insert_notin h ls o n :
  o ∉ ls -> count_flagged (<[o := n]> h) ls = count_flagged h ls.
Proof.
  induction ls as [|a ls IH]; intros Ho; [done|].
  apply not_elem_of_cons in Ho as [Hne Ho].
  rewrite !count_flagged_cons, IH by done.
  by rewrite list_lookup_insert_ne.
Qed.

Lemma count_flagged_pass h ls o n :
  NoDup ls -> o ∈ ls -> h !! o = Some n -> visited n = true ->
  count_flagged h ls = S (count_flagged (<[o := with_visited false n]> h) ls).
Proof.
  intros Hnd Ho Hn Hv.
  induction ls as [|a ls IH]; [by apply elem_of_nil in Ho|].
  apply NoDup_cons in Hnd as [Ha Hnd]. rewrite !count_flagged_cons.
  destruct (decide (a = o)) as [->|Hne].
  - rewrite Hn, list_lookup_insert_eq by by eapply lookup_lt_Some. simpl.
    rewrite Hv. rewrite count_flagged_insert_notin by done.
    repeat case_decide; simplify_eq; done.
  - rewrite list_lookup_insert_ne by done. rewrite IH; [lia|done|set_solver].
Qed.

Lemma count_flagged_le h ls : (count_flagged h ls <= length ls)%nat.
Proof. apply length_filter. Qed.

(** On a consistent cache the scan started inside the chain stops at a
    chain node, after at most as many passes as the chain has flagged
    nodes. *)
Lemma scan_wf_terminates c ls o fuel :
  wf c ls -> o ∈ ls -> (count_flagged (nodes c) ls < fuel)%nat ->
  exists vic c' n,
    scan fuel (Some o) c = Done (Some vic, c') /\
    vic ∈ ls /\ nodes c' !! vic = Some n /\ visited n = false.
Proof.
  revert c o. induction fuel as [|fuel IH]; intros c o Hwf Ho Hlt; [lia|].
  destruct (wf_lookup _ _ _ Hwf Ho) as [n Hn].
  destruct (visited n) eqn:Hv.
  - rewrite (scan_pass _ _ _ _ Hn Hv).
    assert (Hwf' : wf (pass o n c) ls).
    { eapply wf_same_frame; [|done]. by apply pass_same_frame. }
    assert (exists o', next_cursor n c = Some o' /\ o' ∈ ls) as (o' & -> & Ho').
    { unfold next_cursor.
      pose proof (dlseg_prev _ _ _ _ _ (wf_links _ _ Hwf) Ho Hn) as Hp.
      destruct (prev n) as [p|]; [eauto|].
      rewrite (wf_tail _ _ Hwf). destruct (last ls) as [t|] eqn:E.
      - exists t. split; [done|]. apply last_Some in E as [? ->]. set_solver.
      - apply last_None in E as ->. by apply elem_of_nil in Ho. }
    apply IH; [done..|]. simpl.
    rewrite (count_flagged_pass _ _ _ _ (wf_nodup _ _ Hwf) Ho Hn Hv) in Hlt. lia.
  - exists o, c, n. by rewrite (scan_stop _ _ _ _ Hn Hv).
Qed.

(** ** Eviction *)

Lemma same_data_flags_cleared c c' : same_data c c' -> flags_cleared c c'.
Proof.
  intros H l. specialize (H l). unfold data in H.
  destruct (nodes c !! l), (nodes c' !! l); simplify_eq/=; [|done].
  repeat split; congruence.
Qed.

Lemma scan_start_elem c ls :
  wf c ls -> ls <> [] -> exists start, scan_start c = Some start /\ start ∈ ls.
Proof.
  intros Hwf Hne. unfold scan_start. destruct (hand c) as [x|] eqn:Hh.
  - exists x. split; [done|]. by eapply wf_hand.
  - rewrite (wf_tail _ _ Hwf). destruct (last ls) as [t|] eqn:E.
    + exists t. split; [done|]. apply last_Some in E as [? ->]. set_solver.
    + by apply last_None in E.
Qed.

(** [_evict] on a consistent, non-empty cache. *)
Lemma evict_wf c ls :
  wf c ls -> ls <> [] ->
  exists start c1 vic n xs ys c',
    scan_start c = Some start /\
    scan_steps c start c1 vic /\
    nodes c1 !! vic = Some n /\ visited n = false /\
    ls = xs ++ vic :: ys /\
    delete (key n) (with_hand (prev n) c1) = Done (true, c') /\
    _evict c = Done (tt, c') /\
    wf c' (xs ++ ys) /\
    map c !! key n = Some vic /\
    map c' = base.delete (key n) (map c) /\
    size c' = (size c - 1)%Z /\
    capacity c' = capacity c /\
    hand c' = prev n /\
    same_frame c c1 /\ flags_cleared c c1 /\ same_data c1 c'.
Proof.
  intros Hwf Hne.
  destruct (scan_start_elem _ _ Hwf Hne) as (start & Hstart & Hin).
  destruct (scan_wf_terminates c ls start (S (length ls)) Hwf Hin)
    as (vic & c1 & n & Hscan & Hvic & Hn & Hv).
  { pose proof (count_flagged_le (nodes c) ls). lia. }
  pose proof (scan_steps_complete _ _ _ _ _ Hscan) as Hsteps.
  pose proof (scan_same_frame _ _ _ _ _ Hscan) as Hsf.
  pose proof (scan_flags_cleared _ _ _ _ _ Hscan) as Hfc.
  pose proof (wf_same_frame _ _ _ Hsf Hwf) as Hwf1.
  set (c2 := with_hand (prev n) c1).
  assert (Hwf2 : wf c2 ls).
  { pose proof (dlseg_prev _ _ _ _ _ (wf_links _ _ Hwf1) Hvic Hn) as Hp.
    destruct Hwf1. split; try done. simpl. intros l Hl. by rewrite Hl in Hp. }
  assert (Hk : map c2 !! key n = Some vic) by (by eapply wf_map_lookup).
  destruct (delete_spec c2 ls (key n) vic n Hwf2 Hk Hn)
    as (xs & ys & c' & -> & Hdel & Hwf' & Hsd & Hmap & Hsz & Hcap & Hhand).
  exists start, c1, vic, n, xs, ys, c'.
  split_and!; try done.
  - unfold _evict. rewrite !bind_gets. fold (scan_start c). rewrite Hstart.
    rewrite (bind_done _ _ _ _ _
      (scan_steps_sound _ _ _ _ (S (visited_count (nodes c))) Hsteps ltac:(lia))).
    cbv beta iota. rewrite bind_ret. mread. mmodify. mread. fold c2.
    rewrite (bind_done _ _ _ _ _ Hdel). reflexivity.
  - simpl in Hk. by rewrite (sf_map _ _ Hsf) in Hk.
  - rewrite Hmap. simpl. by rewrite (sf_map _ _ Hsf).
  - rewrite Hsz. simpl. by rewrite (sf_size _ _ Hsf).
  - rewrite Hcap. simpl. by rewrite (sf_capacity _ _ Hsf).
  - rewrite Hhand. destruct (decide _); reflexivity.
Qed.

(** [_evict] on a consistent, empty cache does nothing. *)
Lemma evict_empty c : wf c [] -> _evict c = Done (tt, c).
Proof.
  intros Hwf. unfold _evict. rewrite !bind_gets.
  assert (hand c = None) as ->.
  { destruct (hand c) as [x|] eqn:E; [|done].
    by apply (wf_hand _ _ Hwf), elem_of_nil in E. }
  rewrite (wf_tail _ _ Hwf). simpl. rewrite bind_ret. cbv beta iota.
  rewrite bind_gets, (wf_tail _ _ Hwf). reflexivity.
Qed.

(** ** The public methods on a consistent cache *)

Lemma update_same_frame c l n n' :
  nodes c !! l = Some n ->
  key n' = key n -> prev n' = prev n -> next n' = next n ->
  same_frame c (with_nodes (<[l := n']> (nodes c)) c).
Proof.
  intros Hn Hk Hp Hq. split; try done; intros l'; cbn [nodes with_nodes].
  - by apply (links_insert_same _ _ n).
  - by apply (key_insert_same _ _ n).
Qed.

Lemma get_miss c k : map c !! k = None -> get k c = Done (None, c).
Proof. intros Hk. unfold get. by rewrite bind_gets, Hk. Qed.

Lemma get_hit c k l n :
  map c !! k = Some l -> nodes c !! l = Some n ->
  get k c =
    Done (Some (value n), with_nodes (<[l := with_visited true n]> (nodes c)) c).
Proof.
  intros Hk Hn. unfold get. rewrite bind_gets, Hk. mwrite. mread. reflexivity.
Qed.

Lemma set_present c k v l n :
  map c !! k = Some l -> nodes c !! l = Some n ->
  set k v c =
    Done (l, with_nodes
               (<[l := mkNode (key n) v (prev n) (next n) true]> (nodes c)) c).
Proof.
  intros Hk Hn. unfold set. rewrite bind_gets, Hk. mwrite. mwrite.
  unfold ret, with_nodes. simpl. by rewrite list_insert_insert_eq.
Qed.

Lemma set_new_no_evict c ls k v :
  wf c ls -> map c !! k = None -> size c <> capacity c \/ ls = [] ->
  set k v c = insert_new k v c.
Proof.
  intros Hwf Hk Hcase. rewrite set_absent by done.
  case_bool_decide as Hsz; [|done].
  destruct Hcase as [?| ->]; [done|]. by rewrite (bind_done _ _ _ _ _ (evict_empty _ Hwf)).
Qed.

Lemma set_new_evict c k v c0 :
  map c !! k = None -> size c = capacity c -> _evict c = Done (tt, c0) ->
  set k v c = insert_new k v c0.
Proof.
  intros Hk Hsz Hev. rewrite set_absent by done.
  rewrite bool_decide_eq_true_2 by done. by rewrite (bind_done _ _ _ _ _ Hev).
Qed.

Lemma clear_spec c :
  clear c = Done (tt, mkCache (nodes c) None None None 0 (capacity c) ∅).
Proof. reflexivity. Qed.

Lemma wf_clear c : wf (mkCache (nodes c) None None None 0 (capacity c) ∅) [].
Proof.
  split; simpl; try done.
  - apply NoDup_nil_2.
  - intros k l. rewrite lookup_empty. split; [done|]. by intros [?%elem_of_nil _].
Qed.

Lemma wf_constructor capacity :
  wf (V:=V) (mkCache [] None None None 0 capacity ∅) [].
Proof. apply (wf_clear (mkCache [] None None None 0 capacity ∅)). Qed.

(** *** Iteration *)

Lemma iterate_from_unchanged fuel (cur : option loc) :
  establishes (V:=V) eq (iterate_from fuel cur).
Proof.
  revert cur. induction fuel as [|fuel IH]; intros [o|]; simpl.
  - by intros c a c'.
  - apply establishes_ret, _.
  - establish idtac. apply IH.
  - apply establishes_ret, _.
Qed.

Lemma iterate_unchanged : establishes (V:=V) eq iterate.
Proof. unfold iterate. establish idtac. apply iterate_from_unchanged. Qed.

Lemma toArray_unchanged : establishes (V:=V) eq toArray.
Proof. unfold toArray. establish idtac. apply iterate_unchanged. Qed.

Lemma iterate_from_chain c p ls fuel :
  dlseg (nodes c) p ls None -> (length ls < fuel)%nat ->
  iterate_from fuel (hd_error ls) c = Done (entries c ls, c).
Proof.
  revert p fuel. induction ls as [|l ls IH]; intros p fuel Hd Hlt.
  - by destruct fuel.
  - destruct fuel as [|fuel]; [simpl in Hlt; lia|].
    destruct Hd as [Hl Hd]. apply links_Some in Hl as (n & Hn & _ & Hq).
    simpl. mread. mread. rewrite Hq, first_or_None.
    rewrite (bind_done _ _ _ _ _ (IH _ fuel Hd ltac:(simpl in Hlt; lia))).
    unfold entries. simpl. by rewrite Hn.
Qed.

Lemma iterate_chain c ls : wf c ls -> iterate c = Done (entries c ls, c).
Proof.
  intros Hwf. unfold iterate. rewrite !bind_gets, (wf_head _ _ Hwf).
  eapply iterate_from_chain; [apply Hwf|].
  pose proof (length_le_store _ _ _ _ (wf_nodup _ _ Hwf) (wf_links _ _ Hwf)). lia.
Qed.

Lemma map_pair_id (items : list (string * V)) :
  List.map (fun kv => (fst kv, snd kv)) items = items.
Proof. induction items as [|[] ? IH]; simpl; by rewrite ?IH. Qed.

Lemma toArray_iterate c : toArray c = iterate c.
Proof.
  unfold toArray, bind. destruct (iterate c) as [[items c']| |]; [|done..].
  unfold ret. by rewrite map_pair_id.
Qed.

Lemma toArray_chain c ls : wf c ls -> toArray c = Done (entries c ls, c).
Proof. intros Hwf. rewrite toArray_iterate. by apply iterate_chain. Qed.

(** ** Reachable states *)

(** [set] on an absent key: either nothing is evicted and the node is
    inserted into the cache as it is, or [_evict] removes one chain node
    first. *)
Lemma set_new_spec c ls k v :
  wf c ls -> map c !! k = None ->
  exists c0 ls0 c',
    set k v c = Done (length (nodes c0), c') /\
    insert_new k v c0 = Done (length (nodes c0), c') /\
    wf c0 ls0 /\ map c0 !! k = None /\ capacity c0 = capacity c /\
    wf c' (length (nodes c0) :: ls0) /\
    ((c0 = c /\ ls0 = ls /\ (size c <> capacity c \/ ls = [])) \/
     (size c = capacity c /\ _evict c = Done (tt, c0) /\
      exists vic n xs ys,
        ls = xs ++ vic :: ys /\ ls0 = xs ++ ys /\
        map c !! key n = Some vic /\
        map c0 = base.delete (key n) (map c) /\
        size c0 = (size c - 1)%Z)).
Proof.
  intros Hwf Hk.
  destruct (decide (size c = capacity c /\ ls <> [])) as [[Hsz Hne]|Hno].
  - destruct (evict_wf c ls Hwf Hne)
      as (start & c1 & vic & n & xs & ys & c0 & _ & _ & _ & _ & -> & _ & Hev
          & Hwf0 & Hvic & Hmap & Hsz0 & Hcap0 & _).
    assert (Hk0 : map c0 !! k = None).
    { rewrite Hmap. apply lookup_delete_None. by right. }
    destruct (insert_new_spec c0 _ k v Hwf0 Hk0) as (c' & Hins & Hwf' & _).
    exists c0, (xs ++ ys), c'. split_and!; try done.
    + by rewrite (set_new_evict _ _ _ _ Hk Hsz Hev).
    + right. split_and!; try done. by exists vic, n, xs, ys.
  - assert (size c <> capacity c \/ ls = []) as Hcase.
    { destruct (decide (size c = capacity c)); [|by left].
      destruct ls; [by right|]. exfalso. by apply Hno. }
    destruct (insert_new_spec c ls k v Hwf Hk) as (c' & Hins & Hwf' & _).
    exists c, ls, c'. split_and!; try done.
    + by rewrite (set_new_no_evict _ _ _ _ Hwf Hk Hcase).
    + by left.
Qed.

(** Every call keeps the cache consistent and never gets stuck or runs out
    of loop bound. *)
Lemma run_call_wf c ls (op : call) :
  wf c ls ->
  exists c' ls',
    run_call op c = Done (tt, c') /\ wf c' ls' /\
    capacity c' = capacity c /\
    ((1 <= capacity c)%Z -> (size c <= capacity c)%Z ->
     (size c' <= capacity c')%Z).
Proof.
  intros Hwf. destruct op as [k v|k|k|k| |]; simpl.
  - destruct (map c !! k) as [l|] eqn:Hk.
    + destruct (wf_lookup _ _ _ Hwf (wf_map_elem _ _ _ _ Hwf Hk)) as [n Hn].
      eexists _, ls. rewrite (bind_done _ _ _ _ _ (set_present _ _ v _ _ Hk Hn)).
      split_and!; try done.
      eapply wf_same_frame; [|done]. by apply (update_same_frame _ _ n).
    + destruct (set_new_spec c ls k v Hwf Hk)
        as (c0 & ls0 & c' & Hset & Hins & Hwf0 & Hk0 & Hcap0 & Hwf' & Hcase).
      destruct (insert_new_spec c0 ls0 k v Hwf0 Hk0)
        as (c'' & Hins' & _ & _ & _ & _ & Hsz' & Hcap' & _).
      assert (c'' = c') as -> by congruence.
      eexists c', _. rewrite (bind_done _ _ _ _ _ Hset).
      split_and!; [done|done|congruence|].
      intros Hcap1 Hle. rewrite Hsz', Hcap', Hcap0.
      destruct Hcase as [(-> & -> & [Hne| ->])|(Hsz & _ & vic & n & xs & ys & _ & _ & _ & _ & Hsz0)].
      * lia.
      * rewrite (wf_size _ _ Hwf). simpl. lia.
      * lia.
  - destruct (map c !! k) as [l|] eqn:Hk.
    + destruct (wf_lookup _ _ _ Hwf (wf_map_elem _ _ _ _ Hwf Hk)) as [n Hn].
      eexists _, ls. rewrite (bind_done _ _ _ _ _ (get_hit _ _ _ _ Hk Hn)).
      split_and!; try done.
      eapply wf_same_frame; [|done]. by apply (update_same_frame _ _ n).
    + exists c, ls. by rewrite (bind_done _ _ _ _ _ (get_miss _ _ Hk)).
  - by exists c, ls.
  - destruct (map c !! k) as [l|] eqn:Hk.
    + destruct (wf_lookup _ _ _ Hwf (wf_map_elem _ _ _ _ Hwf Hk)) as [n Hn].
      destruct (delete_spec c ls k l n Hwf Hk Hn)
        as (xs & ys & c' & -> & Hdel & Hwf' & _ & _ & Hsz & Hcap & _).
      exists c', (xs ++ ys). rewrite (bind_done _ _ _ _ _ Hdel).
      split_and!; try done. lia.
    + exists c, ls. by rewrite (bind_done _ _ _ _ _ (delete_absent _ _ Hk)).
  - eexists _, []. rewrite clear_spec. split_and!; [done|apply wf_clear|done|].
    simpl. lia.
  - exists c, ls. by rewrite (bind_done _ _ _ _ _ (toArray_chain _ _ Hwf)).
Qed.

Lemma run_calls_wf (ops : list call) c ls :
  wf c ls ->
  exists c' ls',
    run_calls ops c = Done (tt, c') /\ wf c' ls' /\
    capacity c' = capacity c /\
    ((1 <= capacity c)%Z -> (size c <= capacity c)%Z ->
     (size c' <= capacity c')%Z).
Proof.
  revert c ls. induction ops as [|op ops IH]; intros c ls Hwf.
  - by exists c, ls.
  - destruct (run_call_wf c ls op Hwf) as (c1 & ls1 & Hop & Hwf1 & Hcap1 & Hle1).
    destruct (IH c1 ls1 Hwf1) as (c2 & ls2 & Hops & Hwf2 & Hcap2 & Hle2).
    exists c2, ls2. simpl. rewrite (bind_done _ _ _ _ _ Hop).
    split_and!; [done|done|congruence|].
    intros ? ?. apply Hle2; [congruence|auto].
Qed.

Lemma after_wf (cap : Z) (ops : list call) :
  exists c ls,
    after cap ops = Done c /\ wf c ls /\ capacity c = cap /\
    ((1 <= cap)%Z -> (size c <= cap)%Z).
Proof.
  destruct (run_calls_wf ops _ [] (wf_constructor cap))
    as (c & ls & Hrun & Hwf & Hcap & Hle).
  exists c, ls. unfold after, constructor. rewrite Hrun.
  split_and!; [done..|]. simpl in *. intros H. rewrite <- Hcap. apply Hle; lia.
Qed.

(** ** The nodes a scan passes over *)

Lemma scan_passed_visited fuel (cur : option loc) c l :
  l ∈ scan_passed fuel cur c ->
  exists n, nodes c !! l = Some n /\ visited n = true.
Proof.
  revert cur c. induction fuel as [|fuel IH]; intros [o|] c; simpl;
    try (by intros ?%elem_of_nil).
  destruct (nodes c !! o) as [n|] eqn:Hn; [|by intros ?%elem_of_nil].
  destruct (visited n) eqn:Hv; [|by intros ?%elem_of_nil].
  intros [->|Hl]%elem_of_cons; [eauto|].
  apply IH in Hl as (n' & Hn' & Hv'). cbn [pass nodes with_nodes] in Hn'.
  destruct (decide (o = l)) as [->|Hne].
  - rewrite list_lookup_insert_eq in Hn' by by eapply lookup_lt_Some.
    by injection Hn' as <-.
  - rewrite list_lookup_insert_ne in Hn' by done. eauto.
Qed.

(** No node is passed over twice in one scan. *)
Lemma scan_passed_NoDup fuel (cur : option loc) c :
  NoDup (scan_passed fuel cur c).
Proof.
  revert cur c. induction fuel as [|fuel IH]; intros [o|] c; simpl;
    try apply NoDup_nil_2.
  destruct (nodes c !! o) as [n|] eqn:Hn; [|apply NoDup_nil_2].
  destruct (visited n) eqn:Hv; [|apply NoDup_nil_2].
  apply NoDup_cons. split; [|apply IH].
  intros (n' & Hn' & Hv')%scan_passed_visited. cbn [pass nodes with_nodes] in Hn'.
  rewrite list_lookup_insert_eq in Hn' by by eapply lookup_lt_Some.
  by injection Hn' as <-.
Qed.

Lemma scan_passed_chain c ls o fuel :
  wf c ls -> o ∈ ls -> scan_passed fuel (Some o) c ⊆ ls.
Proof.
  revert c o. induction fuel as [|fuel IH]; intros c o Hwf Ho; simpl;
    [by intros ? ?%elem_of_nil|].
  destruct (nodes c !! o) as [n|] eqn:Hn; [|by intros ? ?%elem_of_nil].
  destruct (visited n) eqn:Hv; [|by intros ? ?%elem_of_nil].
  intros l [->|Hl]%elem_of_cons; [done|]. revert l Hl.
  assert (Hwf' : wf (pass o n c) ls).
  { eapply wf_same_frame; [|done]. by apply pass_same_frame. }
  unfold next_cursor.
  pose proof (dlseg_prev _ _ _ _ _ (wf_links _ _ Hwf) Ho Hn) as Hp.
  destruct (prev n) as [p|]; [by apply IH|].
  rewrite (wf_tail _ _ Hwf). destruct (last ls) as [t|] eqn:E.
  - apply IH; [done|]. apply last_Some in E as [? ->]. set_solver.
  - destruct fuel; by intros ? ?%elem_of_nil.
Qed.

(** A flag that a scan has cleared belongs to a node it has passed over. *)
Lemma scan_fall_passed fuel (cur r : option loc) c c' l n n' :
  scan fuel cur c = Done (r, c') ->
  nodes c !! l = Some n -> nodes c' !! l = Some n' ->
  visited n = true -> visited n' = false ->
  l ∈ scan_passed fuel cur c.
Proof.
  revert cur c n. induction fuel as [|fuel IH]; intros [o|] c n Hs Hn Hn' Hv Hv';
    try (rewrite scan_None in Hs; injection Hs as _ <-; congruence); [done|].
  destruct (scan_cases fuel c o) as [[_ E]|[(m & Hm & Hvm & E)|(m & Hm & Hvm & E)]];
    rewrite E in Hs; [done|injection Hs as _ <-; congruence|].
  simpl. rewrite Hm, Hvm.
  destruct (decide (o = l)) as [->|Hne]; [apply list_elem_of_here|].
  apply list_elem_of_further. eapply (IH _ _ n); [exact Hs| |done..].
  cbn [pass nodes with_nodes]. by rewrite list_lookup_insert_ne.
Qed.

Lemma scan_passed_length c ls o fuel :
  wf c ls -> o ∈ ls -> (length (scan_passed fuel (Some o) c) <= length ls)%nat.
Proof.
  intros Hwf Ho. apply submseteq_length, NoDup_submseteq.
  - apply scan_passed_NoDup.
  - by apply scan_passed_chain.
Qed.

(** ** Auxiliary facts for the claims *)

Lemma evict_steps_det c vic1 c1 vic2 c2 :
  evict_steps c vic1 c1 -> evict_steps c vic2 c2 -> vic2 = vic1 /\ c2 = c1.
Proof.
  intros (s1 & d1 & n1 & b1 & Hs1 & Hscan1 & Hn1 & Hdel1)
         (s2 & d2 & n2 & b2 & Hs2 & Hscan2 & Hn2 & Hdel2).
  assert (s2 = s1) as -> by congruence.
  destruct (scan_steps_det _ _ _ _ _ _ Hscan1 Hscan2) as [-> ->].
  assert (n2 = n1) as -> by congruence. split; congruence.
Qed.

Lemma data_visited h h' l n n' :
  data h' l = data h l -> h !! l = Some n -> h' !! l = Some n' ->
  key n' = key n /\ value n' = value n /\ visited n' = visited n.
Proof.
  unfold data. intros H Hn Hn'. rewrite Hn, Hn' in H. simpl in H.
  by injection H.
Qed.

(** Flags across [set] on an absent key. *)
Lemma set_new_flags c ls k v l0 c' :
  wf c ls -> map c !! k = None -> set k v c = Done (l0, c') ->
  (nodes c !! l0 = None /\ map c' !! k = Some l0 /\
   exists n0, nodes c' !! l0 = Some n0 /\ key n0 = k /\ value n0 = v /\
              visited n0 = false) /\
  forall l n, nodes c !! l = Some n ->
    exists n', nodes c' !! l = Some n' /\
      (visited n' = true -> visited n = true) /\
      (visited n = true -> visited n' = false ->
       size c = capacity c /\ l ∈ ls /\
       l ∈ scan_passed (S (visited_count (nodes c))) (scan_start c) c).
Proof.
  intros Hwf Hk Hset.
  destruct (decide (size c = capacity c /\ ls <> [])) as [[Hsz Hne]|Hno].
  - destruct (evict_wf c ls Hwf Hne)
      as (start & c1 & vic & nv & xs & ys & c0 & Hstart & Hsteps & _ & _ & _ & _
          & Hev & Hwf0 & _ & Hmap0 & _ & _ & _ & Hsf & Hfc & Hsd).
    assert (Hk0 : map c0 !! k = None).
    { rewrite Hmap0. apply lookup_delete_None. by right. }
    destruct (insert_new_spec c0 _ k v Hwf0 Hk0)
      as (c'' & Hins & _ & Hnew & Hold & Hmap' & _).
    rewrite (set_new_evict _ _ _ _ Hk Hsz Hev), Hins in Hset.
    injection Hset as <- <-.
    pose proof (scan_steps_sound _ _ _ _ (S (visited_count (nodes c))) Hsteps
                  ltac:(lia)) as Hscan.
    assert (Hlen : forall l, nodes c0 !! l = None <-> nodes c !! l = None).
    { intros l. specialize (Hfc l). specialize (Hsd l). unfold data in Hsd.
      destruct (nodes c !! l), (nodes c1 !! l), (nodes c0 !! l);
        simplify_eq/=; done. }
    split.
    + split_and!.
      * apply Hlen. apply lookup_ge_None. lia.
      * rewrite Hmap'. apply lookup_insert_eq.
      * eexists. split; [exact Hnew|]. done.
    + intros l n Hn.
      pose proof (Hfc l) as Hfl. rewrite Hn in Hfl.
      destruct (nodes c1 !! l) as [n1|] eqn:Hn1; [|done].
      destruct Hfl as (_ & _ & Hfl).
      destruct (nodes c0 !! l) as [n0|] eqn:Hn0.
      2:{ specialize (Hsd l). unfold data in Hsd. by rewrite Hn1, Hn0 in Hsd. }
      destruct (data_visited _ _ _ _ _ (Hsd l) Hn1 Hn0) as (_ & _ & Hv0).
      destruct (nodes c'' !! l) as [n'|] eqn:Hn'.
      2:{ specialize (Hold l n0 Hn0). unfold data in Hold.
          by rewrite Hn0, Hn' in Hold. }
      destruct (data_visited _ _ _ _ _ (Hold l n0 Hn0) Hn0 Hn') as (_ & _ & Hv').
      exists n'. split_and!; [done|intros ?; apply Hfl; congruence|].
      intros Hv Hvf. split; [done|].
      assert (l ∈ scan_passed (S (visited_count (nodes c))) (scan_start c) c) as Hp.
      { rewrite Hstart. eapply (scan_fall_passed _ _ _ _ _ _ n n1); eauto.
        all: congruence. }
      split; [|done]. rewrite Hstart in Hp.
      eapply scan_passed_chain; [done| |exact Hp].
      destruct (scan_start_elem _ _ Hwf Hne) as (s & Hs & ?). congruence.
  - assert (size c <> capacity c \/ ls = []) as Hcase.
    { destruct (decide (size c = capacity c)); [|by left].
      destruct ls; [by right|]. exfalso. by apply Hno. }
    destruct (insert_new_spec c ls k v Hwf Hk)
      as (c'' & Hins & _ & Hnew & Hold & Hmap' & _).
    rewrite (set_new_no_evict _ _ _ _ Hwf Hk Hcase), Hins in Hset.
    injection Hset as <- <-. split.
    + split_and!.
      * apply lookup_ge_None. lia.
      * rewrite Hmap'. apply lookup_insert_eq.
      * eexists. split; [exact Hnew|]. done.
    + intros l n Hn.
      destruct (nodes c'' !! l) as [n'|] eqn:Hn'.
      2:{ specialize (Hold l n Hn). unfold data in Hold.
          by rewrite Hn, Hn' in Hold. }
      destruct (data_visited _ _ _ _ _ (Hold l n Hn) Hn Hn') as (_ & _ & Hv').
      exists n'. split_and!; [done|congruence|congruence].
Qed.

(** Flags across the update of one node that sets its flag. *)
Lemma touch_flags c l0 m m' l n :
  nodes c !! l0 = Some m -> visited m' = true ->
  nodes c !! l = Some n ->
  exists n', <[l0 := m']> (nodes c) !! l = Some n' /\
    (visited n = false -> visited n' = true -> l = l0) /\
    (visited n = true -> visited n' = true).
Proof.
  intros Hm Hv Hn. destruct (decide (l0 = l)) as [->|Hne].
  - exists m'. rewrite list_lookup_insert_eq by by eapply lookup_lt_Some. done.
  - exists n. rewrite list_lookup_insert_ne by done. split_and!; [done|congruence|done].
Qed.

Lemma entries_cons c l ls :
  entries c (l :: ls) =
    match nodes c !! l with
    | Some n => (key n, value n) :: entries c ls
    | None => entries c ls
    end.
Proof. unfold entries. simpl. by destruct (nodes c !! l). Qed.

Lemma entries_ext c c' ls :
  (forall l, l ∈ ls -> data (nodes c') l = data (nodes c) l) ->
  entries c' ls = entries c ls.
Proof.
  induction ls as [|l ls IH]; intros H; [done|].
  rewrite !entries_cons, IH by (intros; apply H; set_solver).
  assert (Hl := H l ltac:(set_solver)). unfold data in Hl.
  destruct (nodes c' !! l), (nodes c !! l); simplify_eq/=; congruence.
Qed.

(** [set] of an absent key when nothing has to be evicted. *)
Lemma set_new_roomy c ls k v :
  wf c ls -> map c !! k = None -> size c <> capacity c \/ ls = [] ->
  exists l c',
    set k v c = Done (l, c') /\ wf c' (l :: ls) /\
    entries c' (l :: ls) = (k, v) :: entries c ls /\
    map c' = <[k := l]> (map c) /\
    size c' = (size c + 1)%Z /\ capacity c' = capacity c.
Proof.
  intros Hwf Hk Hcase.
  destruct (insert_new_spec c ls k v Hwf Hk)
    as (c' & Hins & Hwf' & Hnew & Hold & Hmap & Hsz & Hcap & _).
  exists (length (nodes c)), c'. split_and!; try done.
  - by rewrite (set_new_no_evict _ _ _ _ Hwf Hk Hcase).
  - rewrite entries_cons, Hnew. simpl. f_equal.
    apply entries_ext. intros l Hl.
    destruct (wf_lookup _ _ _ Hwf Hl) as [n Hn]. by eapply Hold.
Qed.

Lemma nonpositive_no_evict c ls :
  wf c ls -> (capacity c <= 0)%Z -> size c <> capacity c \/ ls = [].
Proof.
  intros Hwf Hcap. destruct ls; [by right|left].
  rewrite (wf_size _ _ Hwf). simpl. lia.
Qed.

(** [set] on an absent key of a cache whose capacity is not positive. *)
Lemma set_new_nonpositive c ls k v :
  wf c ls -> (capacity c <= 0)%Z -> map c !! k = None ->
  exists l c',
    set k v c = Done (l, c') /\ wf c' (l :: ls) /\
    entries c' (l :: ls) = (k, v) :: entries c ls /\
    map c' = <[k := l]> (map c) /\
    size c' = (size c + 1)%Z /\ capacity c' = capacity c /\
    (capacity c' < size c')%Z.
Proof.
  intros Hwf Hcap Hk.
  destruct (set_new_roomy c ls k v Hwf Hk (nonpositive_no_evict _ _ Hwf Hcap))
    as (l & c' & Hset & Hwf' & He & Hmap & Hsz & Hcap').
  exists l, c'. split_and!; try done.
  rewrite Hsz, Hcap', (wf_size _ _ Hwf). lia.
Qed.

Lemma set_calls_nonpositive (kvs : list (string * V)) c ls :
  wf c ls -> (capacity c <= 0)%Z ->
  NoDup kvs.*1 -> (forall k, k ∈ kvs.*1 -> map c !! k = None) ->
  exists c' ls',
    run_calls (set_calls kvs) c = Done (tt, c') /\ wf c' ls' /\
    capacity c' = capacity c /\
    size c' = (size c + Z.of_nat (length kvs))%Z /\
    entries c' ls' = reverse kvs ++ entries c ls /\
    forall k, is_Some (map c' !! k) <-> k ∈ kvs.*1 \/ is_Some (map c !! k).
Proof.
  revert c ls. induction kvs as [|[k v] kvs IH]; intros c ls Hwf Hcap Hnd Hfresh.
  - exists c, ls. simpl. split_and!; try done; [lia|]. set_solver.
  - simpl in Hnd. apply NoDup_cons in Hnd as [Hk Hnd].
    destruct (set_new_nonpositive c ls k v Hwf Hcap)
      as (l & c1 & Hset & Hwf1 & He1 & Hmap1 & Hsz1 & Hcap1 & _).
    { apply Hfresh. set_solver. }
    destruct (IH c1 (l :: ls) Hwf1) as (c' & ls' & Hrun & Hwf' & Hcap' & Hsz' & He' & Hdom).
    { lia. }
    { done. }
    { intros k' Hk'. rewrite Hmap1, lookup_insert_ne by set_solver.
      apply Hfresh. set_solver. }
    exists c', ls'. split_and!.
    + simpl. rewrite (bind_done _ _ _ _ _ (bind_done _ _ _ _ _ Hset)). exact Hrun.
    + done.
    + congruence.
    + rewrite Hsz', Hsz1. simpl length. lia.
    + rewrite He', He1, reverse_cons, <- app_assoc. done.
    + intros k'. rewrite Hdom, Hmap1. simpl. rewrite elem_of_cons.
      destruct (decide (k = k')) as [->|Hne].
      * rewrite lookup_insert_eq. naive_solver.
      * rewrite lookup_insert_ne by done. naive_solver.
Qed.

(** ** Soundness of the computable check *)

Lemma dlseg_check_sound h p ls q : dlseg_check h p ls q = true -> dlseg h p ls q.
Proof.
  revert p. induction ls as [|l ls IH]; intros p; simpl; [done|].
  intros [Hl Hrest]%andb_true_iff. apply bool_decide_eq_true in Hl. auto.
Qed.

Lemma elem_of_index_of h p ls q k l :
  dlseg h p ls q ->
  (k, l) ∈ index_of h ls <-> l ∈ ls /\ key <$> h !! l = Some k.
Proof.
  intros Hd. unfold index_of. rewrite list_elem_of_omap. split.
  - intros (l' & Hl' & Hkl). destruct (h !! l') as [n|] eqn:Hn; [|done].
    simpl in Hkl. injection Hkl as <- <-. by rewrite Hn.
  - intros [Hl Hk]. exists l. split; [done|].
    destruct (h !! l) as [n|]; [|done]. simpl in *. congruence.
Qed.

Lemma wf_check_sound c ls : wf_check c ls = true -> wf c ls.
Proof.
  unfold wf_check. rewrite !andb_true_iff, !bool_decide_eq_true.
  intros [[[[[[[Hnd Hd%dlseg_check_sound] Hhd] Htl] Hhand] Hsz] Hkeys] Hmap].
  split; try done.
  - intros l Hl. rewrite Hl in Hhand. by apply bool_decide_eq_true in Hhand.
  - intros k l. rewrite Hmap, <- elem_of_list_to_map by done.
    by eapply elem_of_index_of.
Qed.

(** Insertions of distinct new keys that fit into the room left evict
    nothing. *)
Lemma set_calls_roomy (kvs : list (string * V)) c ls :
  wf c ls -> (size c + Z.of_nat (length kvs) <= capacity c)%Z ->
  NoDup kvs.*1 -> (forall k, k ∈ kvs.*1 -> map c !! k = None) ->
  exists c' ls',
    run_calls (set_calls kvs) c = Done (tt, c') /\ wf c' ls' /\
    capacity c' = capacity c /\
    size c' = (size c + Z.of_nat (length kvs))%Z.
Proof.
  revert c ls. induction kvs as [|[k v] kvs IH]; intros c ls Hwf Hroom Hnd Hfresh.
  - exists c, ls. simpl. split_and!; try done. lia.
  - simpl in Hnd. apply NoDup_cons in Hnd as [Hk Hnd]. simpl length in Hroom.
    destruct (set_new_roomy c ls k v Hwf)
      as (l & c1 & Hset & Hwf1 & _ & Hmap1 & Hsz1 & Hcap1).
    { apply Hfresh. set_solver. }
    { left. lia. }
    destruct (IH c1 (l :: ls) Hwf1) as (c' & ls' & Hrun & Hwf' & Hcap' & Hsz').
    { lia. }
    { done. }
    { intros k' Hk'. rewrite Hmap1, lookup_insert_ne by set_solver.
      apply Hfresh. set_solver. }
    exists c', ls'. split_and!.
    + simpl. rewrite (bind_done _ _ _ _ _ (bind_done _ _ _ _ _ Hset)). exact Hrun.
    + done.
    + congruence.
    + rewrite Hsz', Hsz1. simpl length. lia.
Qed.

(** [n] pairs with pairwise distinct keys, all with the value [v]. *)
Lemma distinct_keys (n : nat) v :
  exists kvs : list (string * V), NoDup kvs.*1 /\ length kvs = n.
Proof.
  exists ((fun i : nat => (pretty i, v)) <$> seq 0 n). split.
  - rewrite <- list_fmap_compose. apply (NoDup_fmap_2 (fun i : nat => pretty i)).
    apply NoDup_seq.
  - by rewrite length_fmap, length_seq.
Qed.

(** * The claims *)

(** C1. On a consistent, non-empty cache [_evict] returns, and what it
    does is what the steps of the eviction scan say, which fix the victim
    and the resulting state uniquely: the cursor starts at [hand] if that
    is non-null and at [tail] otherwise; while the node under the cursor
    is visited its flag is cleared and the cursor moves to the
    predecessor, or to [tail] when the predecessor is null; the first
    unvisited node is the victim; [hand] becomes the victim's predecessor
    and the victim is removed by [delete], so that it leaves the chain and
    the index.  Within [set] the scan runs exactly when the key is absent
    and [size] equals [capacity]. *)
Theorem evict_follows_scan_steps c ls :
  wf c ls -> ls <> [] ->
  exists vic c',
    _evict c = Done (tt, c') /\
    evict_steps c vic c' /\
    (forall vic2 c2, evict_steps c vic2 c2 -> vic2 = vic /\ c2 = c') /\
    (exists n xs ys,
       nodes c !! vic = Some n /\ ls = xs ++ vic :: ys /\
       wf c' (xs ++ ys) /\ hand c' = prev n /\
       map c' = base.delete (key n) (map c)) /\
    (forall k v, map c !! k = None ->
       set k v c =
         insert_new k v (if bool_decide (size c = capacity c) then c' else c)) /\
    (forall k v l, map c !! k = Some l ->
       exists c2, set k v c = Done (l, c2) /\ same_frame c c2 /\
         forall l' n', nodes c !! l' = Some n' -> visited n' = true ->
           visited <$> nodes c2 !! l' = Some true).
Proof.
  intros Hwf Hne.
  destruct (evict_wf c ls Hwf Hne)
    as (start & c1 & vic & n & xs & ys & c' & Hstart & Hsteps & Hn & _ & Hls
        & Hdel & Hev & Hwf' & _ & Hmap & _ & _ & Hhand & Hsf & _).
  assert (Hspec : evict_steps c vic c') by (by exists start, c1, n, true).
  exists vic, c'. split_and!; [done|done|..].
  - intros vic2 c2 H2. by eapply evict_steps_det.
  - pose proof (sf_links _ _ Hsf vic) as Hl. pose proof (sf_keys _ _ Hsf vic) as Hk.
    unfold links in Hl. rewrite Hn in Hl, Hk.
    destruct (nodes c !! vic) as [n0|] eqn:Hn0; [|done].
    simpl in Hl, Hk. injection Hl as Hp _. injection Hk as Hk.
    exists n0, xs, ys. split_and!; [done|done|done|congruence|congruence].
  - intros k v Hk. case_bool_decide as Hsz.
    + by apply set_new_evict.
    + eapply set_new_no_evict; eauto.
  - intros k v l Hk.
    destruct (wf_lookup _ _ _ Hwf (wf_map_elem _ _ _ _ Hwf Hk)) as [m Hm].
    eexists. split; [by apply (set_present _ _ _ _ m)|]. split.
    + by apply (update_same_frame _ _ m).
    + intros l' n' Hn' Hv'. cbn [nodes with_nodes].
      destruct (decide (l = l')) as [<-|Hll].
      * by rewrite list_lookup_insert_eq by by eapply lookup_lt_Some.
      * rewrite list_lookup_insert_ne, Hn' by done. simpl. by rewrite Hv'.
Qed.

(** C2. After any sequence of calls ([set] calls in particular) on a cache
    constructed with capacity at least 1, [size] is at most [capacity]; and
    when [size] equals [capacity], [set] on an absent key removes exactly
    one entry, which was present, and then inserts the new one, so that
    [size] is unchanged.  The second part holds in the state the calls
    lead to and in every consistent cache of this capacity that is full:
    there [set] is [_evict], which takes one present key other than the
    new one out of chain and index, followed by the insertion.  Full
    states are reached: as many [set] calls with distinct keys as the
    capacity fill the cache. *)
Theorem size_never_exceeds_capacity (cap : Z) (ops : list call) :
  (1 <= cap)%Z ->
  (exists c ls,
     after cap ops = Done c /\ wf c ls /\ capacity c = cap /\
     (size c <= capacity c)%Z /\
     forall k v, map c !! k = None -> size c = capacity c ->
       exists victim vic xs ys l c',
         set k v c = Done (l, c') /\
         map c !! victim = Some vic /\
         ls = xs ++ vic :: ys /\
         wf c' (l :: xs ++ ys) /\
         map c' = <[k := l]> (base.delete victim (map c)) /\
         size c' = size c) /\
  (forall c ls k v,
     wf c ls -> capacity c = cap -> size c = capacity c -> map c !! k = None ->
     exists victim vic xs ys c0 l c',
       ls = xs ++ vic :: ys /\ map c !! victim = Some vic /\ victim <> k /\
       _evict c = Done (tt, c0) /\ wf c0 (xs ++ ys) /\
       map c0 = base.delete victim (map c) /\ size c0 = (size c - 1)%Z /\
       insert_new k v c0 = Done (l, c') /\ set k v c = Done (l, c') /\
       wf c' (l :: xs ++ ys) /\
       map c' = <[k := l]> (base.delete victim (map c)) /\
       size c' = size c /\ capacity c' = capacity c) /\
  (forall v : V,
     exists kvs c,
       NoDup kvs.*1 /\ after cap (set_calls kvs) = Done c /\
       size c = capacity c /\ capacity c = cap).
Proof.
  intros Hcap.
  assert (Hfull : forall c ls k v,
     wf c ls -> capacity c = cap -> size c = capacity c -> map c !! k = None ->
     exists victim vic xs ys c0 l c',
       ls = xs ++ vic :: ys /\ map c !! victim = Some vic /\ victim <> k /\
       _evict c = Done (tt, c0) /\ wf c0 (xs ++ ys) /\
       map c0 = base.delete victim (map c) /\ size c0 = (size c - 1)%Z /\
       insert_new k v c0 = Done (l, c') /\ set k v c = Done (l, c') /\
       wf c' (l :: xs ++ ys) /\
       map c' = <[k := l]> (base.delete victim (map c)) /\
       size c' = size c /\ capacity c' = capacity c).
  { intros c ls k v Hwf Hc Hsz Hk.
    destruct (set_new_spec c ls k v Hwf Hk)
      as (c0 & ls0 & c' & Hset & Hins & Hwf0 & Hk0 & Hcap0 & Hwf' & Hcase).
    destruct (insert_new_spec c0 ls0 k v Hwf0 Hk0)
      as (c'' & Hins' & _ & _ & _ & Hmap' & Hsz' & Hcap' & _).
    assert (c'' = c') as -> by congruence.
    destruct Hcase as [(-> & -> & [Hne| ->])
                      |(_ & Hev & vic & n & xs & ys & -> & -> & Hvic & Hmap0 & Hsz0)].
    - done.
    - rewrite (wf_size _ _ Hwf) in Hsz. simpl in Hsz. lia.
    - exists (key n), vic, xs, ys, c0, (length (nodes c0)), c'.
      split_and!; try done.
      + congruence.
      + by rewrite Hmap', Hmap0.
      + lia.
      + congruence. }
  split_and!.
  - destruct (after_wf cap ops) as (c & ls & Hafter & Hwf & Hc & Hle).
    exists c, ls. split_and!; [done|done|done|rewrite Hc; auto|].
    intros k v Hk Hsz.
    destruct (Hfull c ls k v Hwf Hc Hsz Hk)
      as (victim & vic & xs & ys & c0 & l & c' & ? & ? & ? & ? & ? & ? & ? & ?
          & ? & ? & ? & ? & ?).
    by exists victim, vic, xs, ys, l, c'.
  - exact Hfull.
  - intros v. destruct (distinct_keys (Z.to_nat cap) v) as (kvs & Hnd & Hlen).
    destruct (set_calls_roomy kvs _ [] (wf_constructor cap : wf (V:=V) _ []))
      as (c & ls & Hrun & Hwf & Hc & Hsz); try done.
    { simpl. lia. }
    exists kvs, c. unfold after, constructor. rewrite Hrun.
    split_and!; try done. rewrite Hsz, Hc. simpl. lia.
Qed.

(** C3. On a cache of capacity 3, after [set] of "a", "b", "c" and a [get]
    of "a", the key "b" is present; the [set] of "d" that follows removes
    it, and the keys are then exactly "a", "c", "d" (iterated as "d", "c",
    "a"). *)
Theorem eviction_scenario (va vb vc vd : V) :
  exists c0 c l,
    after 3 [CSet "a" va; CSet "b" vb; CSet "c" vc; CGet "a"] = Done c0 /\
    is_Some (map c0 !! "b") /\
    set "d" vd c0 = Done (l, c) /\
    after 3 [CSet "a" va; CSet "b" vb; CSet "c" vc; CGet "a"; CSet "d" vd]
      = Done c /\
    map c !! "b" = None /\
    dom (map c) = {["a"; "c"; "d"]} /\
    toArray c = Done ([("d", vd); ("c", vc); ("a", va)], c).
Proof.
  eexists _, _, _. split; [vm_compute; reflexivity|].
  split; [vm_compute; eauto|].
  split; [vm_compute; reflexivity|].
  split; [vm_compute; reflexivity|].
  split; [vm_compute; reflexivity|].
  split; [vm_compute; reflexivity|].
  vm_compute; reflexivity.
Qed.

(** C4, as the code has it.  The constructor rejects nothing: for every
    capacity, zero and negative ones included, it returns an empty cache
    holding that capacity.  With a capacity that is not positive the
    consequence shows in the calls that follow: after any calls, [set] on
    an absent key succeeds, evicts nothing and leaves [size] above
    [capacity]. *)
Theorem constructor_accepts_any_capacity (cap : Z) :
  (exists c : cache,
     constructor cap = Done c /\ capacity c = cap /\ size c = 0%Z /\
     map c = ∅ /\ head c = None /\ tail c = None /\ hand c = None) /\
  ((cap <= 0)%Z ->
   forall ops : list call,
     exists c ls,
       after cap ops = Done c /\ wf c ls /\
       forall k v, map c !! k = None ->
         exists l c',
           set k v c = Done (l, c') /\ wf c' (l :: ls) /\
           map c' = <[k := l]> (map c) /\
           size c' = (size c + 1)%Z /\ (capacity c' < size c')%Z).
Proof.
  split; [eexists; by split_and!|].
  intros Hcap ops.
  destruct (after_wf cap ops) as (c & ls & Hafter & Hwf & Hc & _).
  exists c, ls. split_and!; [done..|]. intros k v Hk.
  destruct (set_new_nonpositive c ls k v Hwf ltac:(lia) Hk)
    as (l & c' & ? & ? & ? & ? & ? & ? & ?).
  by exists l, c'.
Qed.

(** C5. The [visited] flag across one call on a consistent cache.  A node
    created by [set] on an absent key has its flag clear.  A [get] hit and
    a [set] on a present key leave the flag of that key's node set.  For a
    node that exists before the call: its flag goes from clear to set only
    if the call is a [get] or a [set] on its key, with the key indexed to
    it; and it goes from set to clear only if the call is a [set] on an
    absent key with [size] equal to [capacity], the node is in the chain,
    and the eviction scan passed over it, that is, met it with its flag
    set and moved on instead of stopping at it.  (When a scan clears every
    flag from its start all the way round, the node passed over first is
    the one it stops at in the end.) *)
Theorem visited_flag_transitions c ls (op : call) c' :
  wf c ls -> run_call op c = Done (tt, c') ->
  (forall k v, op = CSet k v -> map c !! k = None ->
     exists l n, map c' !! k = Some l /\ nodes c !! l = None /\
       nodes c' !! l = Some n /\ key n = k /\ visited n = false) /\
  (forall k l, map c !! k = Some l ->
     op = CGet k \/ (exists v, op = CSet k v) ->
     visited <$> nodes c' !! l = Some true) /\
  (forall l n, nodes c !! l = Some n ->
     exists n', nodes c' !! l = Some n' /\
       (visited n = false -> visited n' = true ->
        map c !! key n = Some l /\
        (op = CGet (key n) \/ exists v, op = CSet (key n) v)) /\
       (visited n = true -> visited n' = false ->
        exists k v, op = CSet k v /\ map c !! k = None /\
          size c = capacity c /\ l ∈ ls /\
          l ∈ scan_passed (S (visited_count (nodes c))) (scan_start c) c)).
Proof.
  intros Hwf Hrun.
  destruct op as [k v|k|k|k| |]; simpl in Hrun.
  - (* set *)
    apply bind_inv in Hrun as (l0 & c1 & Hset & [= <-]).
    destruct (map c !! k) as [lk|] eqn:Hk.
    + destruct (wf_lookup _ _ _ Hwf (wf_map_elem _ _ _ _ Hwf Hk)) as [m Hm].
      rewrite (set_present _ _ v _ _ Hk Hm) in Hset. injection Hset as <- <-.
      cbn [nodes with_nodes]. split_and!.
      * intros ? ? [= <- <-] ?. congruence.
      * intros k' l' Hk' [[=]|[v' [= <- <-]]]. assert (l' = lk) as -> by congruence.
        by rewrite list_lookup_insert_eq by by eapply lookup_lt_Some.
      * intros l n Hn.
        destruct (touch_flags c lk m (mkNode (key m) v (prev m) (next m) true)
                    l n Hm eq_refl Hn) as (n' & Hn' & Hrise & Hkeep).
        exists n'. split_and!; [done| |].
        -- intros Hv Hv'. rewrite (Hrise Hv Hv') in *.
           assert (n = m) as -> by congruence.
           rewrite (wf_map_key _ _ _ _ _ Hwf Hk Hm). split; [done|]. right. eauto.
        -- intros Hv Hv'. rewrite (Hkeep Hv) in Hv'. done.
    + destruct (set_new_flags c ls k v l0 c1 Hwf Hk Hset) as [Hnew Hold].
      split_and!.
      * intros ? ? [= <- <-] _. destruct Hnew as (? & ? & n0 & ? & ? & _ & ?).
        by exists l0, n0.
      * intros k' l' Hk' [[=]|[v' [= <- <-]]]. congruence.
      * intros l n Hn. destruct (Hold l n Hn) as (n' & Hn' & Hmono & Hfall).
        exists n'. split_and!; [done| |].
        -- intros Hv Hv'. rewrite (Hmono Hv') in Hv. done.
        -- intros Hv Hv'. destruct (Hfall Hv Hv') as (? & ? & ?).
           by exists k, v.
  - (* get *)
    apply bind_inv in Hrun as (r & c1 & Hget & [= <-]).
    destruct (map c !! k) as [lk|] eqn:Hk.
    + destruct (wf_lookup _ _ _ Hwf (wf_map_elem _ _ _ _ Hwf Hk)) as [m Hm].
      rewrite (get_hit _ _ _ _ Hk Hm) in Hget. injection Hget as _ <-.
      cbn [nodes with_nodes]. split_and!.
      * intros ? ? [=].
      * intros k' l' Hk' [[= <-]|[v' [=]]]. assert (l' = lk) as -> by congruence.
        by rewrite list_lookup_insert_eq by by eapply lookup_lt_Some.
      * intros l n Hn.
        destruct (touch_flags c lk m (with_visited true m) l n Hm eq_refl Hn)
          as (n' & Hn' & Hrise & Hkeep).
        exists n'. split_and!; [done| |].
        -- intros Hv Hv'. rewrite (Hrise Hv Hv') in *.
           assert (n = m) as -> by congruence.
           rewrite (wf_map_key _ _ _ _ _ Hwf Hk Hm). split; [done|]. by left.
        -- intros Hv Hv'. rewrite (Hkeep Hv) in Hv'. done.
    + rewrite (get_miss _ _ Hk) in Hget. injection Hget as _ <-. split_and!.
      * intros ? ? [=].
      * intros k' l' Hk' [[= <-]|[v' [=]]]. congruence.
      * intros l n Hn. exists n. split_and!; [done|congruence..].
  - (* getNode *)
    injection Hrun as <-. split_and!.
    + intros ? ? [=].
    + intros k' l' Hk' [[=]|[v' [=]]].
    + intros l n Hn. exists n. split_and!; [done|congruence..].
  - (* delete *)
    apply bind_inv in Hrun as (r & c1 & Hdel & [= <-]).
    assert (Hsd : same_data c c1).
    { destruct (map c !! k) as [lk|] eqn:Hk.
      - destruct (wf_lookup _ _ _ Hwf (wf_map_elem _ _ _ _ Hwf Hk)) as [m Hm].
        destruct (delete_spec c ls k lk m Hwf Hk Hm)
          as (xs & ys & c'' & _ & Hdel' & _ & Hsd & _).
        rewrite Hdel' in Hdel. by injection Hdel as _ <-.
      - rewrite (delete_absent _ _ Hk) in Hdel. by injection Hdel as _ <-. }
    split_and!.
    + intros ? ? [=].
    + intros k' l' Hk' [[=]|[v' [=]]].
    + intros l n Hn. specialize (Hsd l).
      destruct (nodes c1 !! l) as [n'|] eqn:Hn'.
      2:{ unfold data in Hsd. by rewrite Hn, Hn' in Hsd. }
      destruct (data_visited _ _ _ _ _ Hsd Hn Hn') as (_ & _ & Hv).
      exists n'. split_and!; [done|congruence..].
  - (* clear *)
    rewrite clear_spec in Hrun. injection Hrun as <-. split_and!.
    + intros ? ? [=].
    + intros k' l' Hk' [[=]|[v' [=]]].
    + intros l n Hn. exists n. split_and!; [done|congruence..].
  - (* toArray *)
    rewrite (bind_done _ _ _ _ _ (toArray_chain _ _ Hwf)) in Hrun.
    injection Hrun as <-. split_and!.
    + intros ? ? [=].
    + intros k' l' Hk' [[=]|[v' [=]]].
    + intros l n Hn. exists n. split_and!; [done|congruence..].
Qed.

(** C6. [delete] of an absent key returns false and leaves the cache as it
    is.  [delete] of a present key returns true; [hand] becomes the node's
    predecessor if it referred to the node and is unchanged otherwise; the
    node leaves the chain, whose other nodes keep their order, and the
    index; [size] drops by one; keys, values and flags stay. *)
Theorem delete_removes_entry c ls k :
  wf c ls ->
  (map c !! k = None -> delete k c = Done (false, c)) /\
  (forall x nx, map c !! k = Some x -> nodes c !! x = Some nx ->
     exists xs ys c',
       ls = xs ++ x :: ys /\
       delete k c = Done (true, c') /\
       hand c' = (if decide (hand c = Some x) then prev nx else hand c) /\
       wf c' (xs ++ ys) /\
       map c' = base.delete k (map c) /\
       size c' = (size c - 1)%Z /\
       capacity c' = capacity c /\
       same_data c c').
Proof.
  intros Hwf. split; [apply delete_absent|].
  intros x nx Hk Hnx.
  destruct (delete_spec c ls k x nx Hwf Hk Hnx)
    as (xs & ys & c' & ? & ? & ? & ? & ? & ? & ? & ?).
  by exists xs, ys, c'.
Qed.

(** C7. [set] on a key that has a node returns that node and changes
    nothing but that node's value, which becomes the new one, and its
    flag, which becomes true: no other field of the cache or of any node
    changes, so the chain, its order and [size] are as before, also when
    the cache is full. *)
Theorem set_existing_in_place c k v l n :
  map c !! k = Some l -> nodes c !! l = Some n ->
  exists c',
    set k v c = Done (l, c') /\
    nodes c' !! l = Some (mkNode (key n) v (prev n) (next n) true) /\
    (forall l', l' <> l -> nodes c' !! l' = nodes c !! l') /\
    length (nodes c') = length (nodes c) /\
    head c' = head c /\ tail c' = tail c /\ hand c' = hand c /\
    size c' = size c /\ capacity c' = capacity c /\ map c' = map c /\
    (forall ls, wf c ls -> wf c' ls).
Proof.
  intros Hk Hn. eexists. split; [by apply (set_present _ _ _ _ n)|].
  cbn [nodes with_nodes head tail hand size capacity map].
  split_and!; try done.
  - apply list_lookup_insert_eq. by eapply lookup_lt_Some.
  - intros l' Hl'. by apply list_lookup_insert_ne.
  - apply length_insert.
  - intros ls. apply wf_same_frame. by apply (update_same_frame _ _ n).
Qed.

(** C8. Iteration yields the entries of the chain from [head] to [tail]:
    after [set] of "a", "b", "c" on a new cache with room for three
    entries it yields "c", "b", "a".  Iterating and [toArray], which
    yields the same sequence, return the cache in the state they found it
    in: no flag, no link and no other field changes. *)
Theorem iteration_newest_first :
  (forall (cap : Z) (va vb vc : V), (3 <= cap)%Z ->
     exists c,
       after cap [CSet "a" va; CSet "b" vb; CSet "c" vc] = Done c /\
       iterate c = Done ([("c", vc); ("b", vb); ("a", va)], c) /\
       toArray c = Done ([("c", vc); ("b", vb); ("a", va)], c)) /\
  (forall c ls, wf c ls -> iterate c = Done (entries c ls, c)) /\
  (forall c items c', iterate c = Done (items, c') -> c' = c) /\
  (forall c items c', toArray c = Done (items, c') -> c' = c) /\
  (forall c, toArray c = iterate c).
Proof.
  split_and!.
  - intros cap va vb vc Hcap.
    pose proof (wf_constructor cap : wf (V:=V) _ []) as Hwf0.
    destruct (set_new_roomy _ _ "a" va Hwf0) as (la & ca & Ha & Hwfa & Hea & Hma & Hsa & Hca);
      [done|by right|].
    destruct (set_new_roomy _ _ "b" vb Hwfa) as (lb & cb & Hb & Hwfb & Heb & Hmb & Hsb & Hcb).
    { by rewrite Hma. }
    { left. rewrite Hsa, Hca. simpl. lia. }
    destruct (set_new_roomy _ _ "c" vc Hwfb) as (lc & cc & Hc & Hwfc & Hec & Hmc & Hsc & Hcc).
    { by rewrite Hmb, Hma. }
    { left. rewrite Hsb, Hsa, Hcb, Hca. simpl. lia. }
    exists cc. unfold after, constructor. simpl.
    rewrite (bind_done _ _ _ _ _ (bind_done _ _ _ _ _ Ha)). unfold ret at 1.
    rewrite (bind_done _ _ _ _ _ (bind_done _ _ _ _ _ Hb)). unfold ret at 1.
    rewrite (bind_done _ _ _ _ _ (bind_done _ _ _ _ _ Hc)). unfold ret at 1.
    assert (entries cc (lc :: lb :: [la]) = [("c", vc); ("b", vb); ("a", va)]) as <-.
    { by rewrite Hec, Heb, Hea. }
    split_and!; [done|by apply iterate_chain|by apply toArray_chain].
  - apply @iterate_chain.
  - intros c items c' H. symmetry. by apply (iterate_unchanged _ _ _ H).
  - intros c items c' H. symmetry. by apply (toArray_unchanged _ _ _ H).
  - apply @toArray_iterate.
Qed.

(** C9. On a consistent, non-empty cache the scan loop ends: run with any
    bound above [size], that is, allowed [size + 1] evaluations of its
    condition or more, it returns; it passes over no node twice and over
    at most [size] nodes; and it ends on a node of the chain whose flag is
    clear, never on null.  So [_evict] returns. *)
Theorem scan_terminates c ls :
  wf c ls -> ls <> [] ->
  exists start vic c1 n,
    scan_start c = Some start /\
    (forall fuel, (Z.to_nat (size c) < fuel)%nat ->
       scan fuel (Some start) c = Done (Some vic, c1) /\
       NoDup (scan_passed fuel (Some start) c) /\
       (length (scan_passed fuel (Some start) c) <= Z.to_nat (size c))%nat) /\
    vic ∈ ls /\ nodes c1 !! vic = Some n /\ visited n = false /\
    exists c', _evict c = Done (tt, c').
Proof.
  intros Hwf Hne.
  destruct (evict_wf c ls Hwf Hne)
    as (start & c1 & vic & n & xs & ys & c' & Hstart & Hsteps & Hn & Hv & Hls
        & _ & Hev & _).
  assert (Hin : start ∈ ls).
  { destruct (scan_start_elem _ _ Hwf Hne) as (s & Hs & ?). congruence. }
  assert (Hsz : Z.to_nat (size c) = length ls).
  { rewrite (wf_size _ _ Hwf). lia. }
  exists start, vic, c1, n. split_and!; try done.
  - intros fuel Hlt. rewrite Hsz in *. split_and!.
    + destruct (scan_wf_terminates c ls start fuel Hwf Hin)
        as (vic' & c1' & n' & Hscan & _).
      { pose proof (count_flagged_le (nodes c) ls). lia. }
      rewrite Hscan. apply scan_steps_complete in Hscan.
      by destruct (scan_steps_det _ _ _ _ _ _ Hsteps Hscan) as [-> ->].
    + apply scan_passed_NoDup.
    + by apply scan_passed_length.
  - rewrite Hls. set_solver.
  - by exists c'.
Qed.

(** C10. [constructor(0)] returns a cache.  After any calls on it, the
    eviction scan does nothing whenever [size] equals [capacity], because
    the chain is then empty, and [set] on an absent key succeeds, keeps
    every entry, adds the new one at the head and leaves [size] above
    [capacity].  Hence [set] on any number of distinct keys makes [size]
    that number, with every key present. *)
Theorem zero_capacity_never_evicts :
  (exists c : cache,
     constructor 0 = Done c /\ capacity c = 0%Z /\ size c = 0%Z) /\
  (forall ops : list call,
     exists c ls,
       after 0 ops = Done c /\ wf c ls /\ capacity c = 0%Z /\
       (size c = capacity c -> ls = [] /\ _evict c = Done (tt, c)) /\
       forall k v, map c !! k = None ->
         exists l c',
           set k v c = Done (l, c') /\ wf c' (l :: ls) /\
           entries c' (l :: ls) = (k, v) :: entries c ls /\
           map c' = <[k := l]> (map c) /\
           size c' = (size c + 1)%Z /\ capacity c' = 0%Z /\
           (capacity c' < size c')%Z) /\
  (forall kvs : list (string * V), NoDup kvs.*1 ->
     exists c ls,
       after 0 (set_calls kvs) = Done c /\ wf c ls /\
       size c = Z.of_nat (length kvs) /\
       entries c ls = reverse kvs /\
       (forall k, is_Some (map c !! k) <-> k ∈ kvs.*1) /\
       (kvs <> [] -> (capacity c < size c)%Z)).
Proof.
  split_and!.
  - eexists. by split_and!.
  - intros ops.
    destruct (after_wf 0 ops) as (c & ls & Hafter & Hwf & Hc & _).
    exists c, ls. split_and!; [done..| |].
    + intros Hsz. rewrite Hc, (wf_size _ _ Hwf) in Hsz.
      assert (ls = []) as -> by (destruct ls; [done|simpl in Hsz; lia]).
      split; [done|]. by apply evict_empty.
    + intros k v Hk.
      destruct (set_new_nonpositive c ls k v Hwf ltac:(lia) Hk)
        as (l & c' & ? & ? & ? & ? & ? & ? & ?).
      exists l, c'. split_and!; try done. congruence.
  - intros kvs Hnd.
    destruct (set_calls_nonpositive kvs _ [] (wf_constructor 0 : wf (V:=V) _ []))
      as (c & ls & Hrun & Hwf & Hcap & Hsz & He & Hdom); [simpl; lia|done|done|].
    exists c, ls. unfold after, constructor. rewrite Hrun.
    simpl in *. split_and!; [done|done|lia| | |].
    + by rewrite He, app_nil_r.
    + intros k. rewrite Hdom, lookup_empty. split; [|by left].
      intros [?|[? [=]]]. done.
    + intros Hne. rewrite Hcap, Hsz. destruct kvs; [done|]. simpl. lia.
Qed.

(** * Further properties of the code *)

(** ** Lookups *)

Lemma cached_Some c ls k v :
  wf c ls ->
  cached c k = Some v <->
  exists l n, l ∈ ls /\ nodes c !! l = Some n /\ key n = k /\ value n = v.
Proof.
  intros Hwf. unfold cached. split.
  - destruct (map c !! k) as [l|] eqn:Hk; [|done].
    destruct (nodes c !! l) as [n|] eqn:Hn; [|done]. intros [= <-].
    exists l, n. split_and!; try done; [by eapply wf_map_elem|by eapply wf_map_key].
  - intros (l & n & Hl & Hn & <- & <-).
    by rewrite (wf_map_lookup _ _ _ _ Hwf Hl Hn), Hn.
Qed.

Lemma cached_None c ls k : wf c ls -> cached c k = None <-> map c !! k = None.
Proof.
  intros Hwf. unfold cached. destruct (map c !! k) as [l|] eqn:Hk; [|done].
  destruct (wf_lookup _ _ _ Hwf (wf_map_elem _ _ _ _ Hwf Hk)) as [n ->]. done.
Qed.

(** [cached] depends on the index and on keys and values only. *)
Lemma cached_ext c c' k :
  map c' !! k = map c !! k ->
  (forall l, map c !! k = Some l ->
     value <$> nodes c' !! l = value <$> nodes c !! l) ->
  cached c' k = cached c k.
Proof.
  intros Hm Hv. unfold cached. rewrite Hm. destruct (map c !! k); auto.
Qed.

Lemma data_value h h' l :
  data h' l = data h l -> value <$> h' !! l = value <$> h !! l.
Proof. unfold data. destruct (h' !! l), (h !! l); simpl; congruence. Qed.

Lemma flags_cleared_value c c' l :
  flags_cleared c c' -> value <$> nodes c' !! l = value <$> nodes c !! l.
Proof.
  intros H. specialize (H l).
  destruct (nodes c !! l), (nodes c' !! l); try done. simpl.
  destruct H as (_ & -> & _). done.
Qed.

Lemma entries_ext_kv c c' ls :
  (forall l, l ∈ ls ->
     key <$> nodes c' !! l = key <$> nodes c !! l /\
     value <$> nodes c' !! l = value <$> nodes c !! l) ->
  entries c' ls = entries c ls.
Proof.
  induction ls as [|l ls IH]; intros H; [done|].
  rewrite !entries_cons, IH by (intros; apply H; set_solver).
  destruct (H l ltac:(set_solver)) as [Hk Hv].
  destruct (nodes c' !! l), (nodes c !! l); simplify_eq/=; congruence.
Qed.

Lemma get_cached c ls k :
  wf c ls ->
  exists c', get k c = Done (cached c k, c') /\ wf c' ls /\
    same_frame c c' /\ (forall k', cached c' k' = cached c k') /\
    entries c' ls = entries c ls.
Proof.
  intros Hwf. unfold cached. destruct (map c !! k) as [l|] eqn:Hk.
  - destruct (wf_lookup _ _ _ Hwf (wf_map_elem _ _ _ _ Hwf Hk)) as [n Hn].
    assert (Hsf : same_frame c (with_nodes (<[l := with_visited true n]> (nodes c)) c))
      by (by apply (update_same_frame _ _ n)).
    eexists. rewrite (get_hit _ _ _ _ Hk Hn), Hn. split_and!; try done.
    + by eapply wf_same_frame.
    + intros k'. apply cached_ext; [done|]. intros l' _. cbn [nodes with_nodes].
      destruct (decide (l = l')) as [<-|Hne].
      * rewrite list_lookup_insert_eq by by eapply lookup_lt_Some. by rewrite Hn.
      * by rewrite list_lookup_insert_ne.
    + apply entries_ext_kv. intros l' _. cbn [nodes with_nodes].
      destruct (decide (l = l')) as [<-|Hne].
      * rewrite list_lookup_insert_eq by by eapply lookup_lt_Some. by rewrite Hn.
      * by rewrite list_lookup_insert_ne.
  - exists c. rewrite (get_miss _ _ Hk). by split_and!.
Qed.
(** What [_evict] does to lookups: it removes one present key and leaves
    every other key with its value. *)
Lemma evict_cached c ls :
  wf c ls -> ls <> [] ->
  exists c0 vic n xs ys,
    _evict c = Done (tt, c0) /\ ls = xs ++ vic :: ys /\ wf c0 (xs ++ ys) /\
    nodes c !! vic = Some n /\ map c !! key n = Some vic /\
    map c0 = base.delete (key n) (map c) /\
    size c0 = (size c - 1)%Z /\ capacity c0 = capacity c /\
    cached c0 (key n) = None /\
    forall k', k' <> key n -> cached c0 k' = cached c k'.
Proof.
  intros Hwf Hne.
  destruct (evict_wf c ls Hwf Hne)
    as (start & c1 & vic & n & xs & ys & c0 & _ & _ & Hn & _ & Hls & _ & Hev
        & Hwf0 & Hvic & Hmap0 & Hsz0 & Hcap0 & _ & Hsf & Hfc & Hsd).
  pose proof (sf_keys _ _ Hsf vic) as Hk. rewrite Hn in Hk.
  destruct (nodes c !! vic) as [n0|] eqn:Hn0; [|done].
  simpl in Hk. injection Hk as Hk.
  exists c0, vic, n0, xs, ys. rewrite <- Hk. split_and!; try done.
  - unfold cached. by rewrite Hmap0, lookup_delete_eq.
  - intros k' Hk'. apply cached_ext.
    + by rewrite Hmap0, lookup_delete_ne.
    + intros l _. rewrite (data_value _ _ _ (Hsd l)).
      by apply flags_cleared_value.
Qed.

(** What [set] does to lookups: the key gets the value; at most one other
    key is lost, and only when the key was absent and the cache full;
    every other key keeps its value. *)
Lemma set_cached c ls k v :
  wf c ls ->
  exists l c' ls' (evicted : option string),
    set k v c = Done (l, c') /\ wf c' ls' /\
    map c' !! k = Some l /\ cached c' k = Some v /\
    (forall k', k' <> k -> Some k' <> evicted -> cached c' k' = cached c k') /\
    (forall ke, evicted = Some ke ->
       ke <> k /\ cached c' ke = None /\ is_Some (cached c ke) /\
       map c !! k = None /\ size c = capacity c) /\
    (is_Some (map c !! k) -> evicted = None /\ ls' = ls /\ map c' = map c) /\
    capacity c' = capacity c /\
    size c' = (if bool_decide (map c !! k = None /\ evicted = None)
               then size c + 1 else size c)%Z.
Proof.
  intros Hwf. destruct (map c !! k) as [l|] eqn:Hk.
  - destruct (wf_lookup _ _ _ Hwf (wf_map_elem _ _ _ _ Hwf Hk)) as [n Hn].
    eexists l, _, ls, None. rewrite (set_present _ _ v _ _ Hk Hn).
    split_and!; try done.
    + eapply wf_same_frame; [|done]. by apply (update_same_frame _ _ n).
    + unfold cached. cbn [map nodes with_nodes]. rewrite Hk.
      by rewrite list_lookup_insert_eq by by eapply lookup_lt_Some.
    + intros k' Hk' _. apply cached_ext; [done|].
      intros l' Hl'. cbn [nodes with_nodes].
      rewrite list_lookup_insert_ne; [done|]. intros <-.
      apply Hk'. rewrite <- (wf_map_key _ _ _ _ _ Hwf Hk Hn).
      by rewrite <- (wf_map_key _ _ _ _ _ Hwf Hl' Hn).
  - assert (Hins : forall c0 ls0, wf c0 ls0 -> map c0 !! k = None ->
      exists c', insert_new k v c0 = Done (length (nodes c0), c') /\
        wf c' (length (nodes c0) :: ls0) /\
        size c' = (size c0 + 1)%Z /\ capacity c' = capacity c0 /\
        map c' !! k = Some (length (nodes c0)) /\ cached c' k = Some v /\
        forall k', k' <> k -> cached c' k' = cached c0 k').
    { intros c0 ls0 Hwf0 Hk0.
      destruct (insert_new_spec c0 ls0 k v Hwf0 Hk0)
        as (c' & Hins & Hwf' & Hnew & Hold & Hmap' & Hsz' & Hcap' & _).
      exists c'. split_and!; try done.
      - rewrite Hmap'. apply lookup_insert_eq.
      - unfold cached. by rewrite Hmap', lookup_insert_eq, Hnew.
      - intros k' Hk'. apply cached_ext.
        + by rewrite Hmap', lookup_insert_ne.
        + intros l Hl.
          destruct (wf_lookup _ _ _ Hwf0 (wf_map_elem _ _ _ _ Hwf0 Hl)) as [n Hn].
          apply data_value. by eapply Hold. }
    destruct (decide (size c = capacity c /\ ls <> [])) as [[Hsz Hne]|Hno].
    + destruct (evict_cached c ls Hwf Hne)
        as (c0 & vic & n & xs & ys & Hev & -> & Hwf0 & Hn & Hvic & Hmap0 & Hsz0
            & Hcap0 & Hgone & Hkeep).
      assert (Hk0 : map c0 !! k = None).
      { rewrite Hmap0. apply lookup_delete_None. by right. }
      destruct (Hins c0 _ Hwf0 Hk0)
        as (c' & Hi & Hwf' & Hsz' & Hcap' & Hl & Hv & Hother).
      assert (key n <> k) by congruence.
      eexists _, c', _, (Some (key n)).
      rewrite (set_new_evict _ _ _ _ Hk Hsz Hev), Hi.
      split_and!; try done.
      * intros k' Hk' Hev'. rewrite Hother by done. apply Hkeep. congruence.
      * intros ke [= <-]. split_and!; try done.
        -- rewrite Hother by done. done.
        -- unfold cached. rewrite Hvic, Hn. by eexists.
      * congruence.
      * rewrite bool_decide_eq_false_2 by (by intros [_ [=]]). lia.
    + assert (size c <> capacity c \/ ls = []) as Hcase.
      { destruct (decide (size c = capacity c)); [|by left].
        destruct ls; [by right|]. exfalso. by apply Hno. }
      destruct (Hins c ls Hwf Hk)
        as (c' & Hi & Hwf' & Hsz' & Hcap' & Hl & Hv & Hother).
      eexists _, c', _, None.
      rewrite (set_new_no_evict _ _ _ _ Hwf Hk Hcase), Hi.
      split_and!; try done.
      intros k' Hk' _. by apply Hother.
Qed.

(** What [delete] does to lookups. *)
Lemma delete_cached c ls k :
  wf c ls ->
  exists c' ls',
    delete k c = Done (bool_decide (is_Some (map c !! k)), c') /\
    wf c' ls' /\ map c' = base.delete k (map c) /\
    cached c' k = None /\
    (forall k', k' <> k -> cached c' k' = cached c k') /\
    capacity c' = capacity c /\
    size c' = (if bool_decide (is_Some (map c !! k)) then size c - 1
               else size c)%Z.
Proof.
  intros Hwf. destruct (map c !! k) as [l|] eqn:Hk.
  - destruct (wf_lookup _ _ _ Hwf (wf_map_elem _ _ _ _ Hwf Hk)) as [n Hn].
    destruct (delete_spec c ls k l n Hwf Hk Hn)
      as (xs & ys & c' & -> & Hdel & Hwf' & Hsd & Hmap & Hsz & Hcap & _).
    exists c', (xs ++ ys). rewrite !bool_decide_eq_true_2 by by eexists.
    split_and!; try done.
    + unfold cached. by rewrite Hmap, lookup_delete_eq.
    + intros k' Hk'. apply cached_ext.
      * by rewrite Hmap, lookup_delete_ne.
      * intros l' _. by apply data_value.
  - exists c, ls. rewrite !bool_decide_eq_false_2 by (by intros [? [=]]).
    rewrite (delete_absent _ _ Hk). split_and!; try done.
    + symmetry. by apply delete_id.
    + unfold cached. by rewrite Hk.
Qed.

(** ** Iteration and the index *)

Lemma elem_of_entries c ls k v :
  (k, v) ∈ entries c ls <->
  exists l n, l ∈ ls /\ nodes c !! l = Some n /\ key n = k /\ value n = v.
Proof.
  unfold entries. rewrite list_elem_of_omap. split.
  - intros (l & Hl & Hkv). destruct (nodes c !! l) as [n|] eqn:Hn; [|done].
    simpl in Hkv. injection Hkv as <- <-. by exists l, n.
  - intros (l & n & Hl & Hn & <- & <-). exists l. by rewrite Hn.
Qed.

Lemma length_entries c ls :
  (forall l, l ∈ ls -> is_Some (nodes c !! l)) ->
  length (entries c ls) = length ls.
Proof.
  induction ls as [|l ls IH]; intros H; [done|].
  rewrite entries_cons. destruct (H l ltac:(set_solver)) as [n ->].
  simpl. rewrite IH; [done|]. intros; apply H; set_solver.
Qed.

Lemma entries_keys_NoDup c ls : wf c ls -> NoDup (entries c ls).*1.
Proof.
  intros Hwf.
  assert (forall ls', NoDup ls' -> ls' ⊆ ls -> NoDup (entries c ls').*1) as H.
  { induction ls' as [|l ls' IH]; intros Hnd Hsub; [apply NoDup_nil_2|].
    apply NoDup_cons in Hnd as [Hl Hnd]. rewrite entries_cons.
    destruct (wf_lookup _ _ _ Hwf (Hsub l ltac:(set_solver))) as [n Hn].
    rewrite Hn. simpl. apply NoDup_cons. split; [|apply IH; set_solver].
    intros ([k v] & Hk & (l2 & n2 & Hl2 & Hn2 & <- & <-)%elem_of_entries)%list_elem_of_fmap.
    simpl in Hk.
    assert (map c !! key n = Some l) by (eapply wf_map_lookup; eauto; set_solver).
    assert (map c !! key n2 = Some l2) by (eapply wf_map_lookup; eauto; set_solver).
    assert (l = l2) by congruence. by subst. }
  apply H; [apply Hwf|done].
Qed.

Lemma getCache_toArray c :
  getCache c =
    match toArray c with
    | Done (items, c') => Done (items.*1, c')
    | Stuck => Stuck
    | Timeout => Timeout
    end.
Proof.
  rewrite toArray_iterate. unfold getCache, bind.
  by destruct (iterate c) as [[items c']| |].
Qed.

(** ** Round trips and the cache as a map *)

(** X1. On a consistent cache, [set(k, v)] followed by [get(k)] returns
    [v], whether the key was present or not and whether an entry had to be
    evicted or not; [getNode(k)] then returns the node [set] returned. *)
Theorem get_after_set c ls k v :
  wf c ls ->
  exists l c1 c2,
    set k v c = Done (l, c1) /\
    getNode k c1 = Done (Some l, c1) /\
    get k c1 = Done (Some v, c2).
Proof.
  intros Hwf.
  destruct (set_cached c ls k v Hwf)
    as (l & c1 & ls1 & ev & Hset & Hwf1 & Hl & Hv & _).
  destruct (get_cached c1 ls1 k Hwf1) as (c2 & Hget & _).
  exists l, c1, c2. split_and!; [done| |by rewrite Hget, Hv].
  unfold getNode, gets. by rewrite Hl.
Qed.

Lemma run_call_sound c ls (op : call) c' (m : gmap string V) :
  wf c ls -> run_call op c = Done (tt, c') ->
  (forall k v, cached c k = Some v -> m !! k = Some v) ->
  forall k v, cached c' k = Some v -> map_call op m !! k = Some v.
Proof.
  intros Hwf Hrun Hm k v. destruct op as [k0 v0|k0|k0|k0| |]; simpl in *.
  - destruct (set_cached c ls k0 v0 Hwf)
      as (l & c1 & ls1 & ev & Hset & _ & _ & Hv & Hkeep & Hev & _).
    rewrite (bind_done _ _ _ _ _ Hset) in Hrun. injection Hrun as <-.
    destruct (decide (k0 = k)) as [->|Hne].
    + rewrite Hv, lookup_insert_eq. done.
    + rewrite lookup_insert_ne by done. intros Hc. apply Hm.
      destruct (decide (Some k = ev)) as [<-|Hev'].
      * destruct (Hev k eq_refl) as (_ & Hnone & _). congruence.
      * by rewrite <- Hkeep.
  - destruct (get_cached c ls k0 Hwf) as (c1 & Hget & _ & _ & Hsame & _).
    rewrite (bind_done _ _ _ _ _ Hget) in Hrun. injection Hrun as <-.
    rewrite Hsame. apply Hm.
  - injection Hrun as <-. apply Hm.
  - destruct (delete_cached c ls k0 Hwf) as (c1 & ls1 & Hdel & _ & _ & Hgone & Hkeep & _).
    rewrite (bind_done _ _ _ _ _ Hdel) in Hrun. injection Hrun as <-.
    destruct (decide (k0 = k)) as [->|Hne]; [by rewrite Hgone|].
    rewrite lookup_delete_ne, Hkeep by done. apply Hm.
  - rewrite clear_spec in Hrun. injection Hrun as <-. by unfold cached.
  - rewrite (bind_done _ _ _ _ _ (toArray_chain _ _ Hwf)) in Hrun.
    injection Hrun as <-. apply Hm.
Qed.

Lemma run_calls_sound (ops : list call) c ls c' (m : gmap string V) :
  wf c ls -> run_calls ops c = Done (tt, c') ->
  (forall k v, cached c k = Some v -> m !! k = Some v) ->
  forall k v, cached c' k = Some v -> map_calls ops m !! k = Some v.
Proof.
  revert c ls m. induction ops as [|op ops IH]; intros c ls m Hwf Hrun Hm.
  - injection Hrun as <-. exact Hm.
  - destruct (run_call_wf c ls op Hwf) as (c1 & ls1 & Hop & Hwf1 & _).
    simpl in Hrun. rewrite (bind_done _ _ _ _ _ Hop) in Hrun.
    eapply (IH c1 ls1); [done|done|].
    exact (run_call_sound c ls op c1 m Hwf Hop Hm).
Qed.

(** X2. The cache never answers with a value a plain map would not hold:
    after any sequence of calls on a new cache of any capacity, [get(k)]
    returns either nothing or the value that the same calls leave under
    [k] in a map that never evicts (the last value set for [k], if [k] was
    not deleted or cleared since). *)
Theorem get_never_stale (cap : Z) (ops : list call) (k : string) :
  exists c c' r,
    after cap ops = Done c /\ get k c = Done (r, c') /\
    (r = None \/ r = map_calls ops ∅ !! k).
Proof.
  destruct (after_wf cap ops) as (c & ls & Hafter & Hwf & _).
  destruct (get_cached c ls k Hwf) as (c' & Hget & _).
  exists c, c', (cached c k). split_and!; [done..|].
  destruct (cached c k) as [v|] eqn:Hv; [right|by left]. symmetry.
  unfold after, constructor in Hafter.
  destruct (run_calls ops _) as [[[] c0]| |] eqn:Hrun; [|done..].
  injection Hafter as ->.
  pose proof (wf_constructor cap : wf (V:=V) _ []) as Hwf0.
  eapply (run_calls_sound ops _ [] c _ Hwf0 Hrun); [|exact Hv].
  intros k' v'. by unfold cached.
Qed.

Lemma run_call_exact c ls (op : call) (m : gmap string V) :
  wf c ls ->
  (forall k, cached c k = m !! k) -> size c = Z.of_nat (base.size m) ->
  (Z.of_nat (base.size (map_call op m)) <= capacity c)%Z ->
  exists c' ls',
    run_call op c = Done (tt, c') /\ wf c' ls' /\ capacity c' = capacity c /\
    (forall k, cached c' k = map_call op m !! k) /\
    size c' = Z.of_nat (base.size (map_call op m)).
Proof.
  intros Hwf Hm Hsz Hcap. destruct op as [k0 v0|k0|k0|k0| |]; simpl in *.
  - destruct (set_cached c ls k0 v0 Hwf)
      as (l & c1 & ls1 & ev & Hset & Hwf1 & _ & Hv & Hkeep & Hev & Hpres & Hcap1 & Hsz1).
    exists c1, ls1. rewrite (bind_done _ _ _ _ _ Hset).
    assert (ev = None) as ->.
    { destruct ev as [ke|]; [exfalso|done].
      destruct (Hev ke eq_refl) as (_ & _ & _ & Hk0 & Hfull).
      assert (m !! k0 = None) as Hmk.
      { rewrite <- Hm. by apply (cached_None _ _ _ Hwf). }
      rewrite map_size_insert_None in Hcap by done. lia. }
    split_and!; try done.
    + intros k. destruct (decide (k0 = k)) as [->|Hne].
      * by rewrite Hv, lookup_insert_eq.
      * rewrite lookup_insert_ne, <- Hm by done. by apply Hkeep.
    + rewrite Hsz1. destruct (map c !! k0) as [l0|] eqn:Hk0.
      * rewrite bool_decide_eq_false_2 by (by intros [[=] _]).
        assert (is_Some (m !! k0)) as Hw.
        { rewrite <- Hm. unfold cached. rewrite Hk0.
          destruct (wf_lookup _ _ _ Hwf (wf_map_elem _ _ _ _ Hwf Hk0)) as [n ->].
          by eexists. }
        by rewrite map_size_insert_Some.
      * rewrite bool_decide_eq_true_2 by done.
        assert (m !! k0 = None) as Hmk.
        { rewrite <- Hm. unfold cached. by rewrite Hk0. }
        rewrite map_size_insert_None by done. lia.
  - destruct (get_cached c ls k0 Hwf) as (c1 & Hget & Hwf1 & Hsf & Hsame & _).
    exists c1, ls. rewrite (bind_done _ _ _ _ _ Hget).
    split_and!; [done|done|apply Hsf| |by rewrite (sf_size _ _ Hsf)].
    intros k. by rewrite Hsame.
  - by exists c, ls.
  - destruct (delete_cached c ls k0 Hwf)
      as (c1 & ls1 & Hdel & Hwf1 & _ & Hgone & Hkeep & Hcap1 & Hsz1).
    exists c1, ls1. rewrite (bind_done _ _ _ _ _ Hdel).
    split_and!; try done.
    + intros k. destruct (decide (k0 = k)) as [->|Hne].
      * by rewrite Hgone, lookup_delete_eq.
      * rewrite lookup_delete_ne, <- Hm by done. by apply Hkeep.
    + rewrite Hsz1. destruct (map c !! k0) as [l0|] eqn:Hk0.
      * rewrite bool_decide_eq_true_2 by by eexists.
        assert (is_Some (m !! k0)) as Hw.
        { rewrite <- Hm. unfold cached. rewrite Hk0.
          destruct (wf_lookup _ _ _ Hwf (wf_map_elem _ _ _ _ Hwf Hk0)) as [n ->].
          by eexists. }
        rewrite map_size_delete_Some by done.
        pose proof (map_size_ne_0_lookup_2 m k0 Hw). lia.
      * rewrite bool_decide_eq_false_2 by (by intros [? [=]]).
        assert (m !! k0 = None) as Hmk.
        { rewrite <- Hm. unfold cached. by rewrite Hk0. }
        by rewrite map_size_delete_None.
  - eexists _, []. rewrite clear_spec.
    split_and!; [done|apply wf_clear|done| |done].
    intros k. by rewrite lookup_empty.
  - exists c, ls. by rewrite (bind_done _ _ _ _ _ (toArray_chain _ _ Hwf)).
Qed.

Lemma run_calls_exact (ops : list call) c ls (m : gmap string V) :
  wf c ls ->
  (forall k, cached c k = m !! k) -> size c = Z.of_nat (base.size m) ->
  within (capacity c) ops m = true ->
  exists c' ls',
    run_calls ops c = Done (tt, c') /\ wf c' ls' /\
    (forall k, cached c' k = map_calls ops m !! k) /\
    size c' = Z.of_nat (base.size (map_calls ops m)).
Proof.
  revert c ls m. induction ops as [|op ops IH]; intros c ls m Hwf Hm Hsz Hin.
  - by exists c, ls.
  - simpl in Hin. apply andb_true_iff in Hin as [Hop%bool_decide_eq_true Hin].
    destruct (run_call_exact c ls op m Hwf Hm Hsz Hop)
      as (c1 & ls1 & Hrun & Hwf1 & Hcap1 & Hm1 & Hsz1).
    rewrite <- Hcap1 in Hin.
    destruct (IH c1 ls1 _ Hwf1 Hm1 Hsz1 Hin) as (c2 & ls2 & Hrun2 & ?).
    exists c2, ls2. simpl. by rewrite (bind_done _ _ _ _ _ Hrun).
Qed.

(** X3. As long as the calls never ask for more than [cap] entries at
    once, that is, a plain map fed the same calls never holds more than
    [cap] entries, the cache of capacity [cap] evicts nothing and agrees
    with that map: [get(k)] returns exactly what the map holds under [k],
    and [size] is the number of entries of the map. *)
Theorem exact_within_capacity (cap : Z) (ops : list call) :
  within cap ops ∅ = true ->
  exists c,
    after cap ops = Done c /\
    size c = Z.of_nat (base.size (map_calls ops ∅)) /\
    forall k, exists c', get k c = Done (map_calls ops ∅ !! k, c').
Proof.
  intros Hin.
  destruct (run_calls_exact ops _ [] ∅ (wf_constructor cap : wf (V:=V) _ []))
    as (c & ls & Hrun & Hwf & Hm & Hsz); [done|done|done|].
  exists c. unfold after, constructor. rewrite Hrun. split_and!; [done..|].
  intros k. destruct (get_cached c ls k Hwf) as (c' & Hget & _).
  exists c'. by rewrite Hget, Hm.
Qed.

(** X4. On a consistent cache [delete(k)] returns whether [k] was present;
    afterwards [get(k)] and [getNode(k)] find nothing, a second
    [delete(k)] returns false and changes nothing, and every other key
    still leads to the value it led to before. *)
Theorem lookup_after_delete c ls k :
  wf c ls ->
  exists c',
    delete k c = Done (bool_decide (is_Some (map c !! k)), c') /\
    get k c' = Done (None, c') /\
    getNode k c' = Done (None, c') /\
    delete k c' = Done (false, c') /\
    forall k', k' <> k -> cached c' k' = cached c k'.
Proof.
  intros Hwf.
  destruct (delete_cached c ls k Hwf)
    as (c' & ls' & Hdel & Hwf' & Hmap & Hgone & Hkeep & _).
  assert (Hk : map c' !! k = None) by (by rewrite Hmap, lookup_delete_eq).
  exists c'. split_and!; try done.
  - by apply get_miss.
  - unfold getNode, gets. by rewrite Hk.
  - by apply delete_absent.
Qed.

(** ** What every reachable cache satisfies *)

(** X5. After any sequence of calls on a new cache, [toArray] returns, and
    what it lists is what the index holds: every key is listed once, the
    number of pairs is [size], a pair is listed exactly if [get] of its
    key returns its value, and [getCache] returns the listed keys in the
    same order. *)
Theorem iteration_matches_index (cap : Z) (ops : list call) :
  exists c items,
    after cap ops = Done c /\
    toArray c = Done (items, c) /\
    getCache c = Done (items.*1, c) /\
    NoDup items.*1 /\
    size c = Z.of_nat (length items) /\
    (forall k, k ∈ items.*1 <-> is_Some (map c !! k)) /\
    (forall k v, (k, v) ∈ items <-> exists c', get k c = Done (Some v, c')).
Proof.
  destruct (after_wf cap ops) as (c & ls & Hafter & Hwf & _).
  pose proof (toArray_chain _ _ Hwf) as Harr.
  assert (Hkv : forall k v, (k, v) ∈ entries c ls <-> cached c k = Some v).
  { intros k v. by rewrite elem_of_entries, (cached_Some _ _ _ _ Hwf). }
  exists c, (entries c ls). split_and!; try done.
  - by rewrite getCache_toArray, Harr.
  - by apply entries_keys_NoDup.
  - rewrite length_entries, (wf_size _ _ Hwf); [done|].
    intros l Hl. destruct (wf_lookup _ _ _ Hwf Hl) as [n ->]. by eexists.
  - intros k. rewrite list_elem_of_fmap. split.
    + intros ([k' v] & -> & Hin). apply Hkv in Hin.
      destruct (map c !! k') eqn:E; [by eexists|].
      apply (cached_None _ _ _ Hwf) in E. simpl in *. congruence.
    + intros Hk. destruct (cached c k) as [v|] eqn:Hv.
      * exists (k, v). split; [done|]. by apply Hkv.
      * apply (cached_None _ _ _ Hwf) in Hv. rewrite Hv in Hk. by destruct Hk.
  - intros k v. rewrite Hkv.
    destruct (get_cached c ls k Hwf) as (c' & Hget & _). rewrite Hget. split.
    + intros ->. by exists c'.
    + intros (c'' & [= -> _]). done.
Qed.

(** X6. After any sequence of calls on a new cache: [capacity] is the one
    given to the constructor; [size] is not negative; [head] is null
    exactly if [size] is 0, and so is [tail]; the [head] node has no
    predecessor and the [tail] node no successor; and [hand] is null or
    refers to a node that the index holds under that node's key. *)
Theorem fields_consistent (cap : Z) (ops : list call) :
  exists c,
    after cap ops = Done c /\
    capacity c = cap /\ (0 <= size c)%Z /\
    (head c = None <-> size c = 0%Z) /\
    (tail c = None <-> size c = 0%Z) /\
    (forall l, head c = Some l ->
       exists n, nodes c !! l = Some n /\ prev n = None /\
                 map c !! key n = Some l) /\
    (forall l, tail c = Some l ->
       exists n, nodes c !! l = Some n /\ next n = None /\
                 map c !! key n = Some l) /\
    (forall l, hand c = Some l ->
       exists n, nodes c !! l = Some n /\ map c !! key n = Some l).
Proof.
  destruct (after_wf cap ops) as (c & ls & Hafter & Hwf & Hcap & _).
  assert (Hnode : forall l, l ∈ ls ->
    exists n, nodes c !! l = Some n /\ map c !! key n = Some l).
  { intros l Hl. destruct (wf_lookup _ _ _ Hwf Hl) as [n Hn].
    exists n. split; [done|]. by eapply wf_map_lookup. }
  exists c. split_and!; try done.
  - rewrite (wf_size _ _ Hwf). lia.
  - rewrite (wf_head _ _ Hwf), (wf_size _ _ Hwf). destruct ls; simpl; split; try done; lia.
  - rewrite (wf_tail _ _ Hwf), (wf_size _ _ Hwf), last_None.
    destruct ls; simpl; split; try done; lia.
  - intros l Hl. rewrite (wf_head _ _ Hwf) in Hl.
    destruct ls as [|l' ls']; [done|]. injection Hl as ->.
    destruct (Hnode l ltac:(set_solver)) as (n & Hn & Hk).
    exists n. split_and!; try done.
    destruct (wf_links _ _ Hwf) as [Hl _].
    apply links_Some in Hl as (n' & Hn' & Hp & _). congruence.
  - intros l Hl. rewrite (wf_tail _ _ Hwf) in Hl.
    apply last_Some in Hl as [ls' ->].
    destruct (Hnode l ltac:(set_solver)) as (n & Hn & Hk).
    exists n. split_and!; try done.
    pose proof (wf_links _ _ Hwf) as Hd. apply dlseg_app in Hd as (_ & Hl & _).
    apply links_Some in Hl as (n' & Hn' & _ & Hq). simpl in Hq. congruence.
  - intros l Hl. apply Hnode. by eapply wf_hand.
Qed.

(** ** Which node the scan evicts *)

Lemma NoDup_split_unique (xs ys xs' ys' : list loc) x :
  NoDup (xs ++ x :: ys) -> xs ++ x :: ys = xs' ++ x :: ys' ->
  xs = xs' /\ ys = ys'.
Proof.
  revert xs'. induction xs as [|a xs IH]; intros xs' Hnd Heq.
  - destruct xs' as [|a' xs']; simpl in *; [by simplify_eq|].
    injection Heq as <- ->. apply NoDup_cons in Hnd as [Hx _].
    exfalso. apply Hx. set_solver.
  - destruct xs' as [|a' xs']; simpl in *.
    + injection Heq as -> <-. apply NoDup_cons in Hnd as [Hx _].
      exfalso. apply Hx. set_solver.
    + injection Heq as <- Heq. apply NoDup_cons in Hnd as [_ Hnd].
      destruct (IH _ Hnd Heq) as [-> ->]. done.
Qed.

(** One descent of the scan from node [o] towards the head: it stops at
    the first unvisited node at or before [o], or it clears every node
    from [o] to the head and goes on from [tail]. *)
Lemma scan_descend xs c o ys fuel vic c1 :
  wf c (xs ++ o :: ys) ->
  scan fuel (Some o) c = Done (Some vic, c1) ->
  (exists pre post,
     xs ++ [o] = pre ++ vic :: post /\
     visited <$> nodes c !! vic = Some false /\
     forall l, l ∈ post -> visited <$> nodes c !! l = Some true) \/
  ((forall l, l ∈ xs ++ [o] -> visited <$> nodes c !! l = Some true) /\
   exists fuel' c' t,
     tail c = Some t /\ scan fuel' (Some t) c' = Done (Some vic, c1) /\
     wf c' (xs ++ o :: ys) /\
     (forall l, l ∈ xs ++ [o] -> visited <$> nodes c' !! l = Some false) /\
     (forall l, l ∉ xs ++ [o] -> nodes c' !! l = nodes c !! l)).
Proof.
  revert c o ys fuel. induction xs as [|a xs IH] using rev_ind;
    intros c o ys fuel Hwf Hs.
  - destruct fuel as [|fuel]; [done|].
    pose proof (wf_links _ _ Hwf) as [Hl _].
    apply links_Some in Hl as (n & Hn & Hp & _).
    destruct (scan_cases fuel c o) as [[_ E]|[(m & Hm & Hv & E)|(m & Hm & Hv & E)]];
      rewrite E in Hs; [done|..]; assert (m = n) as -> by congruence.
    + injection Hs as <- <-. left. exists [], []. split_and!; [done| |by intros ? ?%elem_of_nil].
      rewrite Hn; simpl; by rewrite Hv.
    + right. split.
      { intros l ->%list_elem_of_singleton. rewrite Hn; simpl; by rewrite Hv. }
      unfold next_cursor in Hs. rewrite Hp in Hs.
      destruct (tail c) as [t|] eqn:Ht; [|by rewrite scan_None in Hs].
      exists fuel, (pass o n c), t. split_and!; try done.
      * eapply wf_same_frame; [|done]. by apply pass_same_frame.
      * intros l ->%list_elem_of_singleton. cbn [pass nodes with_nodes].
        by rewrite list_lookup_insert_eq by by eapply lookup_lt_Some.
      * intros l Hl. cbn [pass nodes with_nodes].
        rewrite list_lookup_insert_ne; [done|]. set_solver.
  - destruct fuel as [|fuel]; [done|].
    assert (Hnd := wf_nodup _ _ Hwf).
    assert (Hoa : o ∉ xs ++ [a]).
    { apply NoDup_app in Hnd as (_ & Hd & _). intros Ho.
      apply (Hd o Ho). set_solver. }
    pose proof (wf_links _ _ Hwf) as Hd. apply dlseg_app in Hd as (_ & Hl & _).
    apply links_Some in Hl as (n & Hn & Hp & _).
    unfold last_or in Hp. rewrite last_snoc in Hp.
    destruct (scan_cases fuel c o) as [[_ E]|[(m & Hm & Hv & E)|(m & Hm & Hv & E)]];
      rewrite E in Hs; [done|..]; assert (m = n) as -> by congruence.
    + injection Hs as <- <-. left. exists (xs ++ [a]), [].
      split_and!; [done| |by intros ? ?%elem_of_nil]. rewrite Hn; simpl; by rewrite Hv.
    + unfold next_cursor in Hs. rewrite Hp in Hs.
      assert (Hwf' : wf (pass o n c) (xs ++ a :: o :: ys)).
      { rewrite <- app_assoc in Hwf. simpl in Hwf.
        eapply wf_same_frame; [|done]. by apply pass_same_frame. }
      assert (Hsame : forall l, l <> o -> nodes (pass o n c) !! l = nodes c !! l).
      { intros l Hl. cbn [pass nodes with_nodes]. by rewrite list_lookup_insert_ne. }
      destruct (IH _ _ _ _ Hwf' Hs)
        as [(pre & post & Heq & Hvic & Hpost)
           |(Hall & fuel' & c' & t & Ht & Hs' & Hwfc' & Hclr & Hoth)].
      * left. exists pre, (post ++ [o]). split_and!.
        -- rewrite Heq, <- app_assoc. done.
        -- rewrite <- Hsame; [done|]. intros ->. apply Hoa. rewrite Heq. set_solver.
        -- intros l [Hl| ->%list_elem_of_singleton]%elem_of_app.
           ++ rewrite <- Hsame; [by apply Hpost|]. intros ->. apply Hoa.
              rewrite Heq. set_solver.
           ++ rewrite Hn; simpl; by rewrite Hv.
      * right. split.
        { intros l [Hl| ->%list_elem_of_singleton]%elem_of_app.
          - rewrite <- Hsame; [by apply Hall|]. by intros ->.
          - rewrite Hn; simpl; by rewrite Hv. }
        exists fuel', c', t. split_and!; try done.
        -- by rewrite <- app_assoc.
        -- intros l [Hl| ->%list_elem_of_singleton]%elem_of_app; [by apply Hclr|].
           rewrite Hoth by done. cbn [pass nodes with_nodes].
           by rewrite list_lookup_insert_eq by by eapply lookup_lt_Some.
        -- intros l Hl. rewrite Hoth by set_solver. apply Hsame. set_solver.
Qed.

(** The node a scan stops at was unvisited when the scan began, unless
    every node of the chain was visited; then it is the node the scan
    began at. *)
Lemma scan_victim c ls start fuel vic c1 :
  wf c ls -> start ∈ ls ->
  scan fuel (Some start) c = Done (Some vic, c1) ->
  visited <$> nodes c !! vic = Some false \/
  (vic = start /\ forall l, l ∈ ls -> visited <$> nodes c !! l = Some true).
Proof.
  intros Hwf (xs & ys & ->)%list_elem_of_split Hs.
  assert (Hnd := wf_nodup _ _ Hwf).
  destruct (scan_descend _ _ _ _ _ _ _ Hwf Hs)
    as [(pre & post & _ & Hvic & _)
       |(Hall & fuel' & c' & t & Ht & Hs' & Hwf' & Hclr & Hoth)]; [by left|].
  rewrite (wf_tail _ _ Hwf) in Ht. apply last_Some in Ht as [xs2 Hls].
  rewrite Hls in Hwf'.
  destruct (scan_descend _ _ _ _ _ _ _ Hwf' Hs')
    as [(pre & post & Heq & Hvic & Hpost)|(Hall2 & _)].
  - rewrite <- Hls in Heq.
    destruct (decide (vic ∈ xs ++ [start])) as [Hin|Hnin].
    + right.
      assert (start ∉ post) as Hsp.
      { intros Hsp. specialize (Hpost _ Hsp).
        rewrite Hclr in Hpost by set_solver. done. }
      assert (vic = start) as ->.
      { apply elem_of_app in Hin as [Hin|Hin]; [|set_solver]. exfalso.
        apply list_elem_of_split in Hin as (x1 & x2 & ->).
        rewrite <- app_assoc in Heq, Hnd. simpl in Heq, Hnd.
        destruct (NoDup_split_unique _ _ _ _ _ Hnd Heq) as [_ <-].
        apply Hsp. set_solver. }
      split; [done|].
      destruct (NoDup_split_unique _ _ _ _ _ Hnd Heq) as [_ <-].
      intros l [Hl|Hl]%elem_of_app.
      * apply Hall. set_solver.
      * apply elem_of_cons in Hl as [->|Hl]; [apply Hall; set_solver|].
        rewrite <- Hoth; [by apply Hpost|].
        apply NoDup_app in Hnd as (_ & Hd & Hnd2). apply NoDup_cons in Hnd2 as [Hs2 _].
        intros [Hx| ->%list_elem_of_singleton]%elem_of_app; [|done].
        apply (Hd l Hx). set_solver.
    + left. by rewrite <- Hoth.
  - exfalso. rewrite <- Hls in Hall2.
    specialize (Hall2 start ltac:(set_solver)).
    rewrite Hclr in Hall2 by set_solver. done.
Qed.

Lemma evict_victim c ls :
  wf c ls -> ls <> [] ->
  exists c0 vic n start,
    _evict c = Done (tt, c0) /\ scan_start c = Some start /\
    vic ∈ ls /\ nodes c !! vic = Some n /\ map c !! key n = Some vic /\
    map c0 = base.delete (key n) (map c) /\
    (visited n = false \/
     (vic = start /\ forall l, l ∈ ls -> visited <$> nodes c !! l = Some true)).
Proof.
  intros Hwf Hne.
  destruct (evict_wf c ls Hwf Hne)
    as (start & c1 & vic & n & xs & ys & c0 & Hst & Hsteps & Hn & _ & Hls & _ & Hev
        & _ & Hvic & Hmap0 & _ & _ & _ & Hsf & _ & _).
  pose proof (sf_keys _ _ Hsf vic) as Hk. rewrite Hn in Hk.
  destruct (nodes c !! vic) as [n0|] eqn:Hn0; [|done].
  simpl in Hk. injection Hk as Hk.
  destruct (scan_start_elem c ls Hwf Hne) as (start' & Hst' & Hin).
  assert (start' = start) as -> by congruence.
  pose proof (scan_steps_sound _ _ _ _ (S (visited_count (nodes c))) Hsteps
                ltac:(lia)) as Hscan.
  exists c0, vic, n0, start. rewrite <- Hk. split_and!; try done.
  - rewrite Hls. set_solver.
  - destruct (scan_victim _ _ _ _ _ _ Hwf Hin Hscan) as [Hv|Hv]; [|by right].
    left. rewrite Hn0 in Hv. by injection Hv.
Qed.

Lemma set_new_victim c ls k v :
  wf c ls -> map c !! k = None -> size c = capacity c -> ls <> [] ->
  exists l c' vic n start,
    set k v c = Done (l, c') /\ scan_start c = Some start /\
    vic ∈ ls /\ nodes c !! vic = Some n /\ map c !! key n = Some vic /\
    key n <> k /\
    (visited n = false \/
     (vic = start /\ forall l, l ∈ ls -> visited <$> nodes c !! l = Some true)) /\
    cached c' k = Some v /\ cached c' (key n) = None /\
    forall k', k' <> k -> k' <> key n -> cached c' k' = cached c k'.
Proof.
  intros Hwf Hk Hsz Hne.
  destruct (evict_victim c ls Hwf Hne)
    as (c0 & vic & n & start & Hev & Hst & Hin & Hn & Hvic & Hmap0 & Hflag).
  destruct (set_cached c ls k v Hwf)
    as (l & c' & ls' & evicted & Hset & Hwf' & Hl & Hv & Hother & Hevd & _).
  assert (Hnk : key n <> k) by congruence.
  assert (Hgone : cached c' (key n) = None).
  { destruct (set_new_spec c ls k v Hwf Hk)
      as (c0' & ls0 & c'' & Hset' & _ & _ & _ & _ & _
          & [(_ & -> & [?|?])|(_ & Hev' & _)]); try done.
    assert (c0' = c0) as -> by congruence.
    assert (c'' = c') as -> by congruence.
    destruct (evict_cached c ls Hwf Hne)
      as (c0' & vic' & n' & xs & ys & Hev2 & -> & Hwf0 & _ & _ & Hm0 & _).
    assert (c0' = c0) as -> by congruence.
    assert (Hk0 : map c0 !! k = None).
    { rewrite Hmap0. apply lookup_delete_None. by right. }
    destruct (insert_new_spec c0 _ k v Hwf0 Hk0)
      as (c2 & Hins & _ & _ & _ & Hmap2 & _).
    rewrite (set_new_evict _ _ _ _ Hk Hsz Hev), Hins in Hset.
    injection Hset as <- <-.
    apply (cached_None _ _ _ Hwf').
    rewrite Hmap2, lookup_insert_ne by done.
    by rewrite Hmap0, lookup_delete_eq. }
  assert (Hwas : cached c (key n) = Some (value n)).
  { unfold cached. by rewrite Hvic, Hn. }
  assert (evicted = Some (key n)) as ->.
  { destruct (decide (evicted = Some (key n))) as [|Hd]; [done|].
    rewrite (Hother (key n)) in Hgone by done. congruence. }
  exists l, c', vic, n, start. split_and!; try done.
  intros k' H1 H2. apply Hother; congruence.
Qed.

(** X7.  When [set] stores a new key in a full cache, the entry it evicts
    is one whose [visited] flag was false; only when every entry was
    visited is a visited entry evicted, and then it is the one the scan
    started at, the hand or, without a hand, the tail. *)
Theorem set_evicts_unvisited c ls k v :
  wf c ls -> map c !! k = None -> size c = capacity c -> ls <> [] ->
  exists l c' vic n,
    set k v c = Done (l, c') /\
    nodes c !! vic = Some n /\ map c !! key n = Some vic /\
    cached c' (key n) = None /\
    (forall k', k' <> k -> k' <> key n -> cached c' k' = cached c k') /\
    (visited n = false \/
     (Some vic = match hand c with Some x => Some x | None => tail c end /\
      forall l', l' ∈ ls -> visited <$> nodes c !! l' = Some true)).
Proof.
  intros Hwf Hk Hsz Hne.
  destruct (set_new_victim c ls k v Hwf Hk Hsz Hne)
    as (l & c' & vic & n & start & Hset & Hst & _ & Hn & Hvic & _ & Hflag & _
        & Hgone & Hother).
  exists l, c', vic, n. split_and!; try done.
  destruct Hflag as [?|[-> Hall]]; [by left|right]. by split.
Qed.

(** X8.  Second chance: an entry that has just been read is still cached
    after the next [set] of a new key, whenever some other entry is
    unvisited. *)
Theorem read_entry_survives c ls k k' v w l2 n2 :
  wf c ls -> cached c k' = Some w -> map c !! k = None ->
  l2 ∈ ls -> nodes c !! l2 = Some n2 -> visited n2 = false -> key n2 <> k' ->
  exists c1 l c2 c3,
    get k' c = Done (Some w, c1) /\ set k v c1 = Done (l, c2) /\
    get k' c2 = Done (Some w, c3).
Proof.
  intros Hwf Hw Hk Hl2 Hn2 Hv2 Hk2.
  pose proof Hw as Hw'.
  apply (cached_Some _ _ _ _ Hwf) in Hw' as (l' & n' & Hl' & Hn' & Hkey & Hval).
  pose proof (wf_map_lookup _ _ _ _ Hwf Hl' Hn') as Hm'. rewrite Hkey in Hm'.
  set (c1 := with_nodes (<[l' := with_visited true n']> (nodes c)) c).
  assert (Hget : get k' c = Done (Some w, c1)).
  { rewrite (get_hit _ _ _ _ Hm' Hn'). by rewrite Hval. }
  assert (Hwf1 : wf c1 ls).
  { eapply wf_same_frame; [|done]. by apply (update_same_frame _ _ n'). }
  assert (Hc1 : cached c1 k' = Some w).
  { destruct (get_cached c ls k' Hwf) as (c1' & Hg & _ & _ & Hc & _).
    assert (c1' = c1) as -> by congruence. by rewrite Hc. }
  assert (Hne : l2 <> l') by congruence.
  assert (Hn21 : nodes c1 !! l2 = Some n2).
  { subst c1. cbn [nodes with_nodes]. by rewrite list_lookup_insert_ne. }
  assert (Hn'1 : nodes c1 !! l' = Some (with_visited true n')).
  { subst c1. cbn [nodes with_nodes].
    by rewrite list_lookup_insert_eq by by eapply lookup_lt_Some. }
  assert (Hk1 : map c1 !! k = None) by done.
  assert (exists l c2 ls2, set k v c1 = Done (l, c2) /\ wf c2 ls2 /\
            cached c2 k' = Some w) as (l & c2 & ls2 & Hset & Hwf2 & Hc2).
  { assert (k' <> k) by congruence.
    destruct (decide (size c1 = capacity c1)) as [Hfull|Hroom].
    - assert (ls <> []) as Hnil by (intros ->; by apply elem_of_nil in Hl2).
      destruct (set_new_victim c1 ls k v Hwf1 Hk1 Hfull Hnil)
        as (l & c2 & vic & n & start & Hset & _ & Hin & Hn & Hvic & _ & Hflag
            & _ & _ & Hother).
      destruct (set_cached c1 ls k v Hwf1)
        as (l0 & c20 & ls2 & _ & Hset0 & Hwf2 & _).
      assert (c20 = c2) as -> by congruence.
      exists l, c2, ls2. split_and!; try done.
      rewrite Hother; [done|done|]. intros ->.
      assert (vic = l') as -> by (change (map c1) with (map c) in Hvic; congruence).
      destruct Hflag as [Hf|[_ Hall]].
      + rewrite Hn'1 in Hn. injection Hn as <-. done.
      + specialize (Hall _ Hl2). rewrite Hn21 in Hall. simpl in Hall. congruence.
    - destruct (set_cached c1 ls k v Hwf1)
        as (l & c2 & ls2 & evicted & Hset & Hwf2 & _ & _ & Hother & Hevd & _).
      exists l, c2, ls2. split_and!; try done.
      rewrite Hother; [done|done|]. intros <-.
      by destruct (Hevd k' eq_refl) as (_ & _ & _ & _ & ?). }
  destruct (get_cached c2 ls2 k' Hwf2) as (c3 & Hg3 & _).
  exists c1, l, c2, c3. by rewrite Hg3, Hc2.
Qed.

(** ** Insertions without reads *)

Lemma NoDup_last_split (xs ys : list loc) x :
  NoDup (xs ++ x :: ys) -> last (xs ++ x :: ys) = Some x -> ys = [].
Proof.
  intros Hnd Hl. destruct ys as [|y ys _] using rev_ind; [done|].
  rewrite app_comm_cons, app_assoc, last_snoc in Hl. injection Hl as ->.
  apply NoDup_app in Hnd as (_ & _ & Hnd). apply NoDup_cons in Hnd as [Hx _].
  exfalso. apply Hx. set_solver.
Qed.

Lemma take_app_take {A} (n : nat) (xs ys : list A) :
  take n (xs ++ take n ys) = take n (xs ++ ys).
Proof.
  rewrite !take_app, take_take. f_equal. f_equal. lia.
Qed.

(** One [set] of a new key in a cache where no flag is set and the hand,
    if any, is the tail: the new pair goes in front and, if the cache was
    full, the last pair goes. *)
Lemma set_unread c ls k v :
  wf c ls -> (1 <= capacity c)%Z -> (size c <= capacity c)%Z ->
  (forall l, l ∈ ls -> visited <$> nodes c !! l = Some false) ->
  (hand c = None \/ hand c = tail c) ->
  map c !! k = None ->
  exists l c' ls',
    set k v c = Done (l, c') /\ wf c' ls' /\ capacity c' = capacity c /\
    (size c' <= capacity c')%Z /\
    (forall l, l ∈ ls' -> visited <$> nodes c' !! l = Some false) /\
    (hand c' = None \/ hand c' = tail c') /\
    (forall k', k' <> k -> map c !! k' = None -> map c' !! k' = None) /\
    entries c' ls' = take (Z.to_nat (capacity c)) ((k, v) :: entries c ls).
Proof.
  intros Hwf Hcap Hsz Hfl Hhand Hk.
  assert (Hlen : length (entries c ls) = length ls).
  { apply length_entries. intros l Hl. by apply (wf_lookup _ _ _ Hwf). }
  assert (Hins : forall c0 xs,
    wf c0 xs -> map c0 !! k = None ->
    (forall l, l ∈ xs -> visited <$> nodes c0 !! l = Some false) ->
    (hand c0 = None \/ hand c0 = tail c0) ->
    exists c', insert_new k v c0 = Done (length (nodes c0), c') /\
      wf c' (length (nodes c0) :: xs) /\ capacity c' = capacity c0 /\
      size c' = (size c0 + 1)%Z /\
      (forall l, l ∈ length (nodes c0) :: xs ->
         visited <$> nodes c' !! l = Some false) /\
      (hand c' = None \/ hand c' = tail c') /\
      map c' = <[k := length (nodes c0)]> (map c0) /\
      entries c' (length (nodes c0) :: xs) = (k, v) :: entries c0 xs).
  { intros c0 xs Hwf0 Hk0 Hfl0 Hh0.
    destruct (insert_new_spec c0 xs k v Hwf0 Hk0)
      as (c' & Hi & Hwf' & Hnew & Hold & Hmap' & Hsz' & Hcap' & Hhand').
    exists c'. split_and!; try done.
    - intros l [->|Hl]%elem_of_cons; [by rewrite Hnew|].
      destruct (wf_lookup _ _ _ Hwf0 Hl) as [n Hn].
      specialize (Hold _ _ Hn). specialize (Hfl0 _ Hl).
      unfold data in Hold. rewrite Hn in Hold, Hfl0.
      destruct (nodes c' !! l); simpl in *; congruence.
    - rewrite Hhand', (wf_tail _ _ Hwf'). rewrite (wf_tail _ _ Hwf0) in Hh0.
      destruct Hh0 as [?|Hh0]; [by left|]. destruct xs as [|x xs]; [by left|].
      right. by rewrite Hh0.
    - rewrite entries_cons, Hnew. simpl. f_equal. apply entries_ext.
      intros l Hl. destruct (wf_lookup _ _ _ Hwf0 Hl) as [n Hn]. by eapply Hold. }
  destruct (decide (size c = capacity c)) as [Hfull|Hroom].
  - assert (Hne : ls <> []).
    { intros ->. pose proof (wf_size _ _ Hwf) as E. simpl in E. lia. }
    destruct (evict_wf c ls Hwf Hne)
      as (start & c1 & vic & n & xs & ys & c0 & Hst & Hsteps & Hn & _ & Hls & _
          & Hev & Hwf0 & Hvic & Hmap0 & Hsz0 & Hcap0 & Hhand0 & Hsf & Hfc & Hsd).
    assert (Hstart : Some start = last ls).
    { rewrite <- Hst, <- (wf_tail _ _ Hwf). unfold scan_start.
      destruct Hhand as [->|Hh]; [done|]. rewrite Hh. by destruct (tail c). }
    assert (Hin : start ∈ ls).
    { symmetry in Hstart. apply last_Some in Hstart as [? ->]. set_solver. }
    destruct (wf_lookup _ _ _ Hwf Hin) as [ns Hns].
    assert (Hvs : visited ns = false).
    { specialize (Hfl _ Hin). rewrite Hns in Hfl. by injection Hfl. }
    destruct (scan_steps_det _ _ _ _ _ _ Hsteps (scan_steps_stop c start ns Hns Hvs))
      as [-> ->].
    assert (ns = n) as -> by congruence.
    assert (ys = []) as ->.
    { subst ls. eapply NoDup_last_split; [apply (wf_nodup _ _ Hwf)|done]. }
    rewrite app_nil_r in Hwf0.
    assert (Hdata : forall l, l ∈ xs -> data (nodes c0) l = data (nodes c) l).
    { intros l _. apply Hsd. }
    assert (Hk0 : map c0 !! k = None).
    { rewrite Hmap0. apply lookup_delete_None. by right. }
    destruct (Hins c0 xs Hwf0 Hk0)
      as (c' & Hi & Hwf' & Hcap' & Hsz' & Hfl' & Hh' & Hmap' & Hent').
    + intros l Hl. specialize (Hfl l ltac:(subst ls; set_solver)).
      specialize (Hdata l Hl). unfold data in Hdata.
      destruct (nodes c0 !! l), (nodes c !! l); simpl in *; congruence.
    + right. rewrite Hhand0, (wf_tail _ _ Hwf0).
      subst ls. pose proof (wf_links _ _ Hwf) as Hd.
      apply dlseg_app in Hd as (_ & Hl & _).
      apply links_Some in Hl as (n' & Hn' & Hp & _).
      assert (n' = n) as -> by congruence.
      rewrite Hp. unfold last_or. by destruct (last xs).
    + eexists _, c', _. rewrite (set_new_evict _ _ _ _ Hk Hfull Hev), Hi.
      split_and!; try done.
      * congruence.
      * lia.
      * intros k' Hk' Hnone. rewrite Hmap', lookup_insert_ne by done.
        rewrite Hmap0. apply lookup_delete_None. by right.
      * rewrite Hent', (entries_ext _ _ _ Hdata). subst ls.
        assert (length (entries c xs) = length xs) as Hlx.
        { apply length_entries. intros l Hl. apply (wf_lookup _ _ _ Hwf). set_solver. }
        pose proof (wf_size _ _ Hwf) as E. rewrite length_app in E. simpl in E.
        replace (Z.to_nat (capacity c)) with (S (length xs)) by lia.
        simpl. f_equal. unfold entries at 2. rewrite omap_app.
        fold (entries c xs). rewrite take_app_length'; done.
  - destruct (Hins c ls Hwf Hk Hfl Hhand)
      as (c' & Hi & Hwf' & Hcap' & Hsz' & Hfl' & Hh' & Hmap' & Hent').
    eexists _, c', _.
    rewrite (set_new_no_evict _ _ _ _ Hwf Hk (or_introl Hroom)), Hi.
    split_and!; try done.
    + lia.
    + intros k' Hk' Hnone. by rewrite Hmap', lookup_insert_ne.
    + rewrite Hent'. symmetry. apply take_ge. simpl.
      pose proof (wf_size _ _ Hwf). lia.
Qed.

Lemma set_calls_unread (kvs : list (string * V)) c ls :
  wf c ls -> (1 <= capacity c)%Z -> (size c <= capacity c)%Z ->
  (forall l, l ∈ ls -> visited <$> nodes c !! l = Some false) ->
  (hand c = None \/ hand c = tail c) ->
  NoDup kvs.*1 -> (forall k, k ∈ kvs.*1 -> map c !! k = None) ->
  exists c' ls',
    run_calls (set_calls kvs) c = Done (tt, c') /\ wf c' ls' /\
    entries c' ls' =
      take (Z.to_nat (capacity c)) (reverse kvs ++ entries c ls).
Proof.
  revert c ls. induction kvs as [|[k v] kvs IH];
    intros c ls Hwf Hcap Hsz Hfl Hhand Hnd Hfresh.
  - exists c, ls. split_and!; [done..|]. simpl. symmetry. apply take_ge.
    rewrite length_entries by (intros l Hl; by apply (wf_lookup _ _ _ Hwf)).
    pose proof (wf_size _ _ Hwf). lia.
  - simpl in Hnd. apply NoDup_cons in Hnd as [Hk Hnd].
    destruct (set_unread c ls k v Hwf Hcap Hsz Hfl Hhand)
      as (l & c1 & ls1 & Hset & Hwf1 & Hcap1 & Hsz1 & Hfl1 & Hh1 & Hm1 & Hent1).
    { apply Hfresh. set_solver. }
    destruct (IH c1 ls1 Hwf1) as (c2 & ls2 & Hrun & Hwf2 & Hent2); try done.
    + by rewrite Hcap1.
    + intros k' Hk'. apply Hm1; [by intros ->|]. apply Hfresh. set_solver.
    + exists c2, ls2. split_and!; [|done|].
      * simpl. unfold run_call.
        rewrite bind_assoc, (bind_done _ _ _ _ _ Hset). done.
      * rewrite Hent2, Hent1, Hcap1, take_app_take, reverse_cons, <- app_assoc.
        done.
Qed.

(** X9.  Without reads the cache is a FIFO queue: after [set] calls with
    pairwise distinct keys on a new cache of capacity at least 1,
    [toArray] returns the last [capacity] pairs set, newest first. *)
Theorem sets_only_fifo (cap : Z) (kvs : list (string * V)) :
  (1 <= cap)%Z -> NoDup kvs.*1 ->
  exists c,
    after cap (set_calls kvs) = Done c /\
    toArray c = Done (take (Z.to_nat cap) (reverse kvs), c).
Proof.
  intros Hcap Hnd.
  destruct (set_calls_unread kvs _ [] (wf_constructor cap : wf (V:=V) _ []))
    as (c & ls & Hrun & Hwf & Hent); try done.
  - simpl. lia.
  - by intros l ?%elem_of_nil.
  - by left.
  - exists c. unfold after, constructor. rewrite Hrun. split; [done|].
    rewrite (toArray_chain _ _ Hwf), Hent. simpl. by rewrite app_nil_r.
Qed.

(** ** Reads, insertions and the iteration order *)

Lemma insert_new_entries c ls k v :
  wf c ls -> map c !! k = None ->
  exists c',
    insert_new k v c = Done (length (nodes c), c') /\
    wf c' (length (nodes c) :: ls) /\
    entries c' (length (nodes c) :: ls) = (k, v) :: entries c ls.
Proof.
  intros Hwf Hk.
  destruct (insert_new_spec c ls k v Hwf Hk)
    as (c' & Hi & Hwf' & Hnew & Hold & _).
  exists c'. split_and!; try done.
  rewrite entries_cons, Hnew. simpl. f_equal. apply entries_ext.
  intros l Hl. destruct (wf_lookup _ _ _ Hwf Hl) as [n Hn]. by eapply Hold.
Qed.

Lemma entries_app c xs ys : entries c (xs ++ ys) = entries c xs ++ entries c ys.
Proof. unfold entries. apply omap_app. Qed.

Lemma set_new_entries c ls k v :
  wf c ls -> map c !! k = None ->
  exists l c' ls',
    set k v c = Done (l, c') /\ wf c' ls' /\
    (((size c <> capacity c \/ ls = []) /\
      entries c' ls' = (k, v) :: entries c ls) \/
     (size c = capacity c /\
      exists xs vic n ys,
        ls = xs ++ vic :: ys /\ nodes c !! vic = Some n /\
        entries c' ls' = (k, v) :: entries c xs ++ entries c ys)).
Proof.
  intros Hwf Hk.
  destruct (decide (size c = capacity c /\ ls <> [])) as [[Hsz Hne]|Hno].
  - destruct (evict_wf c ls Hwf Hne)
      as (start & c1 & vic & n & xs & ys & c0 & _ & _ & Hn & _ & Hls & _
          & Hev & Hwf0 & Hvic & Hmap0 & _ & _ & _ & Hsf & Hfc & Hsd).
    assert (Hk0 : map c0 !! k = None).
    { rewrite Hmap0. apply lookup_delete_None. by right. }
    destruct (insert_new_entries c0 _ k v Hwf0 Hk0) as (c' & Hi & Hwf' & Hent).
    assert (Hin : vic ∈ ls) by (rewrite Hls; set_solver).
    destruct (wf_lookup _ _ _ Hwf Hin) as [n0 Hn0].
    eexists _, c', _. rewrite (set_new_evict _ _ _ _ Hk Hsz Hev), Hi.
    split_and!; try done. right. split; [done|].
    exists xs, vic, n0, ys. split_and!; try done.
    rewrite Hent, <- entries_app. f_equal. apply entries_ext_kv. intros l _. split.
    + transitivity (key <$> nodes c1 !! l); [|apply (sf_keys _ _ Hsf)].
      specialize (Hsd l). unfold data in Hsd.
      destruct (nodes c0 !! l), (nodes c1 !! l); simpl in *; congruence.
    + rewrite (data_value _ _ _ (Hsd l)). by apply flags_cleared_value.
  - assert (size c <> capacity c \/ ls = []) as Hcase.
    { destruct (decide (size c = capacity c)); [|by left].
      destruct ls; [by right|]. exfalso. by apply Hno. }
    destruct (insert_new_entries c ls k v Hwf Hk) as (c' & Hi & Hwf' & Hent).
    eexists _, c', _. rewrite (set_new_no_evict _ _ _ _ Hwf Hk Hcase), Hi.
    split_and!; try done. by left.
Qed.

(** X10.  A new key goes to the front of the iteration order.  With room
    left nothing else changes; in a full cache exactly one pair leaves and
    the others keep their order. *)
Theorem set_new_order c ls k v :
  wf c ls -> map c !! k = None ->
  exists l c' items,
    set k v c = Done (l, c') /\ toArray c = Done (items, c) /\
    ((size c <> capacity c \/ items = []) /\
     toArray c' = Done ((k, v) :: items, c') \/
     size c = capacity c /\
     exists front gone back,
       items = front ++ gone :: back /\
       toArray c' = Done ((k, v) :: front ++ back, c')).
Proof.
  intros Hwf Hk.
  destruct (set_new_entries c ls k v Hwf Hk)
    as (l & c' & ls' & Hset & Hwf' & Hcase).
  exists l, c', (entries c ls). rewrite (toArray_chain _ _ Hwf').
  split_and!; [done|by apply toArray_chain|].
  destruct Hcase as [[Hroom ->]|(Hsz & xs & vic & n & ys & -> & Hn & ->)].
  - left. split; [|done]. destruct Hroom as [?| ->]; [by left|by right].
  - right. split; [done|].
    exists (entries c xs), (key n, value n), (entries c ys). split; [|done].
    by rewrite entries_app, entries_cons, Hn.
Qed.

(** X11.  Reading does not reorder: after [get], hit or miss, iteration
    yields the pairs it yielded before, and [getNode] changes nothing at
    all. *)
Theorem reads_keep_order c ls k :
  wf c ls ->
  exists r c' items,
    get k c = Done (r, c') /\ getNode k c = Done (map c !! k, c) /\
    toArray c = Done (items, c) /\ toArray c' = Done (items, c') /\
    getCache c' = Done (items.*1, c').
Proof.
  intros Hwf.
  destruct (get_cached c ls k Hwf) as (c' & Hget & Hwf' & _ & _ & Hent).
  exists (cached c k), c', (entries c ls). split_and!; try done.
  - by apply toArray_chain.
  - rewrite <- Hent. by apply toArray_chain.
  - rewrite getCache_toArray, (toArray_chain _ _ Hwf'). by rewrite Hent.
Qed.

(** X12.  [getNode] returns the node that holds the key and the value
    [get] returns, or null when [get] misses.  Unlike [get] it leaves the
    node's [visited] flag as it is; [get] sets it. *)
Theorem getNode_agrees_with_get c ls k :
  wf c ls ->
  exists r c',
    getNode k c = Done (r, c) /\ get k c = Done (cached c k, c') /\
    match r with
    | None => cached c k = None /\ c' = c
    | Some l =>
      exists n, nodes c !! l = Some n /\ key n = k /\
        cached c k = Some (value n) /\
        nodes c' !! l = Some (with_visited true n)
    end.
Proof.
  intros Hwf. exists (map c !! k).
  destruct (map c !! k) as [l|] eqn:Hk.
  - destruct (wf_lookup _ _ _ Hwf (wf_map_elem _ _ _ _ Hwf Hk)) as [n Hn].
    eexists. rewrite (get_hit _ _ _ _ Hk Hn). unfold getNode, gets. rewrite Hk.
    unfold cached. rewrite Hk, Hn. split_and!; try done.
    exists n. split_and!; try done.
    + by eapply wf_map_key.
    + cbn [nodes with_nodes].
      by rewrite list_lookup_insert_eq by by eapply lookup_lt_Some.
  - exists c. rewrite (get_miss _ _ Hk). unfold getNode, gets, cached.
    by rewrite Hk.
Qed.

(** X13.  [clear] turns any cache object, consistent or not, into an
    empty one that keeps its capacity and from then on behaves as a new
    cache: every key misses, and later insertions of distinct keys are
    kept newest first, up to the capacity. *)
Theorem clear_resets c (kvs : list (string * V)) :
  (1 <= capacity c)%Z -> NoDup kvs.*1 ->
  exists c' c'',
    clear c = Done (tt, c') /\ size c' = 0%Z /\ capacity c' = capacity c /\
    toArray c' = Done ([], c') /\
    (forall k, get k c' = Done (None, c') /\ delete k c' = Done (false, c')) /\
    clear c' = Done (tt, c') /\
    run_calls (set_calls kvs) c' = Done (tt, c'') /\
    toArray c'' = Done (take (Z.to_nat (capacity c)) (reverse kvs), c'').
Proof.
  intros Hcap Hnd. pose proof (wf_clear c) as Hwf.
  set (c' := mkCache (nodes c) None None None 0 (capacity c) ∅) in *.
  destruct (set_calls_unread kvs c' [] Hwf) as (c'' & ls & Hrun & Hwf'' & Hent);
    try done.
  { simpl. lia. }
  { by intros l ?%elem_of_nil. }
  { by left. }
  exists c', c''. split_and!; try done.
  rewrite (toArray_chain _ _ Hwf''), Hent. simpl. by rewrite app_nil_r.
Qed.

(** ** The cost of the eviction scan *)

Lemma count_flagged_app h xs ys :
  count_flagged h (xs ++ ys) = (count_flagged h xs + count_flagged h ys)%nat.
Proof. unfold count_flagged. by rewrite filter_app, length_app. Qed.

Lemma count_flagged_ext h h' ls :
  (forall l, l ∈ ls -> visited <$> h' !! l = visited <$> h !! l) ->
  count_flagged h' ls = count_flagged h ls.
Proof.
  induction ls as [|a ls IH]; intros Hext; [done|].
  rewrite !count_flagged_cons, (Hext a) by set_solver.
  rewrite IH; [done|]. intros l Hl. apply Hext. set_solver.
Qed.

Lemma count_flagged_mono h h' ls :
  (forall l, l ∈ ls -> visited <$> h' !! l = Some true ->
     visited <$> h !! l = Some true) ->
  (count_flagged h' ls <= count_flagged h ls)%nat.
Proof.
  induction ls as [|a ls IH]; intros Hext; [done|].
  rewrite !count_flagged_cons.
  assert (count_flagged h' ls <= count_flagged h ls)%nat.
  { apply IH. intros l Hl. apply Hext. set_solver. }
  specialize (Hext a ltac:(set_solver)).
  repeat case_decide; try lia. tauto.
Qed.

Lemma count_flagged_insert h ls o n :
  NoDup ls -> (count_flagged (<[o := n]> h) ls <= S (count_flagged h ls))%nat.
Proof.
  intros Hnd. destruct (decide (o ∈ ls)) as [Hin|Hnin].
  - apply list_elem_of_split in Hin as (xs & ys & ->).
    apply NoDup_app in Hnd as (_ & Hd & Hnd). apply NoDup_cons in Hnd as [Hy _].
    rewrite !count_flagged_app, !count_flagged_cons.
    rewrite !count_flagged_insert_notin; [|done|].
    + repeat case_decide; lia.
    + intros Hx. apply (Hd o Hx). set_solver.
  - rewrite count_flagged_insert_notin by done. lia.
Qed.

(** Every pass of the scan clears one flag of the chain. *)
Lemma scan_passed_count c ls o fuel vic c1 :
  wf c ls -> o ∈ ls -> scan fuel (Some o) c = Done (Some vic, c1) ->
  (count_flagged (nodes c1) ls + length (scan_passed fuel (Some o) c))%nat
  = count_flagged (nodes c) ls.
Proof.
  revert c o. induction fuel as [|fuel IH]; intros c o Hwf Ho Hs; [done|].
  destruct (wf_lookup _ _ _ Hwf Ho) as [n Hn].
  simpl scan_passed. rewrite Hn.
  destruct (visited n) eqn:Hv.
  - rewrite (scan_pass _ _ _ _ Hn Hv) in Hs.
    assert (Hwf' : wf (pass o n c) ls).
    { eapply wf_same_frame; [|done]. by apply pass_same_frame. }
    assert (exists o', next_cursor n c = Some o' /\ o' ∈ ls) as (o' & E & Ho').
    { unfold next_cursor.
      pose proof (dlseg_prev _ _ _ _ _ (wf_links _ _ Hwf) Ho Hn) as Hp.
      destruct (prev n) as [p|]; [eauto|].
      rewrite (wf_tail _ _ Hwf). destruct (last ls) as [t|] eqn:E.
      - exists t. split; [done|]. apply last_Some in E as [? ->]. set_solver.
      - apply last_None in E as ->. by apply elem_of_nil in Ho. }
    rewrite E in Hs |- *. specialize (IH _ _ Hwf' Ho' Hs).
    rewrite (count_flagged_pass _ _ _ _ (wf_nodup _ _ Hwf) Ho Hn Hv).
    simpl. cbn [pass nodes with_nodes] in IH. lia.
  - rewrite (scan_stop _ _ _ _ Hn Hv) in Hs. injection Hs as _ <-. simpl. lia.
Qed.

Lemma insert_new_count c ls k v :
  wf c ls -> map c !! k = None ->
  exists c',
    insert_new k v c = Done (length (nodes c), c') /\
    wf c' (length (nodes c) :: ls) /\
    count_flagged (nodes c') (length (nodes c) :: ls)
    = count_flagged (nodes c) ls.
Proof.
  intros Hwf Hk.
  destruct (insert_new_spec c ls k v Hwf Hk)
    as (c' & Hi & Hwf' & Hnew & Hold & _).
  exists c'. split_and!; try done.
  rewrite count_flagged_cons, Hnew. simpl. apply count_flagged_ext. intros l Hl.
  destruct (wf_lookup _ _ _ Hwf Hl) as [n Hn]. specialize (Hold _ _ Hn).
  unfold data in Hold. destruct (nodes c' !! l), (nodes c !! l); simpl in *;
    congruence.
Qed.

(** One call: the flags set on the chain afterwards, plus the passes of
    the scan, are at most the flags set before, plus one if the call is a
    [get] or a [set]. *)
Lemma run_call_passes c ls (op : call) :
  wf c ls ->
  exists c' ls',
    run_call op c = Done (tt, c') /\ wf c' ls' /\
    (count_flagged (nodes c') ls' + passes op c
     <= count_flagged (nodes c) ls + (if touches op then 1 else 0))%nat.
Proof.
  intros Hwf. destruct op as [k v|k|k|k| |]; cbn [run_call touches passes].
  - destruct (map c !! k) as [l|] eqn:Hk.
    + destruct (wf_lookup _ _ _ Hwf (wf_map_elem _ _ _ _ Hwf Hk)) as [n Hn].
      eexists _, ls. rewrite (bind_done _ _ _ _ _ (set_present _ _ v _ _ Hk Hn)).
      split_and!; [done| |].
      * eapply wf_same_frame; [|done]. by apply (update_same_frame _ _ n).
      * cbn [nodes with_nodes].
        pose proof (count_flagged_insert (nodes c) ls l
          (mkNode (key n) v (prev n) (next n) true) (wf_nodup _ _ Hwf)). lia.
    + destruct (decide (size c = capacity c /\ ls <> [])) as [[Hsz Hne]|Hno].
      * destruct (evict_wf c ls Hwf Hne)
          as (start & c1 & vic & n & xs & ys & c0 & Hst & Hsteps & Hn & Hv & Hls
              & _ & Hev & Hwf0 & Hvic & Hmap0 & _ & _ & _ & Hsf & _ & Hsd).
        assert (Hk0 : map c0 !! k = None).
        { rewrite Hmap0. apply lookup_delete_None. by right. }
        destruct (insert_new_count c0 _ k v Hwf0 Hk0) as (c' & Hi & Hwf' & Hcnt).
        destruct (scan_start_elem c ls Hwf Hne) as (start' & Hst' & Hin).
        assert (start' = start) as -> by congruence.
        pose proof (scan_steps_sound _ _ _ _ (S (visited_count (nodes c))) Hsteps
                      ltac:(lia)) as Hscan.
        pose proof (scan_passed_count _ _ _ _ _ _ Hwf Hin Hscan) as Hpass.
        rewrite <- (set_new_evict _ _ _ _ Hk Hsz Hev) in Hi.
        eexists c', _.
        rewrite (bind_done _ _ _ _ _ Hi). split_and!; [done..|].
        rewrite bool_decide_eq_true_2 by done. rewrite Hst, Hcnt.
        assert (count_flagged (nodes c0) (xs ++ ys)
                = count_flagged (nodes c1) ls) as ->; [|lia].
        rewrite Hls, !count_flagged_app, count_flagged_cons, Hn. simpl.
        rewrite Hv, decide_False by done. simpl.
        f_equal; apply count_flagged_ext; intros l _; specialize (Hsd l);
          unfold data in Hsd;
          destruct (nodes c0 !! l), (nodes c1 !! l); simpl in *; congruence.
      * assert (size c <> capacity c \/ ls = []) as Hcase.
        { destruct (decide (size c = capacity c)); [|by left].
          destruct ls; [by right|]. exfalso. by apply Hno. }
        destruct (insert_new_count c ls k v Hwf Hk) as (c' & Hi & Hwf' & Hcnt).
        rewrite <- (set_new_no_evict _ _ _ _ Hwf Hk Hcase) in Hi.
        eexists c', _.
        rewrite (bind_done _ _ _ _ _ Hi). split_and!; [done..|].
        rewrite Hcnt. case_bool_decide as Hsz; [|lia].
        destruct Hcase as [?| ->]; [done|].
        unfold scan_start. rewrite (wf_tail _ _ Hwf). simpl.
        destruct (hand c) as [x|] eqn:Hh; [|simpl; lia].
        by apply (wf_hand _ _ Hwf), elem_of_nil in Hh.
  - destruct (map c !! k) as [l|] eqn:Hk.
    + destruct (wf_lookup _ _ _ Hwf (wf_map_elem _ _ _ _ Hwf Hk)) as [n Hn].
      eexists _, ls. rewrite (bind_done _ _ _ _ _ (get_hit _ _ _ _ Hk Hn)).
      split_and!; [done| |].
      * eapply wf_same_frame; [|done]. by apply (update_same_frame _ _ n).
      * cbn [nodes with_nodes].
        pose proof (count_flagged_insert (nodes c) ls l
          (with_visited true n) (wf_nodup _ _ Hwf)). lia.
    + exists c, ls. rewrite (bind_done _ _ _ _ _ (get_miss _ _ Hk)).
      split_and!; [done..|lia].
  - exists c, ls. split_and!; [done..|lia].
  - destruct (map c !! k) as [x|] eqn:Hk.
    + destruct (wf_lookup _ _ _ Hwf (wf_map_elem _ _ _ _ Hwf Hk)) as [nx Hnx].
      destruct (delete_spec c ls k x nx Hwf Hk Hnx)
        as (xs & ys & c' & -> & Hdel & Hwf' & Hsd & _).
      exists c', (xs ++ ys). rewrite (bind_done _ _ _ _ _ Hdel).
      split_and!; [done..|].
      rewrite !count_flagged_app, count_flagged_cons.
      assert (forall zs, count_flagged (nodes c') zs = count_flagged (nodes c) zs)
        as Hz.
      { intros zs. apply count_flagged_ext. intros l _. specialize (Hsd l).
        unfold data in Hsd.
        destruct (nodes c' !! l), (nodes c !! l); simpl in *; congruence. }
      rewrite !Hz. lia.
    + exists c, ls. rewrite (bind_done _ _ _ _ _ (delete_absent _ _ Hk)).
      split_and!; [done..|lia].
  - eexists _, []. rewrite clear_spec. split_and!; [done|apply wf_clear|].
    simpl. lia.
  - destruct (toArray c) as [[items c']| |] eqn:Harr.
    + pose proof (toArray_unchanged _ _ _ Harr) as <-.
      exists c, ls. rewrite (bind_done _ _ _ _ _ Harr). split_and!; [done..|lia].
    + by rewrite (toArray_chain _ _ Hwf) in Harr.
    + by rewrite (toArray_chain _ _ Hwf) in Harr.
Qed.

Lemma run_calls_passes (ops : list call) c ls :
  wf c ls ->
  (total_passes ops c
   <= count_flagged (nodes c) ls + length (filter (fun op => touches op = true) ops))%nat.
Proof.
  revert c ls. induction ops as [|op ops IH]; intros c ls Hwf; simpl; [lia|].
  destruct (run_call_passes c ls op Hwf) as (c' & ls' & Hrun & Hwf' & Hle).
  rewrite Hrun. specialize (IH c' ls' Hwf').
  rewrite filter_cons. destruct (touches op); simpl in *; lia.
Qed.

(** X14.  The eviction scan costs constant amortised time: over any
    sequence of calls on a new cache, the loop body of the scan runs at
    most as many times in total as there are [get] and [set] calls in the
    sequence. *)
Theorem scan_amortised (cap : Z) (ops : list call) :
  exists c,
    constructor cap = Done c /\
    (total_passes ops c
     <= length (filter (fun op => touches op = true) ops))%nat.
Proof.
  eexists. split; [reflexivity|].
  pose proof (run_calls_passes ops _ []
                (wf_constructor cap : wf (V:=V) _ [])) as H.
  simpl in H. exact H.
Qed.

End Proofs.

(** * Concrete runs *)

Lemma full_cache_reached :
  after 2 [CSet "a" 1%Z; CSet "b" 2%Z; CGet "a"] = Done full_cache.
Proof. vm_compute. reflexivity. Qed.

Lemma full_cache_wf : wf full_cache [1; 0]%nat.
Proof. apply wf_check_sound. vm_compute. reflexivity. Qed.

Lemma full_cache_set :
  run_call (CSet "c" 3%Z) full_cache = Done (tt, full_cache_after_set).
Proof. vm_compute. reflexivity. Qed.

Lemma single_cache_reached :
  after 1 [CSet "a" 1%Z; CGet "a"] = Done single_cache.
Proof. vm_compute. reflexivity. Qed.

(** A scan that finds every node visited comes back to the node it passed
    over first and stops there. *)
Lemma scan_full_circle :
  scan_passed 2 (scan_start single_cache) single_cache = [0%nat] /\
  scan 2 (scan_start single_cache) single_cache =
    Done (Some 0%nat,
          with_nodes [mkNode "a" 1%Z None None false] single_cache).
Proof. split; vm_compute; reflexivity. Qed.

(** Two evictions in a row: the second scan resumes at [hand], just before
    the first victim, and evicts "b", not at [tail]. *)
Example hand_continuity :
  exists c,
    after 3 [CSet "a" 1%Z; CSet "b" 2%Z; CSet "c" 3%Z; CSet "d" 4%Z;
             CSet "e" 5%Z] = Done c /\
    hand c = Some 2%nat /\
    toArray c = Done ([("e", 5%Z); ("d", 4%Z); ("c", 3%Z)], c).
Proof. eexists. split_and!; vm_compute; reflexivity. Qed.

(** Deleting the node [hand] points at moves [hand] to its predecessor,
    and the next eviction takes that node. *)
Example delete_under_hand :
  exists c1 c2 c3,
    after 3 [CSet "a" 1%Z; CSet "b" 2%Z; CSet "c" 3%Z; CSet "d" 4%Z] = Done c1 /\
    hand c1 = map c1 !! "b" /\
    delete "b" c1 = Done (true, c2) /\ hand c2 = map c1 !! "c" /\
    run_calls [CSet "e" 5%Z; CSet "f" 6%Z] c2 = Done (tt, c3) /\
    toArray c3 = Done ([("f", 6%Z); ("e", 5%Z); ("d", 4%Z)], c3).
Proof. eexists _, _, _. split_and!; vm_compute; reflexivity. Qed.

(** ** Instances of the claims on concrete caches *)

(** C4 as the specification states it fails: constructing a cache with
    capacity 0, or with capacity -1, succeeds. *)
Lemma constructor_accepts_zero :
  constructor (V:=Z) 0 = Done (mkCache [] None None None 0 0 ∅) /\
  constructor (V:=Z) (-1) = Done (mkCache [] None None None 0 (-1) ∅) /\
  ~ (forall cap : Z, (cap <= 0)%Z ->
       forall c : SieveCache Z, constructor cap <> Done c).
Proof.
  split; [reflexivity|]. split; [reflexivity|].
  intros H. apply (H 0%Z ltac:(lia) (mkCache [] None None None 0 0 ∅)).
  reflexivity.
Qed.

Lemma evict_follows_scan_steps_witness :
  wf full_cache [1; 0]%nat /\ [1; 0]%nat <> [] /\
  exists vic c',
    _evict full_cache = Done (tt, c') /\
    evict_steps full_cache vic c' /\
    (forall vic2 c2, evict_steps full_cache vic2 c2 -> vic2 = vic /\ c2 = c') /\
    (exists n xs ys,
       nodes full_cache !! vic = Some n /\ [1; 0]%nat = xs ++ vic :: ys /\
       wf c' (xs ++ ys) /\ hand c' = prev n /\
       map c' = base.delete (key n) (map full_cache)) /\
    (forall k v, map full_cache !! k = None ->
       set k v full_cache =
         insert_new k v
           (if bool_decide (size full_cache = capacity full_cache)
            then c' else full_cache)) /\
    (forall k v l, map full_cache !! k = Some l ->
       exists c2, set k v full_cache = Done (l, c2) /\
         same_frame full_cache c2 /\
         forall l' n', nodes full_cache !! l' = Some n' -> visited n' = true ->
           visited <$> nodes c2 !! l' = Some true).
Proof.
  split; [apply wf_check_sound; vm_compute; reflexivity|].
  split; [discriminate|].
  apply (evict_follows_scan_steps full_cache [1; 0]%nat).
  - apply wf_check_sound. vm_compute. reflexivity.
  - discriminate.
Defined.

Lemma scan_terminates_witness :
  wf full_cache [1; 0]%nat /\ [1; 0]%nat <> [] /\
  exists start vic c1 n,
    scan_start full_cache = Some start /\
    (forall fuel, (Z.to_nat (size full_cache) < fuel)%nat ->
       scan fuel (Some start) full_cache = Done (Some vic, c1) /\
       NoDup (scan_passed fuel (Some start) full_cache) /\
       (length (scan_passed fuel (Some start) full_cache)
        <= Z.to_nat (size full_cache))%nat) /\
    vic ∈ [1; 0]%nat /\ nodes c1 !! vic = Some n /\ visited n = false /\
    exists c', _evict full_cache = Done (tt, c').
Proof.
  split; [apply wf_check_sound; vm_compute; reflexivity|].
  split; [discriminate|].
  apply (scan_terminates full_cache [1; 0]%nat).
  - apply wf_check_sound. vm_compute. reflexivity.
  - discriminate.
Defined.

Lemma size_never_exceeds_capacity_witness :
  (1 <= 2)%Z /\
  after 2 [CSet "a" 1%Z; CSet "b" 2%Z; CGet "a"] = Done full_cache /\
  wf full_cache [1; 0]%nat /\ capacity full_cache = 2%Z /\
  size full_cache = capacity full_cache /\ map full_cache !! "c" = None /\
  exists vic xs ys c0,
    [1; 0]%nat = xs ++ vic :: ys /\ map full_cache !! "b" = Some vic /\
    _evict full_cache = Done (tt, c0) /\ wf c0 (xs ++ ys) /\
    map c0 = base.delete "b" (map full_cache) /\
    size c0 = (size full_cache - 1)%Z /\
    insert_new "c" 3%Z c0 = Done (2%nat, full_cache_after_set) /\
    set "c" 3%Z full_cache = Done (2%nat, full_cache_after_set) /\
    wf full_cache_after_set (2%nat :: xs ++ ys) /\
    map full_cache_after_set
      = <["c" := 2%nat]> (base.delete "b" (map full_cache)) /\
    size full_cache_after_set = size full_cache.
Proof.
  assert (Hwf : wf full_cache [1; 0]%nat)
    by (apply wf_check_sound; vm_compute; reflexivity).
  assert (Hc : map full_cache !! "c" = None) by (vm_compute; reflexivity).
  split; [lia|]. split; [vm_compute; reflexivity|]. split; [exact Hwf|].
  split; [reflexivity|]. split; [reflexivity|]. split; [exact Hc|].
  destruct (size_never_exceeds_capacity 2
              [CSet "a" 1%Z; CSet "b" 2%Z; CGet "a"] ltac:(lia))
    as (_ & Hfull & _).
  destruct (Hfull full_cache [1; 0]%nat "c" 3%Z Hwf eq_refl eq_refl Hc)
    as (victim & vic & xs & ys & c0 & l & c' & Hls & Hvic & Hne & Hev & Hwf0
        & Hmap0 & Hsz0 & Hins & Hset & Hwf' & Hmap' & Hsz' & _).
  assert (Hrun : set "c" 3%Z full_cache = Done (2%nat, full_cache_after_set))
    by (vm_compute; reflexivity).
  rewrite Hrun in Hset. injection Hset as <- <-.
  assert (victim = "b") as ->.
  { destruct (decide (victim = "b")) as [|Hb]; [done|]. exfalso.
    assert (Hl : map full_cache_after_set !! "b" = None)
      by (vm_compute; reflexivity).
    rewrite Hmap', lookup_insert_ne, lookup_delete_ne in Hl by done.
    vm_compute in Hl. discriminate. }
  exists vic, xs, ys, c0.
  split; [exact Hls|]. split; [exact Hvic|]. split; [exact Hev|].
  split; [exact Hwf0|]. split; [exact Hmap0|]. split; [exact Hsz0|].
  split; [exact Hins|]. split; [exact Hrun|]. split; [exact Hwf'|].
  split; [exact Hmap'|]. exact Hsz'.
Defined.

Lemma constructor_accepts_any_capacity_witness :
  (0 <= 0)%Z /\
  (exists c : SieveCache Z,
     constructor 0 = Done c /\ capacity c = 0%Z /\ size c = 0%Z /\
     map c = ∅ /\ head c = None /\ tail c = None /\ hand c = None) /\
  forall ops : list call,
    exists c ls,
      after 0 ops = Done c /\ wf c ls /\
      forall k (v : Z), map c !! k = None ->
        exists l c',
          set k v c = Done (l, c') /\ wf c' (l :: ls) /\
          map c' = <[k := l]> (map c) /\
          size c' = (size c + 1)%Z /\ (capacity c' < size c')%Z.
Proof.
  split; [lia|]. split.
  - apply (constructor_accepts_any_capacity (V:=Z) 0).
  - apply (constructor_accepts_any_capacity (V:=Z) 0). lia.
Defined.

Lemma visited_flag_transitions_witness :
  wf full_cache [1; 0]%nat /\
  run_call (CSet "c" 3%Z) full_cache = Done (tt, full_cache_after_set) /\
  (forall k v, CSet "c" 3%Z = CSet k v -> map full_cache !! k = None ->
     exists l n, map full_cache_after_set !! k = Some l /\
       nodes full_cache !! l = None /\
       nodes full_cache_after_set !! l = Some n /\ key n = k /\
       visited n = false) /\
  (forall k l, map full_cache !! k = Some l ->
     CSet "c" 3%Z = CGet k \/ (exists v, CSet "c" 3%Z = CSet k v) ->
     visited <$> nodes full_cache_after_set !! l = Some true) /\
  (forall l n, nodes full_cache !! l = Some n ->
     exists n', nodes full_cache_after_set !! l = Some n' /\
       (visited n = false -> visited n' = true ->
        map full_cache !! key n = Some l /\
        (CSet "c" 3%Z = CGet (key n) \/
         exists v, CSet "c" 3%Z = CSet (key n) v)) /\
       (visited n = true -> visited n' = false ->
        exists k v, CSet "c" 3%Z = CSet k v /\ map full_cache !! k = None /\
          size full_cache = capacity full_cache /\ l ∈ [1; 0]%nat /\
          l ∈ scan_passed (S (visited_count (nodes full_cache)))
                (scan_start full_cache) full_cache)).
Proof.
  split; [apply wf_check_sound; vm_compute; reflexivity|].
  split; [vm_compute; reflexivity|].
  apply (visited_flag_transitions full_cache [1; 0]%nat (CSet "c" 3%Z)
           full_cache_after_set).
  - apply wf_check_sound. vm_compute. reflexivity.
  - vm_compute. reflexivity.
Defined.

Lemma delete_removes_entry_witness :
  wf full_cache [1; 0]%nat /\
  (map full_cache !! "a" = None -> delete "a" full_cache = Done (false, full_cache)) /\
  (forall x nx, map full_cache !! "a" = Some x -> nodes full_cache !! x = Some nx ->
     exists xs ys c',
       [1; 0]%nat = xs ++ x :: ys /\
       delete "a" full_cache = Done (true, c') /\
       hand c' = (if decide (hand full_cache = Some x) then prev nx
                  else hand full_cache) /\
       wf c' (xs ++ ys) /\
       map c' = base.delete "a" (map full_cache) /\
       size c' = (size full_cache - 1)%Z /\
       capacity c' = capacity full_cache /\
       same_data full_cache c').
Proof.
  split; [apply wf_check_sound; vm_compute; reflexivity|].
  apply (delete_removes_entry full_cache [1; 0]%nat "a").
  apply wf_check_sound. vm_compute. reflexivity.
Defined.

Lemma set_existing_in_place_witness :
  map full_cache !! "a" = Some 0%nat /\
  nodes full_cache !! 0%nat = Some (mkNode "a" 1%Z (Some 1%nat) None true) /\
  exists c',
    set "a" 7%Z full_cache = Done (0%nat, c') /\
    nodes c' !! 0%nat = Some (mkNode "a" 7%Z (Some 1%nat) None true) /\
    (forall l', l' <> 0%nat -> nodes c' !! l' = nodes full_cache !! l') /\
    length (nodes c') = length (nodes full_cache) /\
    head c' = head full_cache /\ tail c' = tail full_cache /\
    hand c' = hand full_cache /\
    size c' = size full_cache /\ capacity c' = capacity full_cache /\
    map c' = map full_cache /\
    (forall ls, wf full_cache ls -> wf c' ls).
Proof.
  split; [vm_compute; reflexivity|]. split; [reflexivity|].
  apply (set_existing_in_place full_cache "a" 7%Z 0%nat
           (mkNode "a" 1%Z (Some 1%nat) None true)).
  - vm_compute. reflexivity.
  - reflexivity.
Defined.

Lemma iteration_newest_first_witness :
  (3 <= 3)%Z /\
  (exists c : SieveCache Z,
     after 3 [CSet "a" 1%Z; CSet "b" 2%Z; CSet "c" 3%Z] = Done c /\
     iterate c = Done ([("c", 3%Z); ("b", 2%Z); ("a", 1%Z)], c) /\
     toArray c = Done ([("c", 3%Z); ("b", 2%Z); ("a", 1%Z)], c)) /\
  wf full_cache [1; 0]%nat /\
  iterate full_cache = Done (entries full_cache [1; 0]%nat, full_cache) /\
  iterate full_cache = Done ([("b", 2%Z); ("a", 1%Z)], full_cache) /\
  toArray full_cache = Done ([("b", 2%Z); ("a", 1%Z)], full_cache) /\
  full_cache = full_cache.
Proof.
  pose proof (iteration_newest_first (V:=Z)) as (Habc & Hchain & Hiter & Harr & _).
  assert (Hwf : wf full_cache [1; 0]%nat)
    by (apply wf_check_sound; vm_compute; reflexivity).
  assert (Hi : iterate full_cache = Done ([("b", 2%Z); ("a", 1%Z)], full_cache))
    by (vm_compute; reflexivity).
  assert (Ha : toArray full_cache = Done ([("b", 2%Z); ("a", 1%Z)], full_cache))
    by (vm_compute; reflexivity).
  split; [lia|]. split; [apply Habc; lia|]. split; [exact Hwf|].
  split; [exact (Hchain _ _ Hwf)|]. split; [exact Hi|]. split; [exact Ha|].
  exact (Hiter _ _ _ Hi).
Defined.

Lemma zero_capacity_never_evicts_witness :
  NoDup [("a", 1%Z); ("b", 2%Z); ("c", 3%Z)].*1 /\
  exists c ls,
    after 0 (set_calls [("a", 1%Z); ("b", 2%Z); ("c", 3%Z)]) = Done c /\
    wf c ls /\
    size c = 3%Z /\
    entries c ls = [("c", 3%Z); ("b", 2%Z); ("a", 1%Z)] /\
    (forall k, is_Some (map c !! k) <-> k ∈ ["a"; "b"; "c"]) /\
    (capacity c < size c)%Z.
Proof.
  assert (Hnd : NoDup [("a", 1%Z); ("b", 2%Z); ("c", 3%Z)].*1).
  { apply (bool_decide_unpack _). vm_compute. exact I. }
  split; [exact Hnd|].
  destruct (zero_capacity_never_evicts (V:=Z)) as (_ & _ & Hsets).
  destruct (Hsets [("a", 1%Z); ("b", 2%Z); ("c", 3%Z)] Hnd)
    as (c & ls & H1 & H2 & H3 & H4 & H5 & H6).
  exists c, ls. split; [exact H1|]. split; [exact H2|]. split; [exact H3|].
  split; [exact H4|]. split; [exact H5|]. apply H6. discriminate.
Defined.

(** ** Instances of the further properties on concrete caches *)

Lemma get_after_set_witness :
  wf full_cache [1; 0]%nat /\
  exists l c1 c2,
    set "c" 3%Z full_cache = Done (l, c1) /\
    getNode "c" c1 = Done (Some l, c1) /\
    get "c" c1 = Done (Some 3%Z, c2).
Proof.
  split; [apply wf_check_sound; vm_compute; reflexivity|].
  apply (get_after_set full_cache [1; 0]%nat "c" 3%Z).
  apply wf_check_sound. vm_compute. reflexivity.
Defined.

Lemma exact_within_capacity_witness :
  within 2 [CSet "a" 1%Z; CSet "b" 2%Z; CDelete "a"; CSet "c" 3%Z] ∅ = true /\
  exists c,
    after 2 [CSet "a" 1%Z; CSet "b" 2%Z; CDelete "a"; CSet "c" 3%Z] = Done c /\
    size c =
      Z.of_nat (base.size
        (map_calls [CSet "a" 1%Z; CSet "b" 2%Z; CDelete "a"; CSet "c" 3%Z] ∅)) /\
    forall k, exists c',
      get k c =
        Done (map_calls [CSet "a" 1%Z; CSet "b" 2%Z; CDelete "a"; CSet "c" 3%Z]
                ∅ !! k, c').
Proof.
  split; [vm_compute; reflexivity|].
  apply (exact_within_capacity 2
           [CSet "a" 1%Z; CSet "b" 2%Z; CDelete "a"; CSet "c" 3%Z]).
  vm_compute. reflexivity.
Defined.

Lemma lookup_after_delete_witness :
  wf full_cache [1; 0]%nat /\
  exists c',
    delete "a" full_cache
      = Done (bool_decide (is_Some (map full_cache !! "a")), c') /\
    get "a" c' = Done (None, c') /\ getNode "a" c' = Done (None, c') /\
    delete "a" c' = Done (false, c') /\
    forall k', k' <> "a" -> cached c' k' = cached full_cache k'.
Proof.
  split; [apply wf_check_sound; vm_compute; reflexivity|].
  apply (lookup_after_delete full_cache [1; 0]%nat "a").
  apply wf_check_sound. vm_compute. reflexivity.
Defined.

Lemma set_evicts_unvisited_witness :
  wf full_cache [1; 0]%nat /\ map full_cache !! "c" = None /\
  size full_cache = capacity full_cache /\ [1; 0]%nat <> [] /\
  exists l c' vic n,
    set "c" 3%Z full_cache = Done (l, c') /\
    nodes full_cache !! vic = Some n /\ map full_cache !! key n = Some vic /\
    cached c' (key n) = None /\
    (forall k', k' <> "c" -> k' <> key n -> cached c' k' = cached full_cache k') /\
    (visited n = false \/
     (Some vic = match hand full_cache with
                 | Some x => Some x
                 | None => tail full_cache
                 end /\
      forall l', l' ∈ [1; 0]%nat ->
        visited <$> nodes full_cache !! l' = Some true)).
Proof.
  split; [apply wf_check_sound; vm_compute; reflexivity|].
  split; [vm_compute; reflexivity|]. split; [reflexivity|].
  split; [discriminate|].
  apply (set_evicts_unvisited full_cache [1; 0]%nat "c" 3%Z).
  - apply wf_check_sound. vm_compute. reflexivity.
  - vm_compute. reflexivity.
  - reflexivity.
  - discriminate.
Defined.

Lemma read_entry_survives_witness :
  wf full_cache [1; 0]%nat /\ cached full_cache "a" = Some 1%Z /\
  map full_cache !! "c" = None /\ 1%nat ∈ [1; 0]%nat /\
  nodes full_cache !! 1%nat = Some (mkNode "b" 2%Z None (Some 0%nat) false) /\
  exists c1 l c2 c3,
    get "a" full_cache = Done (Some 1%Z, c1) /\
    set "c" 3%Z c1 = Done (l, c2) /\
    get "a" c2 = Done (Some 1%Z, c3).
Proof.
  split; [apply wf_check_sound; vm_compute; reflexivity|].
  split; [vm_compute; reflexivity|]. split; [vm_compute; reflexivity|].
  split; [apply (bool_decide_unpack _); vm_compute; exact I|].
  split; [reflexivity|].
  apply (read_entry_survives full_cache [1; 0]%nat "c" "a" 3%Z 1%Z 1%nat
           (mkNode "b" 2%Z None (Some 0%nat) false)).
  - apply wf_check_sound. vm_compute. reflexivity.
  - vm_compute. reflexivity.
  - vm_compute. reflexivity.
  - apply (bool_decide_unpack _). vm_compute. exact I.
  - reflexivity.
  - reflexivity.
  - discriminate.
Defined.

Lemma sets_only_fifo_witness :
  (1 <= 2)%Z /\ NoDup [("a", 1%Z); ("b", 2%Z); ("c", 3%Z)].*1 /\
  exists c,
    after 2 (set_calls [("a", 1%Z); ("b", 2%Z); ("c", 3%Z)]) = Done c /\
    toArray c =
      Done (take (Z.to_nat 2) (reverse [("a", 1%Z); ("b", 2%Z); ("c", 3%Z)]), c).
Proof.
  assert (Hnd : NoDup [("a", 1%Z); ("b", 2%Z); ("c", 3%Z)].*1).
  { apply (bool_decide_unpack _). vm_compute. exact I. }
  split; [lia|]. split; [exact Hnd|].
  apply (sets_only_fifo 2 [("a", 1%Z); ("b", 2%Z); ("c", 3%Z)]); [lia|exact Hnd].
Defined.

Lemma set_new_order_witness :
  wf full_cache [1; 0]%nat /\ map full_cache !! "c" = None /\
  exists l c' items,
    set "c" 3%Z full_cache = Done (l, c') /\
    toArray full_cache = Done (items, full_cache) /\
    ((size full_cache <> capacity full_cache \/ items = []) /\
     toArray c' = Done (("c", 3%Z) :: items, c') \/
     size full_cache = capacity full_cache /\
     exists front gone back,
       items = front ++ gone :: back /\
       toArray c' = Done (("c", 3%Z) :: front ++ back, c')).
Proof.
  split; [apply wf_check_sound; vm_compute; reflexivity|].
  split; [vm_compute; reflexivity|].
  apply (set_new_order full_cache [1; 0]%nat "c" 3%Z).
  - apply wf_check_sound. vm_compute. reflexivity.
  - vm_compute. reflexivity.
Defined.

Lemma reads_keep_order_witness :
  wf full_cache [1; 0]%nat /\
  exists r c' items,
    get "b" full_cache = Done (r, c') /\
    getNode "b" full_cache = Done (map full_cache !! "b", full_cache) /\
    toArray full_cache = Done (items, full_cache) /\
    toArray c' = Done (items, c') /\
    getCache c' = Done (items.*1, c').
Proof.
  split; [apply wf_check_sound; vm_compute; reflexivity|].
  apply (reads_keep_order full_cache [1; 0]%nat "b").
  apply wf_check_sound. vm_compute. reflexivity.
Defined.

Lemma getNode_agrees_with_get_witness :
  wf full_cache [1; 0]%nat /\
  exists r c',
    getNode "b" full_cache = Done (r, full_cache) /\
    get "b" full_cache = Done (cached full_cache "b", c') /\
    match r with
    | None => cached full_cache "b" = None /\ c' = full_cache
    | Some l =>
      exists n, nodes full_cache !! l = Some n /\ key n = "b" /\
        cached full_cache "b" = Some (value n) /\
        nodes c' !! l = Some (with_visited true n)
    end.
Proof.
  split; [apply wf_check_sound; vm_compute; reflexivity|].
  apply (getNode_agrees_with_get full_cache [1; 0]%nat "b").
  apply wf_check_sound. vm_compute. reflexivity.
Defined.

Lemma clear_resets_witness :
  (1 <= capacity full_cache)%Z /\ NoDup [("x", 7%Z); ("y", 8%Z); ("z", 9%Z)].*1 /\
  exists c' c'',
    clear full_cache = Done (tt, c') /\ size c' = 0%Z /\
    capacity c' = capacity full_cache /\
    toArray c' = Done ([], c') /\
    (forall k, get k c' = Done (None, c') /\ delete k c' = Done (false, c')) /\
    clear c' = Done (tt, c') /\
    run_calls (set_calls [("x", 7%Z); ("y", 8%Z); ("z", 9%Z)]) c'
      = Done (tt, c'') /\
    toArray c'' =
      Done (take (Z.to_nat (capacity full_cache))
              (reverse [("x", 7%Z); ("y", 8%Z); ("z", 9%Z)]), c'').
Proof.
  assert (Hnd : NoDup [("x", 7%Z); ("y", 8%Z); ("z", 9%Z)].*1).
  { apply (bool_decide_unpack _). vm_compute. exact I. }
  split; [simpl; lia|]. split; [exact Hnd|].
  apply (clear_resets full_cache [("x", 7%Z); ("y", 8%Z); ("z", 9%Z)]);
    [simpl; lia|exact Hnd].
Defined.
